(** * Orbital simulation: the integrator, the orbit tracker and the sweep meter

    A shallow embedding of [assets/js/orbital_sim.js]: the iterative midpoint
    integrator ([updatePlanet_Iterative], [updatePlanet_Iterative_Subdivided]),
    the first-orbit tracker inside [draw] with [interpolatePosition], and the
    sweep utilities ([getTriangleArea], [getSweepAreaInAU2]); then the
    display coordinates, the day markers, the reference circle, the launch
    arrow, the buttons with the whole of [draw] and [drawSweeps], and the
    [draw] of the earlier sketch kept in [unnamed/part_000].

    The program computes with JavaScript numbers.  Every function is written
    once, over an interface [JSNumber] of the operations the source applies to
    numbers, and read at three carriers:
    - [float], the kernel's binary64 numbers: the numbers the program really
      runs on; everything evaluates there;
    - [R], exact real arithmetic: the reading in which the algebraic
      statements of the specification are meant;
    - [xreal], exact real arithmetic with IEEE's infinities and NaN: the
      reading in which a statement about a non-finite result can be made. *)

From Stdlib Require Import Floats.
From Stdlib Require Uint63.
From Stdlib Require Import List Bool Arith ZArith Lia.
From Stdlib Require Import Reals Lra.
From Stdlib Require String.
Import String.StringSyntax.
Import ListNotations.
Delimit Scope string_scope with string.

Set Implicit Arguments.

(* ================================================================== *)
(** ** JavaScript numbers *)

(** The operations of the source on numbers: [+ - * /], unary minus,
    [Math.sqrt], [Math.abs], the comparisons [>], [>=], [===], the constant
    [Math.PI] and the numerals; and [Number.isFinite], which the vector
    library applies to the factor of a multiplication. *)
Class JSNumber (T : Type) : Type := {
  num_of_nat : nat -> T;
  add : T -> T -> T;
  sub : T -> T -> T;
  mul : T -> T -> T;
  div : T -> T -> T;
  neg : T -> T;
  Math_sqrt : T -> T;
  Math_abs : T -> T;
  gt : T -> T -> bool;
  ge : T -> T -> bool;
  strict_eq : T -> T -> bool;
  Math_PI : T;
  Number_isFinite : T -> bool
}.

Declare Scope js_scope.
Delimit Scope js_scope with js.
Infix "+" := add : js_scope.
Infix "-" := sub : js_scope.
Infix "*" := mul : js_scope.
Infix "/" := div : js_scope.
Notation "- x" := (neg x) : js_scope.

(** *** binary64 *)

Definition float_of_nat (n : nat) : float :=
  PrimFloat.of_uint63 (Uint63.of_Z (Z.of_nat n)).

#[export] Instance float_number : JSNumber float := {|
  num_of_nat := float_of_nat;
  add := PrimFloat.add;
  sub := PrimFloat.sub;
  mul := PrimFloat.mul;
  div := PrimFloat.div;
  neg := PrimFloat.opp;
  Math_sqrt := PrimFloat.sqrt;
  Math_abs := PrimFloat.abs;
  gt := fun x y => PrimFloat.ltb y x;
  ge := fun x y => PrimFloat.leb y x;
  strict_eq := PrimFloat.eqb;
  Math_PI := 0x1.921fb54442d18p+1%float;
  Number_isFinite := PrimFloat.is_finite
|}.

(** *** exact reals *)

Definition Rgtb (x y : R) : bool := if Rgt_dec x y then true else false.
Definition Rgeb (x y : R) : bool := if Rge_dec x y then true else false.
Definition Reqb (x y : R) : bool := if Req_dec_T x y then true else false.

#[export] Instance real_number : JSNumber R := {|
  num_of_nat := INR;
  add := Rplus;
  sub := Rminus;
  mul := Rmult;
  div := Rdiv;
  neg := Ropp;
  Math_sqrt := R_sqrt.sqrt;
  Math_abs := Rabs;
  gt := Rgtb;
  ge := Rgeb;
  strict_eq := Reqb;
  Math_PI := PI;
  Number_isFinite := fun _ => true
|}.

(** *** exact reals with IEEE's non-finite values

    Arithmetic is exact on finite values and follows IEEE 754 where a result
    is not finite: a nonzero number over zero is an infinity, [0/0],
    [Infinity - Infinity], [0 * Infinity] and the square root of a negative
    number are NaN, NaN propagates, and every comparison with NaN is false.
    Zero has no sign here; a zero divisor is read as [+0], which is what
    [Math.abs] returns. *)

Inductive xreal : Type :=
| Fin (r : R)
| PInf
| NInf
| NaN.

Definition xfinite (x : xreal) : bool :=
  match x with Fin _ => true | _ => false end.

Definition xneg (x : xreal) : xreal :=
  match x with Fin a => Fin (- a) | PInf => NInf | NInf => PInf | NaN => NaN end.

Definition xadd (x y : xreal) : xreal :=
  match x, y with
  | NaN, _ | _, NaN => NaN
  | Fin a, Fin b => Fin (a + b)
  | PInf, NInf | NInf, PInf => NaN
  | PInf, _ | _, PInf => PInf
  | NInf, _ | _, NInf => NInf
  end.

Definition xsub (x y : xreal) : xreal := xadd x (xneg y).

(** An infinity scaled by the sign of a finite factor. *)
Definition xscale_inf (positive : bool) (a : R) : xreal :=
  if Rlt_dec 0 a then (if positive then PInf else NInf)
  else if Rlt_dec a 0 then (if positive then NInf else PInf)
  else NaN.

Definition xmul (x y : xreal) : xreal :=
  match x, y with
  | NaN, _ | _, NaN => NaN
  | Fin a, Fin b => Fin (a * b)
  | PInf, Fin a | Fin a, PInf => xscale_inf true a
  | NInf, Fin a | Fin a, NInf => xscale_inf false a
  | PInf, PInf | NInf, NInf => PInf
  | PInf, NInf | NInf, PInf => NInf
  end.

Definition xdiv (x y : xreal) : xreal :=
  match x, y with
  | NaN, _ | _, NaN => NaN
  | Fin a, Fin b =>
      if Req_dec_T b 0 then xscale_inf true a else Fin (a / b)
  | Fin _, (PInf | NInf) => Fin 0
  | PInf, Fin b => if Rlt_dec b 0 then NInf else PInf
  | NInf, Fin b => if Rlt_dec b 0 then PInf else NInf
  | (PInf | NInf), (PInf | NInf) => NaN
  end.

Definition xsqrt (x : xreal) : xreal :=
  match x with
  | Fin a => if Rlt_dec a 0 then NaN else Fin (R_sqrt.sqrt a)
  | PInf => PInf
  | NInf | NaN => NaN
  end.

Definition xabs (x : xreal) : xreal :=
  match x with Fin a => Fin (Rabs a) | PInf | NInf => PInf | NaN => NaN end.

Definition xgt (x y : xreal) : bool :=
  match x, y with
  | NaN, _ | _, NaN => false
  | Fin a, Fin b => Rgtb a b
  | PInf, (Fin _ | NInf) => true
  | Fin _, NInf => true
  | _, _ => false
  end.

Definition xeq (x y : xreal) : bool :=
  match x, y with
  | Fin a, Fin b => Reqb a b
  | PInf, PInf | NInf, NInf => true
  | _, _ => false
  end.

Definition xge (x y : xreal) : bool := xgt x y || xeq x y.

#[export] Instance xreal_number : JSNumber xreal := {|
  num_of_nat := fun n => Fin (INR n);
  add := xadd;
  sub := xsub;
  mul := xmul;
  div := xdiv;
  neg := xneg;
  Math_sqrt := xsqrt;
  Math_abs := xabs;
  gt := xgt;
  ge := xge;
  strict_eq := xeq;
  Math_PI := Fin PI;
  Number_isFinite := xfinite
|}.

(* ================================================================== *)
(** ** p5.Vector, in the plane

    The vectors of the program are p5.js vectors whose [z] is always 0.  The
    library is not part of the repository; its operations are modelled as the
    library documents them, componentwise.  Every call of a mutating method in
    the modelled functions is made on a fresh [copy()], so a vector is a
    value here.

    [mult(n)] multiplies only by a finite number: when [n] is NaN or an
    infinity the library warns and leaves the vector as it is.  [div(n)] is
    called by the program with the divisors 2 and [getDisplayPerPhys()] only,
    both finite and not zero at every carrier. *)

Section Vector.
Context {T : Type} `{JSNumber T}.
Local Open Scope js_scope.

Record vec : Type := createVector { vx : T; vy : T }.

Definition vadd (u v : vec) : vec := createVector (vx u + vx v) (vy u + vy v).
Definition vsub (u v : vec) : vec := createVector (vx u - vx v) (vy u - vy v).
Definition vmult (u : vec) (n : T) : vec :=
  if Number_isFinite n then createVector (vx u * n) (vy u * n) else u.
Definition vdiv (u : vec) (n : T) : vec := createVector (vx u / n) (vy u / n).

(** [magSq]: [x*x + y*y + z*z] with [z = 0]. *)
Definition magSq (u : vec) : T := vx u * vx u + vy u * vy u.
Definition mag (u : vec) : T := Math_sqrt (magSq u).

(** [normalize]: [len = mag(); if (len !== 0) mult(1 / len)], with the
    [mult] above: a length whose inverse is not finite leaves the vector as
    it is. *)
Definition normalize (u : vec) : vec :=
  let len := mag u in
  if strict_eq len (num_of_nat 0) then u else vmult u (num_of_nat 1 / len).

(** [a.dist(b)] is [b.copy().sub(a).mag()]. *)
Definition dist (a b : vec) : T := mag (vsub b a).

(* ---------------------------------------------------------------- *)
(** ** Sweep utilities *)

(** [getTriangleArea(points)], Heron's formula on the three sides taken in
    the order of the source: 0-1, 1-2, 2-0. *)
Definition getTriangleArea (p0 p1 p2 : vec) : T :=
  let s0 := dist p0 p1 in
  let s1 := dist p1 p2 in
  let s2 := dist p2 p0 in
  let s := (s0 + s1 + s2) / num_of_nat 2 in
  Math_sqrt (s * (s - s0) * (s - s1) * (s - s2)).

(** The loop of [getSweepAreaInAU2], [i] running over the consecutive
    pairs, [total] the running sum. *)
Fixpoint sweep_loop (center : vec) (total : T) (sweepPath : list vec) : T :=
  match sweepPath with
  | p1 :: ((p2 :: _) as rest) =>
      sweep_loop center (total + getTriangleArea center p1 p2) rest
  | _ => total
  end.

Definition getSweepAreaInAU2 (sweepPath : list vec) : T :=
  sweep_loop (createVector (num_of_nat 0) (num_of_nat 0)) (num_of_nat 0) sweepPath.

(* ---------------------------------------------------------------- *)
(** ** The first-orbit record *)

(** [interpolatePosition(path, index, subindex)].  [path[index]] is
    [undefined] out of range, and [p1.copy()] then throws: [None].  When
    [p1] exists the path is not empty and [(index+1) % length] is in
    range. *)
Definition interpolatePosition (path : list vec) (index : nat) (subindex : T)
  : option vec :=
  match nth_error path index, nth_error path ((index + 1) mod length path) with
  | Some p1, Some p2 =>
      Some (vadd (vmult p1 subindex) (vmult p2 (num_of_nat 1 - subindex)))
  | _, _ => None
  end.

(** The object [createNewOrbit] builds. *)
Record Orbit : Type := mkOrbit {
  xPlanet : vec;
  vPlanet : vec;
  isFirstOrbit : bool;
  angularChangeThisOrbit : T;
  firstOrbitPath : list vec;
  currSnapIndex : nat;
  currSnapSubindex : T;
  indexCarryOver : T
}.

(** Assignments to the fields of the record. *)
Definition set_xPlanet (o : Orbit) (x : vec) : Orbit :=
  mkOrbit x (vPlanet o) (isFirstOrbit o) (angularChangeThisOrbit o)
          (firstOrbitPath o) (currSnapIndex o) (currSnapSubindex o) (indexCarryOver o).
Definition set_vPlanet (o : Orbit) (v : vec) : Orbit :=
  mkOrbit (xPlanet o) v (isFirstOrbit o) (angularChangeThisOrbit o)
          (firstOrbitPath o) (currSnapIndex o) (currSnapSubindex o) (indexCarryOver o).
Definition set_isFirstOrbit (o : Orbit) (b : bool) : Orbit :=
  mkOrbit (xPlanet o) (vPlanet o) b (angularChangeThisOrbit o)
          (firstOrbitPath o) (currSnapIndex o) (currSnapSubindex o) (indexCarryOver o).
Definition set_angularChangeThisOrbit (o : Orbit) (a : T) : Orbit :=
  mkOrbit (xPlanet o) (vPlanet o) (isFirstOrbit o) a
          (firstOrbitPath o) (currSnapIndex o) (currSnapSubindex o) (indexCarryOver o).
Definition set_firstOrbitPath (o : Orbit) (l : list vec) : Orbit :=
  mkOrbit (xPlanet o) (vPlanet o) (isFirstOrbit o) (angularChangeThisOrbit o)
          l (currSnapIndex o) (currSnapSubindex o) (indexCarryOver o).
Definition set_currSnapIndex (o : Orbit) (i : nat) : Orbit :=
  mkOrbit (xPlanet o) (vPlanet o) (isFirstOrbit o) (angularChangeThisOrbit o)
          (firstOrbitPath o) i (currSnapSubindex o) (indexCarryOver o).
Definition set_currSnapSubindex (o : Orbit) (t : T) : Orbit :=
  mkOrbit (xPlanet o) (vPlanet o) (isFirstOrbit o) (angularChangeThisOrbit o)
          (firstOrbitPath o) (currSnapIndex o) t (indexCarryOver o).
Definition set_indexCarryOver (o : Orbit) (t : T) : Orbit :=
  mkOrbit (xPlanet o) (vPlanet o) (isFirstOrbit o) (angularChangeThisOrbit o)
          (firstOrbitPath o) (currSnapIndex o) (currSnapSubindex o) t.

(** [createNewOrbit()]; the launch velocity is what [inputVelocityToPhys()]
    returns from the two input fields.  The path starts with the initial
    position. *)
Definition createNewOrbit (launchVelocity : vec) : Orbit :=
  let x0 := createVector (num_of_nat 0) (- num_of_nat 1) in
  {| xPlanet := x0;
     vPlanet := launchVelocity;
     isFirstOrbit := true;
     angularChangeThisOrbit := num_of_nat 0;
     firstOrbitPath := [x0];
     currSnapIndex := 0;
     currSnapSubindex := num_of_nat 0;
     indexCarryOver := num_of_nat 0 |}.

(** The program state the modelled functions read and write: the global
    [orbit], and the three names [updatePlanet_Iterative] assigns without
    declaring them, which are therefore globals that outlive a call
    ([None]: not created yet). *)
Record world : Type := mkWorld {
  vNext : option vec;
  vAvg : option vec;
  xNext : option vec;
  orbit : Orbit
}.

Definition set_orbit (w : world) (o : Orbit) : world :=
  mkWorld (vNext w) (vAvg w) (xNext w) o.

Inductive js_error : Type := ReferenceError | TypeError.

(** How a call ends: normally, or by an exception, in either case with the
    state it leaves. *)
Inductive completion : Type :=
| Normal (w : world)
| Throw (e : js_error) (w : world).

Definition state_of (c : completion) : world :=
  match c with Normal w => w | Throw _ w => w end.

Definition and_then (c : completion) (k : world -> completion) : completion :=
  match c with Normal w => k w | Throw e w => Throw e w end.

(* ---------------------------------------------------------------- *)
(** ** The integrator *)

(** [for (let i = 0; i < count; i++) body], on the state the body updates:
    [remaining] passes are left when the counter is [i]. *)
Fixpoint for_loop {S : Type} (body : nat -> S -> S) (remaining i : nat) (s : S) : S :=
  match remaining with
  | O => s
  | Datatypes.S r => for_loop body r (Datatypes.S i) (body i s)
  end.

(** What the loop of [updatePlanet_Iterative] updates: the local [xAvg] and
    the three globals. *)
Record iter_vars : Type := mkIter {
  it_xAvg : vec;
  it_vNext : option vec;
  it_vAvg : option vec;
  it_xNext : option vec
}.

(** The variables when the loop is entered: [xAvg = xCurr.copy()]. *)
Definition loop_entry (w : world) : iter_vars :=
  {| it_xAvg := xPlanet (orbit w); it_vNext := vNext w; it_vAvg := vAvg w;
     it_xNext := xNext w |}.

(** One pass of the loop body. *)
Definition iterative_pass (G dt : T) (vCurr xCurr : vec) (st : iter_vars) : iter_vars :=
  let a := vmult (normalize (it_xAvg st)) (- G / magSq (it_xAvg st)) in
  let vNext' := vadd vCurr (vmult a dt) in
  let vAvg' := vdiv (vadd vCurr vNext') (num_of_nat 2) in
  let xNext' := vadd xCurr (vmult vAvg' dt) in
  let xAvg' := vdiv (vadd xCurr xNext') (num_of_nat 2) in
  {| it_xAvg := xAvg'; it_vNext := Some vNext'; it_vAvg := Some vAvg';
     it_xNext := Some xNext' |}.

(** The two assignments after the loop, [orbit.vPlanet = vNext] and
    [orbit.xPlanet = xNext].  Reading a name that was never created throws
    a ReferenceError, the second one after the first assignment is done. *)
Definition commit (st : iter_vars) (w : world) : completion :=
  let w1 := mkWorld (it_vNext st) (it_vAvg st) (it_xNext st) (orbit w) in
  match it_vNext st with
  | None => Throw ReferenceError w1
  | Some vN =>
      let w2 := set_orbit w1 (set_vPlanet (orbit w1) vN) in
      match it_xNext st with
      | None => Throw ReferenceError w2
      | Some xN => Normal (set_orbit w2 (set_xPlanet (orbit w2) xN))
      end
  end.

(** [updatePlanet_Iterative(iterCount, G, dt)]. *)
Definition updatePlanet_Iterative (iterCount : nat) (G dt : T) (w : world) : completion :=
  let vCurr := vPlanet (orbit w) in
  let xCurr := xPlanet (orbit w) in
  commit (for_loop (fun _ => iterative_pass G dt vCurr xCurr) iterCount 0 (loop_entry w)) w.

(** [updatePlanet_Iterative_Subdivided(iterCount, subdivCount, G, dt)]; an
    exception of a call ends the loop. *)
Fixpoint subdivided_loop (iterCount : nat) (G dtSub : T) (remaining : nat) (w : world)
  : completion :=
  match remaining with
  | O => Normal w
  | Datatypes.S r =>
      and_then (updatePlanet_Iterative iterCount G dtSub w)
               (subdivided_loop iterCount G dtSub r)
  end.

Definition updatePlanet_Iterative_Subdivided (iterCount subdivCount : nat) (G dt : T)
  (w : world) : completion :=
  subdivided_loop iterCount G (dt / num_of_nat subdivCount) subdivCount w.

(* ---------------------------------------------------------------- *)
(** ** The tick: the orbit part of [draw] *)

(** The global settings [G = 1] and [dt = 1.1e-2].  The quotient of 11 by
    1000 is the literal's value at each carrier: division rounds to
    nearest, as reading the literal does. *)
Definition G_setting : T := num_of_nat 1.
Definition dt_setting : T := num_of_nat 11 / num_of_nat 1000.
Definition two_pi : T := Math_PI * num_of_nat 2.

(** [a[i]] for an index the source computes by a subtraction: [undefined]
    below 0 and past the end. *)
Definition element_at (l : list vec) (i : Z) : option vec :=
  if (i <? 0)%Z then None else nth_error l (Z.to_nat i).

Section Draw.
(** [p5.Vector.prototype.angleBetween], the signed angle from the
    receiver to the argument, which the library computes with [Math.acos]
    or with [Math.atan2], depending on its version. *)
Variable angleBetween : vec -> vec -> T.

(** The block of [if (orbit.angularChangeThisOrbit > Math.PI*2)]: the
    planet is set up to snap to its first orbit. *)
Definition snap_setup (w : world) : completion :=
  let o := set_isFirstOrbit (orbit w) false in
  match nth_error (firstOrbitPath o) 1, nth_error (firstOrbitPath o) 0 with
  | Some q1, Some q0 =>
      let angleCarryOver := angularChangeThisOrbit o - two_pi in
      let firstStepAngle := Math_abs (angleBetween q1 q0) in
      let o1 := set_indexCarryOver o (angleCarryOver / firstStepAngle) in
      let o2 := set_currSnapIndex o1 0 in
      Normal (set_orbit w (set_currSnapSubindex o2 (indexCarryOver o2)))
  | _, _ => Throw TypeError (set_orbit w o)
  end.

(** [if (orbit.isFirstOrbit) { ... }]: integrate, record, test closure. *)
Definition draw_first_orbit (w : world) : completion :=
  and_then (updatePlanet_Iterative_Subdivided 5 25 G_setting dt_setting w)
    (fun w1 =>
       let o1 := set_firstOrbitPath (orbit w1)
                   (firstOrbitPath (orbit w1) ++ [xPlanet (orbit w1)]) in
       match element_at (firstOrbitPath o1)
                        (Z.of_nat (length (firstOrbitPath o1)) - 2) with
       | None => Throw TypeError (set_orbit w1 o1)
       | Some xPlanetPrev =>
           let o2 := set_angularChangeThisOrbit o1
                       (angularChangeThisOrbit o1
                        + Math_abs (angleBetween xPlanetPrev (xPlanet o1))) in
           if gt (angularChangeThisOrbit o2) two_pi
           then snap_setup (set_orbit w1 o2)
           else Normal (set_orbit w1 o2)
       end).

(** The index and subindex after [currSnapIndex++] and the handling of a
    completed orbit. *)
Definition snap_advance (len index : nat) (subindex carry : T) : nat * T :=
  let index1 := Datatypes.S index in
  if Nat.eqb index1 len then
    let subindex1 := subindex + carry in
    if ge subindex1 (num_of_nat 1)
    then (1, subindex1 - num_of_nat 1)
    else (0, subindex1)
  else (index1, subindex).

(** [else { ... }]: step along the recorded path.  When
    [interpolatePosition] throws, the index and subindex are already
    assigned and the position is not. *)
Definition draw_snapped (w : world) : completion :=
  let o := orbit w in
  let next := snap_advance (length (firstOrbitPath o)) (currSnapIndex o)
                           (currSnapSubindex o) (indexCarryOver o) in
  let o1 := set_currSnapSubindex (set_currSnapIndex o (fst next)) (snd next) in
  match interpolatePosition (firstOrbitPath o1) (currSnapIndex o1)
                            (currSnapSubindex o1) with
  | None => Throw TypeError (set_orbit w o1)
  | Some x => Normal (set_orbit w (set_xPlanet o1 x))
  end.

(** [draw()], without the drawing: [if (stateIsOrbiting) { ... }]. *)
Definition draw (stateIsOrbiting : bool) (w : world) : completion :=
  if stateIsOrbiting then
    if isFirstOrbit (orbit w) then draw_first_orbit w else draw_snapped w
  else Normal w.

(** [n] frames in a row while orbiting; an exception ends the animation. *)
Fixpoint frames (n : nat) (w : world) : completion :=
  match n with
  | O => Normal w
  | Datatypes.S k => and_then (frames k w) (draw true)
  end.
End Draw.

(* ---------------------------------------------------------------- *)
(** ** Frame conditions *)

(** The fields of the orbit the integrator leaves alone. *)
Definition same_tracking (o o' : Orbit) : Prop :=
  isFirstOrbit o' = isFirstOrbit o /\
  angularChangeThisOrbit o' = angularChangeThisOrbit o /\
  firstOrbitPath o' = firstOrbitPath o /\
  currSnapIndex o' = currSnapIndex o /\
  currSnapSubindex o' = currSnapSubindex o /\
  indexCarryOver o' = indexCarryOver o.

(** Everything but the position, the snap index and the snap subindex. *)
Definition replay_only (w w' : world) : Prop :=
  vNext w' = vNext w /\ vAvg w' = vAvg w /\ xNext w' = xNext w /\
  vPlanet (orbit w') = vPlanet (orbit w) /\
  isFirstOrbit (orbit w') = isFirstOrbit (orbit w) /\
  angularChangeThisOrbit (orbit w') = angularChangeThisOrbit (orbit w) /\
  firstOrbitPath (orbit w') = firstOrbitPath (orbit w) /\
  indexCarryOver (orbit w') = indexCarryOver (orbit w).

(** What holds of every orbit a launch leads to: the path is never empty,
    and a snapped orbit has at least two recorded points and points inside
    the path. *)
Definition well_formed (w : world) : Prop :=
  firstOrbitPath (orbit w) <> [] /\
  (isFirstOrbit (orbit w) = false ->
   (2 <= length (firstOrbitPath (orbit w)))%nat /\
   (currSnapIndex (orbit w) < length (firstOrbitPath (orbit w)))%nat).

End Vector.

Arguments vec T : clear implicits.
Arguments Orbit T : clear implicits.
Arguments world T : clear implicits.
Arguments completion T : clear implicits.
Arguments iter_vars T : clear implicits.

(* ================================================================== *)
(** ** The specification's integrator and sweep meter, in exact arithmetic

    Written from the words of the specification, to be compared with the
    functions above. *)

Module Spec.
Local Open Scope R_scope.

Record PhysicalState : Type := mkState { position : vec R; velocity : vec R }.

(** [a = -gravitationalParam * normalize(meanPosition) / |meanPosition|^2]. *)
Definition acceleration (gravitationalParam : R) (meanPosition : vec R) : vec R :=
  vdiv (vmult (normalize meanPosition) (- gravitationalParam))
       (mag meanPosition * mag meanPosition).

(** Steps 1 to 5 of the loop: from the running [meanPosition] to the next
    one, with the [velocityNext] and [positionNext] of this pass. *)
Definition advance_pass (state : PhysicalState) (gravitationalParam timeStep : R)
  (meanPosition : vec R) : vec R * PhysicalState :=
  let a := acceleration gravitationalParam meanPosition in
  let velocityNext := vadd (velocity state) (vmult a timeStep) in
  let meanVelocity := vdiv (vadd (velocity state) velocityNext) 2 in
  let positionNext := vadd (position state) (vmult meanVelocity timeStep) in
  let meanPosition' := vdiv (vadd (position state) positionNext) 2 in
  (meanPosition', {| position := positionNext; velocity := velocityNext |}).

(** [meanPosition] after [k] passes, initialized to the current position. *)
Fixpoint meanPosition_after (state : PhysicalState) (gravitationalParam timeStep : R)
  (k : nat) : vec R :=
  match k with
  | O => position state
  | S k' => fst (advance_pass state gravitationalParam timeStep
                   (meanPosition_after state gravitationalParam timeStep k'))
  end.

(** [advance(state, gravitationalParam, timeStep, iterations)]: the
    [velocityNext] and [positionNext] of the last pass.  The specification
    gives no value for 0 passes; the state is returned as it is. *)
Definition advance (state : PhysicalState) (gravitationalParam timeStep : R)
  (iterations : nat) : PhysicalState :=
  match iterations with
  | O => state
  | S k => snd (advance_pass state gravitationalParam timeStep
                  (meanPosition_after state gravitationalParam timeStep k))
  end.

(** Heron's formula on three side lengths: the square root of
    [s (s - a) (s - b) (s - c)], [s] half the perimeter. *)
Definition heron_radicand (a b c : R) : R :=
  let s := (a + b + c) / 2 in
  s * (s - a) * (s - b) * (s - c).

Definition heron (a b c : R) : R := R_sqrt.sqrt (heron_radicand a b c).

Definition origin : vec R := createVector 0 0.

(** The area of the triangle (origin, p, q), from its three pairwise
    distances. *)
Definition triangle_area (p q : vec R) : R :=
  heron (dist origin p) (dist p q) (dist q origin).

(** [sweptAreaInAU2(path)]: the sum over the consecutive pairs. *)
Fixpoint sweptAreaInAU2 (path : list (vec R)) : R :=
  match path with
  | p :: ((q :: _) as rest) => triangle_area p q + sweptAreaInAU2 rest
  | _ => 0
  end.
End Spec.

(* ================================================================== *)
(** ** Concrete inputs *)

Definition fvec (x y : float) : vec float := createVector x y.
Definition rvec (x y : R) : vec R := createVector x y.
Definition xvec (x y : R) : vec xreal := createVector (Fin x) (Fin y).

(** The state after [setup()] or [action_startOrbit()]: a new orbit, and
    none of the three undeclared globals created yet. *)
Definition launch {T : Type} `{JSNumber T} (launchVelocity : vec T) : world T :=
  {| vNext := None; vAvg := None; xNext := None;
     orbit := createNewOrbit launchVelocity |}.

(** [angleBetween] at two vectors of the vertical axis through the sun, where
    its value does not depend on the version of the library nor on how the
    engine approximates [Math.acos] and [Math.atan2]: the cosine the library
    computes is exactly 1 or -1 and the cross product exactly 0, so the angle
    is 0 for two vectors on the same side and [Math.PI] for two vectors on
    opposite sides.  Elsewhere the function is not modelled and answers NaN;
    a NaN stays in [angularChangeThisOrbit] for ever and no comparison with
    it holds, so a run that reaches the closure test with this function has
    only met vectors of the axis. *)
Definition angleBetween_y_axis (u v : vec float) : float :=
  if PrimFloat.eqb (vx u) 0 && PrimFloat.eqb (vx v) 0 then
    let d := PrimFloat.mul (vy u) (vy v) in
    if PrimFloat.ltb 0 d then 0%float
    else if PrimFloat.ltb d 0 then Math_PI
    else nan
  else nan.

(** A snapped orbit of four recorded points, a quarter of a step past the
    first one. *)
Definition snapped_square : world float :=
  {| vNext := None; vAvg := None; xNext := None;
     orbit := {| xPlanet := fvec 0 (-1); vPlanet := fvec 1 0;
                 isFirstOrbit := false;
                 angularChangeThisOrbit := 0x1.a5p+2%float;
                 firstOrbitPath := [fvec 0 (-1); fvec 1 0; fvec 0 1; fvec (-1) 0];
                 currSnapIndex := 0;
                 currSnapSubindex := 0.25%float;
                 indexCarryOver := 0.25%float |} |}.

(** A snapped orbit of two recorded points at the end of its path, in exact
    arithmetic: the next frame wraps and the subindex overflows. *)
Definition snapped_at_end : world R :=
  {| vNext := None; vAvg := None; xNext := None;
     orbit := {| xPlanet := rvec 1%R 0%R; vPlanet := rvec 1%R 0%R;
                 isFirstOrbit := false;
                 angularChangeThisOrbit := 7%R;
                 firstOrbitPath := [rvec 0%R (-1)%R; rvec 1%R 0%R];
                 currSnapIndex := 1;
                 currSnapSubindex := (3 / 4)%R;
                 indexCarryOver := (1 / 2)%R |} |}.

(** A first orbit one frame before its closure: the accumulated angle is
    1/200 short of 2 pi. *)
Definition about_to_close : world xreal :=
  {| vNext := None; vAvg := None; xNext := None;
     orbit := {| xPlanet := xvec (1 / 100)%R (-1)%R; vPlanet := xvec 1%R 0%R;
                 isFirstOrbit := true;
                 angularChangeThisOrbit := Fin (2 * PI - 1 / 200)%R;
                 firstOrbitPath := [xvec 0%R (-1)%R; xvec (1 / 100)%R (-1)%R];
                 currSnapIndex := 0;
                 currSnapSubindex := Fin 0%R;
                 indexCarryOver := Fin 0%R |} |}.

(** An [angleBetween] that answers a hundredth of a radian for every step. *)
Definition angle_of_a_step (u v : vec xreal) : xreal := Fin (1 / 100)%R.

(** The globals of the integrator as an earlier orbit left them, and a new
    orbit. *)
Definition stale_globals : world float :=
  {| vNext := Some (fvec 1 2); vAvg := Some (fvec 0.5 1); xNext := Some (fvec 3 4);
     orbit := createNewOrbit (fvec 1 0) |}.

(** The planet released straight at the sun: [vInputMag = 73.75] and a launch
    angle whose cosine is 0 and whose sine is -1. *)
Definition radial_launch : world float :=
  launch (fvec 0 (73.75 / 30)).

(** The same orbit 31 frames later, one frame before it closes. *)
Definition radial_frame_31 : world float :=
  state_of (frames angleBetween_y_axis 31 radial_launch).

(* ================================================================== *)
(** ** More of the sketch: time of a sweep, display coordinates, launch
    velocity, reference circle, day markers *)

Section SweepTime.
Context {T : Type} `{JSNumber T}.
Local Open Scope js_scope.

(** [getTimeStepsPerDay()]: a year is [2*Math.PI] units of simulated time. *)
Definition getTimeStepsPerDay : T :=
  let dtPer365Days := num_of_nat 2 * Math_PI in
  let timeStepsPer365Days := dtPer365Days / dt_setting in
  timeStepsPer365Days / num_of_nat 365.

(** [getSweepTimeInDays(sweepPath)]. *)
Definition getSweepTimeInDays (sweepPath : list (vec T)) : T :=
  (num_of_nat (length sweepPath) - num_of_nat 1) / getTimeStepsPerDay.

(** The mirror image of a vector in the vertical axis through the sun. *)
Definition mirror (u : vec T) : vec T := createVector (- vx u) (vy u).

Definition mirror_orbit (o : Orbit T) : Orbit T :=
  {| xPlanet := mirror (xPlanet o);
     vPlanet := mirror (vPlanet o);
     isFirstOrbit := isFirstOrbit o;
     angularChangeThisOrbit := angularChangeThisOrbit o;
     firstOrbitPath := map mirror (firstOrbitPath o);
     currSnapIndex := currSnapIndex o;
     currSnapSubindex := currSnapSubindex o;
     indexCarryOver := indexCarryOver o |}.

Definition mirror_world (w : world T) : world T :=
  {| vNext := option_map mirror (vNext w);
     vAvg := option_map mirror (vAvg w);
     xNext := option_map mirror (xNext w);
     orbit := mirror_orbit (orbit w) |}.

Definition mirror_completion (c : completion T) : completion T :=
  match c with
  | Normal w => Normal (mirror_world w)
  | Throw e w => Throw e (mirror_world w)
  end.

(* ---------------------------------------------------------------- *)
(** *** Display coordinates *)

(** What a function returns, or the exception it throws. *)
Inductive outcome (A : Type) : Type :=
| Returned (a : A)
| Thrown (e : js_error).

(** The display settings [zoom = 1.2] and [defaultAUDist = 150]. *)
Definition zoom_setting : T := num_of_nat 12 / num_of_nat 10.
Definition defaultAUDist : T := num_of_nat 150.

Section Canvas.
(** The canvas size, p5's [width] and [height]. *)
Variables width height : T.

Definition getDisplayCenter : vec T :=
  createVector (width / num_of_nat 2) (height / num_of_nat 2).

Definition getDisplayPerPhys : T := defaultAUDist * zoom_setting.

(** [physToDisplay(xyPhys)]. *)
Definition physToDisplay (xyPhys : vec T) : vec T :=
  let centerDisplay := getDisplayCenter in
  let displayPerPhys := getDisplayPerPhys in
  vadd (vmult xyPhys displayPerPhys) centerDisplay.

(** [displayToPhys(xyDisplay)].  Its body reads [xyPhys], which is not its
    parameter: the name is looked up among the globals ([xyPhys_global]:
    the global of that name, if one exists; the program creates none). *)
Definition displayToPhys (xyPhys_global : option (vec T)) (xyDisplay : vec T)
  : outcome (vec T) :=
  let centerDisplay := getDisplayCenter in
  let displayPerPhys := getDisplayPerPhys in
  match xyPhys_global with
  | None => Thrown _ ReferenceError
  | Some xyPhys => Returned (vdiv (vsub xyPhys centerDisplay) displayPerPhys)
  end.
End Canvas.

(* ---------------------------------------------------------------- *)
(** *** Day markers along the path *)

(** The two trackers of [drawPlanetPath] and, for each point met so far,
    whether it gets a small circle and whether it gets a big one. *)
Record marker_vars : Type := mkMarkers {
  smallCircleDayTracker : T;
  bigCircleDayTracker : T;
  circles : list (bool * bool)
}.

(** One pass of the second loop of [drawPlanetPath]: small circles every 7
    days of path, big ones every [7 * 5] days. *)
Definition marker_pass (st : marker_vars) : marker_vars :=
  let smallCircleDays := num_of_nat 7 in
  let bigCircleDays := smallCircleDays * num_of_nat 5 in
  let small1 := smallCircleDayTracker st + num_of_nat 1 / getTimeStepsPerDay in
  let small_due := ge small1 smallCircleDays in
  let small2 := if small_due then small1 - smallCircleDays else small1 in
  let big1 := bigCircleDayTracker st + num_of_nat 1 / getTimeStepsPerDay in
  let big_due := ge big1 bigCircleDays in
  let big2 := if big_due then big1 - bigCircleDays else big1 in
  {| smallCircleDayTracker := small2;
     bigCircleDayTracker := big2;
     circles := circles st ++ [(small_due, big_due)] |}.

(** The circles [drawPlanetPath] draws, point by point: the loop runs once
    per point of [firstOrbitPath] and reads nothing of the point but its
    place. *)
Definition drawPlanetPath_circles (path : list (vec T)) : marker_vars :=
  for_loop (fun _ => marker_pass) (length path) 0
           {| smallCircleDayTracker := num_of_nat 0;
              bigCircleDayTracker := num_of_nat 0;
              circles := [] |}.

End SweepTime.

Arguments Returned {A} a.
Arguments Thrown {A} e.

(** *** Launch velocity and reference circle, in exact arithmetic *)

(** [inputVelocityToPhys()], from the numbers in the two input fields. *)
Definition inputVelocityToPhys (vInputMag vInputAngle : R) : vec R :=
  let vMagPhys := (vInputMag / 30)%R in
  let vAngleRad := (vInputAngle * PI / 180)%R in
  createVector (vMagPhys * cos vAngleRad)%R (-1 * vMagPhys * sin vAngleRad)%R.

(** The points [drawReferenceCircle] joins by lines: 300 points and the
    first one again. *)
Definition refCirclePointsPhys : list (vec R) :=
  let refCirclePointCount := 300%nat in
  let pts :=
    for_loop (fun i pts =>
                let angle := (2 * PI / INR refCirclePointCount * INR i)%R in
                pts ++ [createVector (cos angle) (sin angle)])
             refCirclePointCount 0 [] in
  pts ++ match pts with p0 :: _ => [p0] | [] => [] end.

(** *** p5's [angleBetween], in exact arithmetic

    The formula of the library's versions that use [Math.acos]: the
    arccosine of the cosine of the angle, clamped to [-1, 1], with the sign
    of the cross product ([Math.sign(cross.z || 1)]: a zero cross product
    counts as positive). *)
Definition angleBetween_acos (u v : vec R) : R :=
  let dotmagmag := ((vx u * vx v + vy u * vy v) / (mag u * mag v))%R in
  let angle := acos (Rmin 1 (Rmax (-1) dotmagmag)) in
  let cross := (vx u * vy v - vy u * vx v)%R in
  if Rlt_dec cross 0 then (angle * -1)%R else (angle * 1)%R.

(** The loop variables of the integrator, reflected. *)
Definition mirror_vars (st : iter_vars R) : iter_vars R :=
  {| it_xAvg := mirror (it_xAvg st);
     it_vNext := option_map mirror (it_vNext st);
     it_vAvg := option_map mirror (it_vAvg st);
     it_xNext := option_map mirror (it_xNext st) |}.

(** What the trackers hold after [n] points: the days of [n] steps, less
    the days already marked. *)
Definition markers_ok (n : nat) (st : @marker_vars R) : Prop :=
  let days := (INR n * (1 / getTimeStepsPerDay))%R in
  let small := INR (length (filter fst (circles st))) in
  let big := INR (length (filter snd (circles st))) in
  length (circles st) = n /\
  smallCircleDayTracker st = (days - 7 * small)%R /\
  (0 <= smallCircleDayTracker st < 7)%R /\
  bigCircleDayTracker st = (days - 35 * big)%R /\
  (0 <= bigCircleDayTracker st < 35)%R /\
  Forall (fun m => snd m = true -> fst m = true) (circles st).


(* ---------------------------------------------------------------- *)
(** ** The page: buttons, sweeps and the whole of [draw] *)

(** What the program reads and writes of a button: [innerHTML],
    [style.display] and [disabled]. *)
Record element : Type := mkElement {
  innerHTML : String.string;
  style_display : String.string;
  disabled : bool
}.

Definition set_innerHTML (b : element) (s : String.string) : element :=
  mkElement s (style_display b) (disabled b).
Definition set_style_display (b : element) (s : String.string) : element :=
  mkElement (innerHTML b) s (disabled b).
Definition set_disabled (b : element) (d : bool) : element :=
  mkElement (innerHTML b) (style_display b) d.

Definition sweepMax : nat := 6.

Section Page.
Context {T : Type} `{JSNumber T}.
Local Open Scope js_scope.

(** The globals of the sketch: [sim] holds [orbit] and the three undeclared
    globals of the integrator. *)
Record page : Type := mkPage {
  sim : world T;
  stateIsOrbiting : bool;
  stateIsSweeping : bool;
  displayReferenceCircle : bool;
  programLocked : bool;
  sweeps : list (list (vec T));
  orbitButton : element;
  sweepButton : element;
  clearSweepsButton : element;
  referenceCircleButton : element
}.

Definition set_sim (p : page) (w : world T) : page :=
  mkPage w (stateIsOrbiting p) (stateIsSweeping p) (displayReferenceCircle p)
         (programLocked p) (sweeps p) (orbitButton p) (sweepButton p)
         (clearSweepsButton p) (referenceCircleButton p).
Definition set_stateIsOrbiting (p : page) (b : bool) : page :=
  mkPage (sim p) b (stateIsSweeping p) (displayReferenceCircle p)
         (programLocked p) (sweeps p) (orbitButton p) (sweepButton p)
         (clearSweepsButton p) (referenceCircleButton p).
Definition set_stateIsSweeping (p : page) (b : bool) : page :=
  mkPage (sim p) (stateIsOrbiting p) b (displayReferenceCircle p)
         (programLocked p) (sweeps p) (orbitButton p) (sweepButton p)
         (clearSweepsButton p) (referenceCircleButton p).
Definition set_displayReferenceCircle (p : page) (b : bool) : page :=
  mkPage (sim p) (stateIsOrbiting p) (stateIsSweeping p) b
         (programLocked p) (sweeps p) (orbitButton p) (sweepButton p)
         (clearSweepsButton p) (referenceCircleButton p).
Definition set_programLocked (p : page) (b : bool) : page :=
  mkPage (sim p) (stateIsOrbiting p) (stateIsSweeping p) (displayReferenceCircle p)
         b (sweeps p) (orbitButton p) (sweepButton p)
         (clearSweepsButton p) (referenceCircleButton p).
Definition set_sweeps (p : page) (l : list (list (vec T))) : page :=
  mkPage (sim p) (stateIsOrbiting p) (stateIsSweeping p) (displayReferenceCircle p)
         (programLocked p) l (orbitButton p) (sweepButton p)
         (clearSweepsButton p) (referenceCircleButton p).
Definition set_orbitButton (p : page) (b : element) : page :=
  mkPage (sim p) (stateIsOrbiting p) (stateIsSweeping p) (displayReferenceCircle p)
         (programLocked p) (sweeps p) b (sweepButton p)
         (clearSweepsButton p) (referenceCircleButton p).
Definition set_sweepButton (p : page) (b : element) : page :=
  mkPage (sim p) (stateIsOrbiting p) (stateIsSweeping p) (displayReferenceCircle p)
         (programLocked p) (sweeps p) (orbitButton p) b
         (clearSweepsButton p) (referenceCircleButton p).
Definition set_clearSweepsButton (p : page) (b : element) : page :=
  mkPage (sim p) (stateIsOrbiting p) (stateIsSweeping p) (displayReferenceCircle p)
         (programLocked p) (sweeps p) (orbitButton p) (sweepButton p)
         b (referenceCircleButton p).
Definition set_referenceCircleButton (p : page) (b : element) : page :=
  mkPage (sim p) (stateIsOrbiting p) (stateIsSweeping p) (displayReferenceCircle p)
         (programLocked p) (sweeps p) (orbitButton p) (sweepButton p)
         (clearSweepsButton p) b.

(** [setup()], given what [inputVelocityToPhys()] returns from the input
    fields and the four buttons of the document.  The two state flags, the
    reference-circle flag and the lock are [false] from their
    declarations. *)
Definition setup (input : vec T)
    (orbitButton0 sweepButton0 clearSweepsButton0 referenceCircleButton0 : element)
  : page :=
  {| sim := launch input;
     stateIsOrbiting := false;
     stateIsSweeping := false;
     displayReferenceCircle := false;
     programLocked := false;
     sweeps := [];
     orbitButton := orbitButton0;
     sweepButton := sweepButton0;
     clearSweepsButton := clearSweepsButton0;
     referenceCircleButton := referenceCircleButton0 |}.

(** *** The actions *)

(** [createNewOrbit()] reads the input fields when it is called: [input] is
    what [inputVelocityToPhys()] returns then. *)
Definition action_startOrbit (input : vec T) (p : page) : page :=
  let p := set_stateIsOrbiting p true in
  let p := set_sim p (set_orbit (sim p) (createNewOrbit input)) in
  let p := set_orbitButton p (set_innerHTML (orbitButton p) "Stop Orbit"%string) in
  set_sweepButton p (set_style_display (sweepButton p) "block"%string).

Definition action_endOrbit (input : vec T) (p : page) : page :=
  let p := set_stateIsOrbiting p false in
  let p := set_sim p (set_orbit (sim p) (createNewOrbit input)) in
  let p := set_orbitButton p (set_innerHTML (orbitButton p) "Start New Orbit"%string) in
  let p := set_sweepButton p (set_style_display (sweepButton p) "none"%string) in
  set_clearSweepsButton p (set_style_display (clearSweepsButton p) "none"%string).

Definition action_startSweep (p : page) : page :=
  let p := set_stateIsSweeping p true in
  let p := set_sweeps p (sweeps p ++ [[]]) in
  let p := set_sweepButton p (set_innerHTML (sweepButton p) "End Sweep"%string) in
  set_clearSweepsButton p (set_style_display (clearSweepsButton p) "none"%string).

Definition action_endSweep (p : page) : page :=
  let p := set_stateIsSweeping p false in
  let p :=
    if Nat.eqb (length (sweeps p)) sweepMax then
      let p := set_sweepButton p
                 (set_innerHTML (sweepButton p) "Max. sweeps reached"%string) in
      set_sweepButton p (set_disabled (sweepButton p) true)
    else set_sweepButton p (set_innerHTML (sweepButton p) "Begin Sweep"%string) in
  set_clearSweepsButton p (set_style_display (clearSweepsButton p) "block"%string).

Definition action_signalBelowSweepMax (p : page) : page :=
  set_sweepButton p (set_innerHTML (sweepButton p) "Begin Sweep"%string).

Definition action_clearAllSweeps (p : page) : page :=
  let p := set_sweeps p [] in
  let p := set_sweepButton p (set_disabled (sweepButton p) false) in
  set_sweepButton p (set_innerHTML (sweepButton p) "Begin Sweep"%string).

Definition action_showReferenceCircle (p : page) : page :=
  let p := set_displayReferenceCircle p true in
  set_referenceCircleButton p
    (set_innerHTML (referenceCircleButton p) "Hide reference circle"%string).

Definition action_hideReferenceCircle (p : page) : page :=
  let p := set_displayReferenceCircle p false in
  set_referenceCircleButton p
    (set_innerHTML (referenceCircleButton p) "Show reference circle"%string).

(** *** The button handlers *)

Definition button_toggleOrbit (input : vec T) (p : page) : page :=
  if programLocked p then p else
  let p := set_programLocked p true in
  let p :=
    if stateIsOrbiting p then
      let p := if stateIsSweeping p then action_endSweep p else p in
      let p := action_clearAllSweeps p in
      action_endOrbit input p
    else action_startOrbit input p in
  set_programLocked p false.

Definition button_toggleSweep (p : page) : page :=
  if programLocked p then p else
  let p := set_programLocked p true in
  let p := if stateIsSweeping p then action_endSweep p else action_startSweep p in
  set_programLocked p false.

Definition button_clearAllSweeps (p : page) : page :=
  if programLocked p then p else
  let p := set_programLocked p true in
  let p := action_clearAllSweeps p in
  set_programLocked p false.

Definition button_toggleReferenceCircle (p : page) : page :=
  if programLocked p then p else
  let p := set_programLocked p true in
  let p :=
    if displayReferenceCircle p then action_hideReferenceCircle p
    else action_showReferenceCircle p in
  set_programLocked p false.

(** *** [drawSweeps] and [draw] *)

Section Frame.
Variable angleBetween : vec T -> vec T -> T.
Variables width height : T.

(** What [drawSweeps] writes for one sweep: its number, where the number is
    put on the canvas, and the two data of the legend before rounding. *)
Record sweep_label : Type := mkLabel {
  label_number : nat;
  label_at : vec T;
  sweepDays : T;
  sweepArea : T
}.

(** [sweepPath[int(sweepPath.length/2)]] is [undefined] for an empty sweep,
    and [sweepMiddlePhys.copy()] then throws. *)
Definition sweep_label_position (sweepPath : list (vec T)) : outcome (vec T) :=
  match nth_error sweepPath (length sweepPath / 2) with
  | None => Thrown TypeError
  | Some sweepMiddlePhys =>
      let sweepTextPhys :=
        vadd sweepMiddlePhys
             (vmult (normalize sweepMiddlePhys) (num_of_nat 17 / num_of_nat 100)) in
      Returned (physToDisplay width height sweepTextPhys)
  end.

(** The loop of [drawSweeps] from index [sweepPathIdx] on. *)
Fixpoint drawSweeps_from (sweepPathIdx : nat) (rest : list (list (vec T)))
  : outcome (list sweep_label) :=
  match rest with
  | [] => Returned []
  | sweepPath :: rest' =>
      match sweep_label_position sweepPath with
      | Thrown e => Thrown e
      | Returned sweepMiddleDisplay =>
          let label :=
            {| label_number := sweepPathIdx + 1;
               label_at := sweepMiddleDisplay;
               sweepDays := getSweepTimeInDays sweepPath;
               sweepArea := getSweepAreaInAU2 sweepPath |} in
          match drawSweeps_from (Datatypes.S sweepPathIdx) rest' with
          | Thrown e => Thrown e
          | Returned labels => Returned (label :: labels)
          end
      end
  end.

Definition drawSweeps (all : list (list (vec T))) : outcome (list sweep_label) :=
  drawSweeps_from 0 all.

(** [sweeps[sweeps.length-1].push(x)]: [sweeps[-1]] is [undefined]. *)
Definition push_to_last_sweep (all : list (list (vec T))) (x : vec T)
  : option (list (list (vec T))) :=
  match all with
  | [] => None
  | _ => Some (removelast all ++ [last all [] ++ [x]])
  end.

(** How a frame ends: drawn, with the labels of the sweeps, or given up at
    an exception; in both cases with the globals as the frame leaves
    them. *)
Inductive frame_end : Type :=
| Drawn (p : page) (labels : list sweep_label)
| Aborted (e : js_error) (p : page).

Definition page_of (f : frame_end) : page :=
  match f with Drawn p _ => p | Aborted _ p => p end.

(** The drawing calls of [draw], of which only [drawSweeps] can throw. *)
Definition paint (p : page) : frame_end :=
  match drawSweeps (sweeps p) with
  | Thrown e => Aborted e p
  | Returned labels => Drawn p labels
  end.

(** The whole of [draw()]: the step of the orbit, the point added to the
    sweep in progress, the drawing. *)
Definition draw_page (p : page) : frame_end :=
  match draw angleBetween (stateIsOrbiting p) (sim p) with
  | Throw e w => Aborted e (set_sim p w)
  | Normal w =>
      let p := set_sim p w in
      if stateIsOrbiting p && stateIsSweeping p then
        match push_to_last_sweep (sweeps p) (xPlanet (orbit (sim p))) with
        | None => Aborted TypeError p
        | Some all => paint (set_sweeps p all)
        end
      else paint p
  end.

(** *** Runs of the page *)

(** What happens to the page: the browser calls [draw], or a button is
    clicked; a click on the orbit button comes with the launch velocity the
    input fields give at that time. *)
Inductive event : Type :=
| Frame
| Click_toggleOrbit (input : vec T)
| Click_toggleSweep
| Click_clearAllSweeps
| Click_toggleReferenceCircle.

Definition react (p : page) (e : event) : page :=
  match e with
  | Frame => page_of (draw_page p)
  | Click_toggleOrbit input => button_toggleOrbit input p
  | Click_toggleSweep => button_toggleSweep p
  | Click_clearAllSweeps => button_clearAllSweeps p
  | Click_toggleReferenceCircle => button_toggleReferenceCircle p
  end.

Definition run (es : list event) (p : page) : page := fold_left react es p.

(** A button can be clicked when it is not hidden by [style.display] and
    not disabled. *)
Definition displayed (b : element) : bool :=
  negb (String.eqb (style_display b) "none"%string).

Definition clickable (b : element) : bool := displayed b && negb (disabled b).

Definition possible (p : page) (e : event) : bool :=
  match e with
  | Frame => true
  | Click_toggleOrbit _ => clickable (orbitButton p)
  | Click_toggleSweep => clickable (sweepButton p)
  | Click_clearAllSweeps => clickable (clearSweepsButton p)
  | Click_toggleReferenceCircle => clickable (referenceCircleButton p)
  end.

(** Every event of the run is possible when it happens. *)
Fixpoint all_possible (es : list event) (p : page) : Prop :=
  match es with
  | [] => True
  | e :: es' => possible p e = true /\ all_possible es' (react p e)
  end.

(** The state of the page between events, once an orbit has been stopped:
    flags, sweeps and buttons agree. *)
Definition tidy (p : page) : Prop :=
  programLocked p = false /\
  well_formed (sim p) /\
  (length (sweeps p) <= sweepMax)%nat /\
  (stateIsSweeping p = true ->
   stateIsOrbiting p = true /\ sweeps p <> [] /\
   displayed (clearSweepsButton p) = false /\
   disabled (sweepButton p) = false /\
   innerHTML (sweepButton p) = "End Sweep"%string) /\
  (stateIsSweeping p = false ->
   disabled (sweepButton p) = Nat.eqb (length (sweeps p)) sweepMax /\
   innerHTML (sweepButton p)
   = if disabled (sweepButton p) then "Max. sweeps reached"%string
     else "Begin Sweep"%string) /\
  (stateIsOrbiting p = false ->
   stateIsSweeping p = false /\ sweeps p = [] /\
   displayed (sweepButton p) = false /\
   displayed (clearSweepsButton p) = false) /\
  innerHTML (orbitButton p)
  = if stateIsOrbiting p then "Stop Orbit"%string else "Start New Orbit"%string.
End Frame.
End Page.


(** A page with an orbit under way, launched along the axis, and no sweep;
    and the same page with a sweep in progress. *)
Definition page_in_orbit : @page float :=
  {| sim := radial_launch;
     stateIsOrbiting := true;
     stateIsSweeping := false;
     displayReferenceCircle := false;
     programLocked := false;
     sweeps := [];
     orbitButton := mkElement "Stop Orbit"%string "inline-block"%string false;
     sweepButton := mkElement "Begin Sweep"%string "block"%string false;
     clearSweepsButton := mkElement "Clear All Sweeps"%string "none"%string false;
     referenceCircleButton :=
       mkElement "Show reference circle"%string "inline-block"%string false |}.

Definition page_in_sweep : @page float := button_toggleSweep page_in_orbit.


(* ---------------------------------------------------------------- *)
(** ** The earlier sketch *)

(** The [draw] of the earlier version of the sketch kept in
    [unnamed/part_000].  Its integrator and its orbit are those of the
    later version, the orbit without [currSnapSubindex] and
    [indexCarryOver] (here they are carried along untouched); its time step
    is [1e-2]; it ends the first orbit by
    [orbit.isFirstOrbit = (orbit.angularChangeThisOrbit <= Math.PI*2)], and
    it replays the recorded points themselves, one per frame. *)
Module Earlier.
Section Draw.
Context {T : Type} `{JSNumber T}.
Local Open Scope js_scope.
Variable angleBetween : vec T -> vec T -> T.

Definition dt_setting : T := num_of_nat 1 / num_of_nat 100.

(** [if (orbit.isFirstOrbit) { ... }].  [a <= b] is [b >= a]. *)
Definition draw_first_orbit (w : world T) : completion T :=
  and_then (updatePlanet_Iterative_Subdivided 5 25 G_setting dt_setting w)
    (fun w1 =>
       let o1 := set_firstOrbitPath (orbit w1)
                   (firstOrbitPath (orbit w1) ++ [xPlanet (orbit w1)]) in
       match element_at (firstOrbitPath o1)
                        (Z.of_nat (length (firstOrbitPath o1)) - 2) with
       | None => Throw TypeError (set_orbit w1 o1)
       | Some xPlanetPrev =>
           let o2 := set_angularChangeThisOrbit o1
                       (angularChangeThisOrbit o1
                        + Math_abs (angleBetween xPlanetPrev (xPlanet o1))) in
           Normal (set_orbit w1
                     (set_isFirstOrbit o2 (ge two_pi (angularChangeThisOrbit o2))))
       end).

(** [else { ... }].  Out of the path [orbit.firstOrbitPath[...]] is
    [undefined], and [drawPlanet] then throws at [xyPhys.copy()], the index
    already stepped. *)
Definition draw_snapped (w : world T) : completion T :=
  let o := orbit w in
  let index1 := Datatypes.S (currSnapIndex o) in
  let index2 := if Nat.eqb index1 (length (firstOrbitPath o)) then 0%nat else index1 in
  match nth_error (firstOrbitPath o) (currSnapIndex o) with
  | None => Throw TypeError (set_orbit w (set_currSnapIndex o index2))
  | Some x => Normal (set_orbit w (set_currSnapIndex (set_xPlanet o x) index2))
  end.

(** [draw()]: [stateIsOrbiting] is [true] and never assigned. *)
Definition draw (w : world T) : completion T :=
  if isFirstOrbit (orbit w) then draw_first_orbit w else draw_snapped w.

Fixpoint frames (n : nat) (w : world T) : completion T :=
  match n with
  | O => Normal w
  | Datatypes.S k => and_then (frames k w) draw
  end.
End Draw.
End Earlier.


(** *** Turning the plane about the sun *)

(** The rotation of matrix [(c, -s; s, c)], on vectors and on everything
    that holds vectors. *)
Section Turn.
Variables c s : R.

Definition turn (u : vec R) : vec R :=
  createVector (c * vx u - s * vy u)%R (s * vx u + c * vy u)%R.

Definition turn_vars (st : iter_vars R) : iter_vars R :=
  {| it_xAvg := turn (it_xAvg st);
     it_vNext := option_map turn (it_vNext st);
     it_vAvg := option_map turn (it_vAvg st);
     it_xNext := option_map turn (it_xNext st) |}.

Definition turn_orbit (o : Orbit R) : Orbit R :=
  {| xPlanet := turn (xPlanet o);
     vPlanet := turn (vPlanet o);
     isFirstOrbit := isFirstOrbit o;
     angularChangeThisOrbit := angularChangeThisOrbit o;
     firstOrbitPath := map turn (firstOrbitPath o);
     currSnapIndex := currSnapIndex o;
     currSnapSubindex := currSnapSubindex o;
     indexCarryOver := indexCarryOver o |}.

Definition turn_world (w : world R) : world R :=
  {| vNext := option_map turn (vNext w);
     vAvg := option_map turn (vAvg w);
     xNext := option_map turn (xNext w);
     orbit := turn_orbit (orbit w) |}.

Definition turn_completion (k : completion R) : completion R :=
  match k with
  | Normal w => Normal (turn_world w)
  | Throw e w => Throw e (turn_world w)
  end.
End Turn.


(** *** The launch arrow *)

Section LaunchArrow.
Context {T : Type} `{JSNumber T}.
Local Open Scope js_scope.

Definition velocityArrowLenPerPhys : T := num_of_nat 5 / num_of_nat 10.

(** The two ends [drawLaunchArrow] hands to [drawArrow], in display
    coordinates: the planet, and the planet moved by the launch velocity
    scaled by [velocityArrowLenPerPhys]. *)
Definition drawLaunchArrow_ends (width height : T) (xPlanet vPlanetInput : vec T)
  : vec T * vec T :=
  let startPhys := xPlanet in
  let endPhys := vadd xPlanet (vmult vPlanetInput velocityArrowLenPerPhys) in
  (physToDisplay width height startPhys, physToDisplay width height endPhys).
End LaunchArrow.


(* ---------------------------------------------------------------- *)
(** ** Binary64: the size of a number and the range of an angle *)

(** In the kernel's specification of binary64 arithmetic: a zero or a
    finite number below [2 ^ E] in absolute value. *)
Definition SF_below (E : Z) (x : spec_float) : Prop :=
  match x with
  | S754_zero _ => True
  | S754_finite _ m e => (Zpos (digits2_pos m) + e <= E)%Z
  | _ => False
  end.

(** [+0], or a positive number below [2 ^ E]. *)
Definition SF_nonneg_below (E : Z) (x : spec_float) : Prop :=
  x = S754_zero false \/
  exists m e, x = S754_finite false m e /\ (Zpos (digits2_pos m) + e <= E)%Z.

(** What the absolute value of an angle of the library is assumed to be, on
    binary64 numbers: NaN (the angle with a zero vector), 0, or a number from
    [2 ^ -1000] to 4.  With [Math.acos], applied to a number clamped to
    [[-1, 1]], the nonzero angles lie between about [1.5e-8] and pi. *)
Definition least_angle : float := 0x1p-1000%float.

Definition angle_in_range (a : float) : bool :=
  PrimFloat.is_nan a
  || PrimFloat.eqb a 0
  || (PrimFloat.leb least_angle a && PrimFloat.leb a 4).

(** What holds of a launched orbit on binary64 numbers as long as it is in
    its first-orbit mode: the accumulated angle is NaN or a number from 0 to
    [2 pi], and it is NaN when the angle of the first step is. *)
Definition first_orbit_ok (angleBetween : vec float -> vec float -> float)
    (w : world float) : Prop :=
  well_formed w /\
  (Prim2SF (angularChangeThisOrbit (orbit w)) = S754_nan \/
   SF_nonneg_below 3 (Prim2SF (angularChangeThisOrbit (orbit w)))) /\
  ((exists q0, firstOrbitPath (orbit w) = [q0] /\
               Prim2SF (angularChangeThisOrbit (orbit w)) = S754_zero false) \/
   (exists q0 q1,
      nth_error (firstOrbitPath (orbit w)) 0 = Some q0 /\
      nth_error (firstOrbitPath (orbit w)) 1 = Some q1 /\
      (Prim2SF (Math_abs (angleBetween q1 q0)) = S754_nan ->
       Prim2SF (angularChangeThisOrbit (orbit w)) = S754_nan))).

(** An [angleBetween] that answers one radian for every pair of vectors:
    with it an orbit closes at its seventh frame. *)
Definition angle_of_one_radian (u v : vec float) : float := 1%float.

(** The operations of the interface, read at the exact reals. *)
Ltac js_real :=
  cbn [add sub mul div neg Math_sqrt Math_abs gt ge strict_eq Math_PI num_of_nat
       Number_isFinite real_number] in *.

(* ================================================================== *)
(** * Properties *)

Unset Implicit Arguments.

(** ** The integrator *)

Section IntegratorFacts.
Context {T : Type} `{JSNumber T}.

Lemma for_loop_last {S : Type} (body : nat -> S -> S) (n i : nat) (s : S) :
  for_loop body (Datatypes.S n) i s = body (i + n)%nat (for_loop body n i s).
Proof.
  revert i s; induction n as [|n IH]; intros i s.
  - simpl. now rewrite Nat.add_0_r.
  - change (for_loop body (Datatypes.S (Datatypes.S n)) i s)
      with (for_loop body (Datatypes.S n) (Datatypes.S i) (body i s)).
    rewrite IH. simpl. now rewrite Nat.add_succ_r.
Qed.

(** The loop runs its body as many times as its bound says. *)
Lemma for_loop_passes {S : Type} (f : S -> S) (n i : nat) (s : S) :
  for_loop (fun _ => f) n i s = Nat.iter n f s.
Proof.
  induction n as [|n IH].
  - reflexivity.
  - rewrite for_loop_last, IH. reflexivity.
Qed.

(** A pass assigns the three globals, whatever they held. *)
Lemma iterative_pass_assigns (G dt : T) (vCurr xCurr : vec T) (st : iter_vars T) :
  exists vN vA xN,
    it_vNext (iterative_pass G dt vCurr xCurr st) = Some vN /\
    it_vAvg (iterative_pass G dt vCurr xCurr st) = Some vA /\
    it_xNext (iterative_pass G dt vCurr xCurr st) = Some xN.
Proof. unfold iterative_pass; simpl. do 3 eexists. repeat split. Qed.

(** A pass reads only [xAvg] of the loop variables. *)
Lemma iterative_pass_reads_xAvg (G dt : T) (vCurr xCurr : vec T) (st st' : iter_vars T) :
  it_xAvg st = it_xAvg st' ->
  iterative_pass G dt vCurr xCurr st = iterative_pass G dt vCurr xCurr st'.
Proof. unfold iterative_pass; intros ->; reflexivity. Qed.

Lemma passes_xAvg_globals (G dt : T) (vCurr xCurr : vec T) (n : nat) (st st' : iter_vars T) :
  it_xAvg st = it_xAvg st' ->
  it_xAvg (Nat.iter n (iterative_pass G dt vCurr xCurr) st)
  = it_xAvg (Nat.iter n (iterative_pass G dt vCurr xCurr) st').
Proof.
  intros E; induction n as [|n IH]; [exact E|].
  rewrite !Nat.iter_succ.
  now rewrite (iterative_pass_reads_xAvg G dt vCurr xCurr _ _ IH).
Qed.

(** With at least one pass the call ends normally, and what it commits is
    what the last pass assigned. *)
Lemma updatePlanet_Iterative_last_pass (k : nat) (G dt : T) (w : world T) :
  let vCurr := vPlanet (orbit w) in
  let xCurr := xPlanet (orbit w) in
  let last := iterative_pass G dt vCurr xCurr
                (Nat.iter k (iterative_pass G dt vCurr xCurr) (loop_entry w)) in
  exists vN xN,
    it_vNext last = Some vN /\ it_xNext last = Some xN /\
    updatePlanet_Iterative (Datatypes.S k) G dt w
    = Normal (mkWorld (Some vN) (it_vAvg last) (Some xN)
                      (set_xPlanet (set_vPlanet (orbit w) vN) xN)).
Proof.
  intros vCurr xCurr last.
  unfold updatePlanet_Iterative.
  rewrite for_loop_passes.
  change (Nat.iter (Datatypes.S k) (iterative_pass G dt (vPlanet (orbit w)) (xPlanet (orbit w)))
            (loop_entry w)) with last.
  destruct (iterative_pass_assigns G dt vCurr xCurr
              (Nat.iter k (iterative_pass G dt vCurr xCurr) (loop_entry w)))
    as (vN & vA & xN & E1 & E2 & E3).
  fold last in E1, E2, E3.
  exists vN, xN. split; [exact E1|]. split; [exact E3|].
  unfold commit. rewrite E1, E3. reflexivity.
Qed.

Lemma same_tracking_refl (o : Orbit T) : same_tracking o o.
Proof. unfold same_tracking; tauto. Qed.

Lemma same_tracking_trans (o1 o2 o3 : Orbit T) :
  same_tracking o1 o2 -> same_tracking o2 o3 -> same_tracking o1 o3.
Proof.
  unfold same_tracking; intros (a1 & a2 & a3 & a4 & a5 & a6) (b1 & b2 & b3 & b4 & b5 & b6).
  repeat split; congruence.
Qed.

Lemma updatePlanet_Iterative_normal (k : nat) (G dt : T) (w : world T) :
  exists w', updatePlanet_Iterative (Datatypes.S k) G dt w = Normal w' /\
             same_tracking (orbit w) (orbit w').
Proof.
  destruct (updatePlanet_Iterative_last_pass k G dt w) as (vN & xN & _ & _ & E).
  eexists; split; [exact E|]. unfold same_tracking; simpl; tauto.
Qed.

Lemma subdivided_loop_normal (k : nat) (G dt : T) (n : nat) (w : world T) :
  exists w', subdivided_loop (Datatypes.S k) G dt n w = Normal w' /\
             same_tracking (orbit w) (orbit w').
Proof.
  revert w; induction n as [|n IH]; intros w.
  - exists w; split; [reflexivity|apply same_tracking_refl].
  - destruct (updatePlanet_Iterative_normal k G dt w) as (w1 & E1 & S1).
    destruct (IH w1) as (w2 & E2 & S2).
    exists w2. split.
    + simpl. rewrite E1. exact E2.
    + eapply same_tracking_trans; eassumption.
Qed.

(** The integration step of a frame always ends normally: it is called
    with 5 passes. *)
Lemma updatePlanet_Iterative_Subdivided_normal (k n : nat) (G dt : T) (w : world T) :
  exists w', updatePlanet_Iterative_Subdivided (Datatypes.S k) n G dt w = Normal w' /\
             same_tracking (orbit w) (orbit w').
Proof. apply subdivided_loop_normal. Qed.

End IntegratorFacts.

Section IntegratorRefinement.
Local Open Scope R_scope.

Lemma magSq_nonneg (u : vec R) : 0 <= magSq u.
Proof. unfold magSq; js_real. nra. Qed.

Lemma mag_squared (u : vec R) : mag u * mag u = magSq u.
Proof. unfold mag; js_real. apply sqrt_sqrt, magSq_nonneg. Qed.

(** The acceleration of the source, [normalize(xAvg) * (-G / magSq(xAvg))],
    is the specification's [-G * normalize(m) / |m|^2]. *)
Lemma acceleration_refines (G : R) (m : vec R) :
  vmult (normalize m) (- G / magSq m)%js = Spec.acceleration G m.
Proof.
  unfold Spec.acceleration, vmult, vdiv. js_real.
  rewrite mag_squared. f_equal; cbn [vx vy]; unfold Rdiv; ring.
Qed.

Lemma pass_refines (G dt : R) (v x : vec R) (st : iter_vars R) :
  let r := Spec.advance_pass (Spec.mkState x v) G dt (it_xAvg st) in
  it_xAvg (iterative_pass G dt v x st) = fst r /\
  it_vNext (iterative_pass G dt v x st) = Some (Spec.velocity (snd r)) /\
  it_xNext (iterative_pass G dt v x st) = Some (Spec.position (snd r)).
Proof.
  unfold iterative_pass, Spec.advance_pass.
  rewrite acceleration_refines.
  cbn [it_xAvg it_vNext it_xNext fst snd Spec.velocity Spec.position].
  replace (num_of_nat 2) with 2 by (js_real; simpl; lra).
  repeat split.
Qed.

Lemma passes_refine (G dt : R) (v x : vec R) (st : iter_vars R) (k : nat) :
  it_xAvg st = x ->
  it_xAvg (Nat.iter k (iterative_pass G dt v x) st)
  = Spec.meanPosition_after (Spec.mkState x v) G dt k.
Proof.
  intros E; induction k as [|k IH]; [exact E|].
  rewrite Nat.iter_succ.
  destruct (pass_refines G dt v x (Nat.iter k (iterative_pass G dt v x) st)) as (E1 & _).
  rewrite E1, IH. reflexivity.
Qed.

End IntegratorRefinement.

(** C4.  In exact arithmetic [updatePlanet_Iterative] is the specification's
    [advance]: called with [iterations >= 1] it ends normally after exactly
    [iterations] passes of the five assignments (the running mean position it
    holds is the one of [iterations] passes), and commits the [velocityNext]
    and [positionNext] of the last pass as the new velocity and position,
    whatever the values are (there is no convergence test) and leaving the
    rest of the orbit alone. *)
Theorem updatePlanet_Iterative_is_advance
  (iterations : nat) (G dt : R) (w : world R) :
  (0 < iterations)%nat ->
  let state := Spec.mkState (xPlanet (orbit w)) (vPlanet (orbit w)) in
  let passes := for_loop (fun _ => iterative_pass G dt (vPlanet (orbit w)) (xPlanet (orbit w)))
                         iterations 0 (loop_entry w) in
  exists w',
    updatePlanet_Iterative iterations G dt w = Normal w' /\
    it_xAvg passes = Spec.meanPosition_after state G dt iterations /\
    xPlanet (orbit w') = Spec.position (Spec.advance state G dt iterations) /\
    vPlanet (orbit w') = Spec.velocity (Spec.advance state G dt iterations) /\
    xNext w' = Some (xPlanet (orbit w')) /\
    vNext w' = Some (vPlanet (orbit w')) /\
    same_tracking (orbit w) (orbit w').
Proof.
  intros Hpos state passes.
  destruct iterations as [|k]; [lia|].
  destruct (updatePlanet_Iterative_last_pass k G dt w) as (vN & xN & E1 & E3 & E).
  cbv zeta in E1, E3, E.
  pose proof (passes_refine G dt (vPlanet (orbit w)) (xPlanet (orbit w))
                (loop_entry w) k eq_refl) as M.
  destruct (pass_refines G dt (vPlanet (orbit w)) (xPlanet (orbit w))
              (Nat.iter k (iterative_pass G dt (vPlanet (orbit w)) (xPlanet (orbit w)))
                 (loop_entry w))) as (_ & P1 & P3).
  rewrite M in P1, P3.
  rewrite P1 in E1. rewrite P3 in E3.
  injection E1 as <-. injection E3 as <-.
  eexists. split; [exact E|].
  split.
  { unfold passes. rewrite for_loop_passes.
    apply passes_refine. reflexivity. }
  cbn [orbit xPlanet vPlanet set_xPlanet set_vPlanet xNext vNext].
  repeat split.
Qed.

(** C4, at five passes from the launch position with a circular-orbit
    velocity. *)
Lemma updatePlanet_Iterative_is_advance_witness :
  (0 < 5)%nat /\
  exists w',
    updatePlanet_Iterative 5 1%R (11 / 1000)%R (launch (rvec 1 0)) = Normal w' /\
    it_xAvg (for_loop (fun _ => iterative_pass 1%R (11 / 1000)%R (rvec 1 0) (rvec (INR 0) (- INR 1)))
                      5 0 (loop_entry (launch (rvec 1 0))))
    = Spec.meanPosition_after (Spec.mkState (rvec (INR 0) (- INR 1)) (rvec 1 0)) 1%R (11 / 1000)%R 5 /\
    xPlanet (orbit w')
    = Spec.position (Spec.advance (Spec.mkState (rvec (INR 0) (- INR 1)) (rvec 1 0)) 1%R (11 / 1000)%R 5) /\
    vPlanet (orbit w')
    = Spec.velocity (Spec.advance (Spec.mkState (rvec (INR 0) (- INR 1)) (rvec 1 0)) 1%R (11 / 1000)%R 5) /\
    xNext w' = Some (xPlanet (orbit w')) /\
    vNext w' = Some (vPlanet (orbit w')) /\
    same_tracking (orbit (launch (rvec 1 0))) (orbit w').
Proof.
  split; [repeat constructor|].
  exact (updatePlanet_Iterative_is_advance 5 1%R (11 / 1000)%R
           (launch (rvec 1 0)) (Nat.lt_0_succ 4)).
Defined.

Section ZeroPasses.
Context {T : Type} `{JSNumber T}.

Lemma updatePlanet_Iterative_forgets_globals (k : nat) (G dt : T) (w : world T)
  (g1 g2 g3 : option (vec T)) :
  updatePlanet_Iterative (S k) G dt (mkWorld g1 g2 g3 (orbit w))
  = updatePlanet_Iterative (S k) G dt w.
Proof.
  destruct (updatePlanet_Iterative_last_pass k G dt w) as (vN & xN & _ & _ & E).
  destruct (updatePlanet_Iterative_last_pass k G dt (mkWorld g1 g2 g3 (orbit w)))
    as (vN' & xN' & _ & _ & E').
  cbv zeta in E, E'. cbn [orbit] in E'.
  assert (P : iterative_pass G dt (vPlanet (orbit w)) (xPlanet (orbit w))
                (Nat.iter k (iterative_pass G dt (vPlanet (orbit w)) (xPlanet (orbit w)))
                   (loop_entry (mkWorld g1 g2 g3 (orbit w))))
              = iterative_pass G dt (vPlanet (orbit w)) (xPlanet (orbit w))
                  (Nat.iter k (iterative_pass G dt (vPlanet (orbit w)) (xPlanet (orbit w)))
                     (loop_entry w))).
  { apply iterative_pass_reads_xAvg, passes_xAvg_globals. reflexivity. }
  unfold updatePlanet_Iterative. cbn [orbit].
  rewrite !for_loop_passes, !Nat.iter_succ, P.
  unfold commit. cbn [orbit]. reflexivity.
Qed.

Lemma updatePlanet_Iterative_zero (G dt : T) (w : world T) :
  updatePlanet_Iterative 0 G dt w
  = match vNext w with
    | None => Throw ReferenceError w
    | Some v =>
        match xNext w with
        | None => Throw ReferenceError (set_orbit w (set_vPlanet (orbit w) v))
        | Some x => Normal (set_orbit w (set_xPlanet (set_vPlanet (orbit w) v) x))
        end
    end.
Proof.
  destruct w as [g1 g2 g3 o].
  unfold updatePlanet_Iterative, commit, loop_entry, set_orbit; simpl.
  destruct g1; [destruct g3|]; reflexivity.
Qed.
End ZeroPasses.

(** C10.  [updatePlanet_Iterative] needs at least one pass.  With
    [iterCount >= 1] the call ends normally and commits the velocity and the
    position the last pass of the loop assigned; nothing of the result
    depends on what the three undeclared globals held before.  With
    [iterCount = 0] nothing is computed from the orbit: the call throws a
    ReferenceError when [vNext] (or, after the velocity is overwritten,
    [xNext]) was never created, and otherwise it overwrites the velocity and
    the position with the values an earlier call left in [vNext] and
    [xNext], whatever the orbit is now. *)
Theorem updatePlanet_Iterative_needs_a_pass
  {T : Type} `{JSNumber T} (G dt : T) (w : world T) :
  (forall iterCount : nat, (1 <= iterCount)%nat ->
     let vCurr := vPlanet (orbit w) in
     let xCurr := xPlanet (orbit w) in
     let last := iterative_pass G dt vCurr xCurr
                   (for_loop (fun _ => iterative_pass G dt vCurr xCurr)
                             (iterCount - 1) 0 (loop_entry w)) in
     exists vN xN,
       it_vNext last = Some vN /\ it_xNext last = Some xN /\
       updatePlanet_Iterative iterCount G dt w
       = Normal (mkWorld (Some vN) (it_vAvg last) (Some xN)
                         (set_xPlanet (set_vPlanet (orbit w) vN) xN)) /\
       forall g1 g2 g3 : option (vec T),
         updatePlanet_Iterative iterCount G dt (mkWorld g1 g2 g3 (orbit w))
         = updatePlanet_Iterative iterCount G dt w)
  /\
  (vNext w = None -> updatePlanet_Iterative 0 G dt w = Throw ReferenceError w)
  /\
  (forall v, vNext w = Some v -> xNext w = None ->
     updatePlanet_Iterative 0 G dt w
     = Throw ReferenceError (set_orbit w (set_vPlanet (orbit w) v)))
  /\
  (forall v x, vNext w = Some v -> xNext w = Some x ->
     updatePlanet_Iterative 0 G dt w
     = Normal (set_orbit w (set_xPlanet (set_vPlanet (orbit w) v) x))).
Proof.
  split; [|split; [|split]].
  - intros [|k] Hk; [lia|]. intros vCurr xCurr last.
    destruct (updatePlanet_Iterative_last_pass k G dt w) as (vN & xN & E1 & E3 & E).
    cbv zeta in E1, E3, E.
    assert (L : last = iterative_pass G dt (vPlanet (orbit w)) (xPlanet (orbit w))
                         (Nat.iter k (iterative_pass G dt (vPlanet (orbit w))
                                        (xPlanet (orbit w))) (loop_entry w))).
    { unfold last, vCurr, xCurr. rewrite for_loop_passes.
      replace (S k - 1)%nat with k by lia. reflexivity. }
    rewrite L. exists vN, xN.
    split; [exact E1|]. split; [exact E3|]. split; [exact E|].
    intros g1 g2 g3. apply updatePlanet_Iterative_forgets_globals.
  - intros E. rewrite updatePlanet_Iterative_zero, E. reflexivity.
  - intros v E1 E3. rewrite updatePlanet_Iterative_zero, E1, E3. reflexivity.
  - intros v x E1 E3. rewrite updatePlanet_Iterative_zero, E1, E3. reflexivity.
Qed.

(** ** The orbit tracker *)

Section TrackerFacts.
Context {T : Type} `{JSNumber T}.
Variable angleBetween : vec T -> vec T -> T.
Local Open Scope js_scope.

Lemma nth_error_last (l : list (vec T)) (d : vec T) :
  l <> [] -> nth_error l (length l - 1) = Some (last l d).
Proof.
  induction l as [|a l IH]; [congruence|]. intros _.
  destruct l as [|b l]; [reflexivity|].
  replace (length (a :: b :: l) - 1)%nat with (S (length (b :: l) - 1))
    by (simpl; lia).
  cbn [nth_error]. rewrite IH by congruence. reflexivity.
Qed.

(** The point before the one just pushed is the last point of the path as
    it was. *)
Lemma element_before_pushed (l : list (vec T)) (x : vec T) :
  l <> [] ->
  element_at (l ++ [x]) (Z.of_nat (length (l ++ [x])) - 2) = Some (last l x).
Proof.
  intros Hl. unfold element_at.
  rewrite length_app. cbn [length].
  assert (0 < length l)%nat by (destruct l; [congruence|simpl; lia]).
  replace (Z.of_nat (length l + 1) - 2)%Z with (Z.of_nat (length l - 1)) by lia.
  destruct (Z.ltb_spec (Z.of_nat (length l - 1)) 0); [lia|].
  rewrite Nat2Z.id, nth_error_app1 by lia.
  apply nth_error_last, Hl.
Qed.

Lemma pushed_path_two (l : list (vec T)) (x : vec T) :
  l <> [] ->
  exists q0 q1, nth_error (l ++ [x]) 0 = Some q0 /\ nth_error (l ++ [x]) 1 = Some q1.
Proof.
  destruct l as [|a [|b l]]; [congruence| |]; intros _; simpl; eauto.
Qed.

(** What a frame of the first orbit does, in one equation per field. *)
Lemma draw_first_orbit_shape (w : world T) :
  firstOrbitPath (orbit w) <> [] ->
  exists w1 w',
    updatePlanet_Iterative_Subdivided 5 25 G_setting dt_setting w = Normal w1 /\
    same_tracking (orbit w) (orbit w1) /\
    draw_first_orbit angleBetween w = Normal w' /\
    vNext w' = vNext w1 /\ vAvg w' = vAvg w1 /\ xNext w' = xNext w1 /\
    xPlanet (orbit w') = xPlanet (orbit w1) /\
    vPlanet (orbit w') = vPlanet (orbit w1) /\
    firstOrbitPath (orbit w') = firstOrbitPath (orbit w) ++ [xPlanet (orbit w1)] /\
    angularChangeThisOrbit (orbit w')
    = angularChangeThisOrbit (orbit w)
      + Math_abs (angleBetween (last (firstOrbitPath (orbit w)) (xPlanet (orbit w1)))
                               (xPlanet (orbit w1))) /\
    if gt (angularChangeThisOrbit (orbit w')) two_pi then
      isFirstOrbit (orbit w') = false /\
      currSnapIndex (orbit w') = 0%nat /\
      currSnapSubindex (orbit w') = indexCarryOver (orbit w') /\
      exists q0 q1,
        nth_error (firstOrbitPath (orbit w')) 0 = Some q0 /\
        nth_error (firstOrbitPath (orbit w')) 1 = Some q1 /\
        indexCarryOver (orbit w')
        = (angularChangeThisOrbit (orbit w') - two_pi) / Math_abs (angleBetween q1 q0)
    else
      isFirstOrbit (orbit w') = isFirstOrbit (orbit w) /\
      currSnapIndex (orbit w') = currSnapIndex (orbit w) /\
      currSnapSubindex (orbit w') = currSnapSubindex (orbit w) /\
      indexCarryOver (orbit w') = indexCarryOver (orbit w).
Proof.
  intros Hl.
  destruct (updatePlanet_Iterative_Subdivided_normal 4 25 G_setting dt_setting w)
    as (w1 & E1 & S1).
  pose proof S1 as (s1 & s2 & s3 & s4 & s5 & s6).
  unfold draw_first_orbit. rewrite E1. cbn [and_then].
  cbn [firstOrbitPath set_firstOrbitPath].
  rewrite s3, (element_before_pushed _ (xPlanet (orbit w1)) Hl).
  cbn [angularChangeThisOrbit set_angularChangeThisOrbit set_firstOrbitPath xPlanet].
  rewrite s2.
  set (acc := angularChangeThisOrbit (orbit w)
              + Math_abs (angleBetween (last (firstOrbitPath (orbit w)) (xPlanet (orbit w1)))
                                       (xPlanet (orbit w1)))).
  destruct (gt acc two_pi) eqn:Hgt.
  - unfold snap_setup.
    cbn [orbit set_orbit firstOrbitPath set_isFirstOrbit set_angularChangeThisOrbit
         set_firstOrbitPath].
    destruct (pushed_path_two (firstOrbitPath (orbit w)) (xPlanet (orbit w1)) Hl)
      as (q0 & q1 & Q0 & Q1).
    rewrite Q0, Q1.
    exists w1. eexists. split; [reflexivity|]. split; [exact S1|].
    split; [reflexivity|]. simpl. fold acc. rewrite Hgt.
    repeat (split; [reflexivity|]).
    exists q0, q1. repeat split; assumption.
  - exists w1. eexists. split; [reflexivity|]. split; [exact S1|].
    split; [reflexivity|]. simpl. fold acc. rewrite Hgt.
    repeat (split; [reflexivity|]). repeat split; assumption.
Qed.

(** The frame of the snapped planet, field by field. *)
Lemma draw_snapped_shape (w : world T) :
  let o := orbit w in
  let next := snap_advance (length (firstOrbitPath o)) (currSnapIndex o)
                           (currSnapSubindex o) (indexCarryOver o) in
  let w' := state_of (draw_snapped w) in
  vNext w' = vNext w /\ vAvg w' = vAvg w /\ xNext w' = xNext w /\
  vPlanet (orbit w') = vPlanet o /\
  isFirstOrbit (orbit w') = isFirstOrbit o /\
  angularChangeThisOrbit (orbit w') = angularChangeThisOrbit o /\
  firstOrbitPath (orbit w') = firstOrbitPath o /\
  indexCarryOver (orbit w') = indexCarryOver o /\
  currSnapIndex (orbit w') = fst next /\
  currSnapSubindex (orbit w') = snd next /\
  match interpolatePosition (firstOrbitPath o) (fst next) (snd next) with
  | Some x => draw_snapped w = Normal w' /\ xPlanet (orbit w') = x
  | None => draw_snapped w = Throw TypeError w' /\ xPlanet (orbit w') = xPlanet o
  end.
Proof.
  intros o next w'. subst w'. unfold draw_snapped. fold o. fold next.
  cbn [firstOrbitPath currSnapIndex currSnapSubindex set_currSnapSubindex
       set_currSnapIndex].
  destruct (interpolatePosition (firstOrbitPath o) (fst next) (snd next));
    simpl; repeat split; reflexivity.
Qed.

End TrackerFacts.

(** C1.  A frame of the first orbit integrates the planet, appends the new
    position to [firstOrbitPath] and adds to [angularChangeThisOrbit] the
    unsigned angle between the point before it and the new point.  When the
    sum is then greater than 2 pi, the orbit leaves its first-orbit mode in
    that same frame with [indexCarryOver = (sum - 2 pi) / |angle between
    path[1] and path[0]|], [currSnapIndex = 0] and [currSnapSubindex =
    indexCarryOver]; otherwise it stays in first-orbit mode and the three
    fields are not touched.  This holds at every carrier of numbers and for
    every [angleBetween]. *)
Theorem first_orbit_frame
  {T : Type} `{JSNumber T} (angleBetween : vec T -> vec T -> T) (w : world T) :
  isFirstOrbit (orbit w) = true ->
  firstOrbitPath (orbit w) <> [] ->
  exists w1 w',
    updatePlanet_Iterative_Subdivided 5 25 G_setting dt_setting w = Normal w1 /\
    draw angleBetween true w = Normal w' /\
    xPlanet (orbit w') = xPlanet (orbit w1) /\
    firstOrbitPath (orbit w') = firstOrbitPath (orbit w) ++ [xPlanet (orbit w1)] /\
    angularChangeThisOrbit (orbit w')
    = (angularChangeThisOrbit (orbit w)
       + Math_abs (angleBetween (last (firstOrbitPath (orbit w)) (xPlanet (orbit w1)))
                                (xPlanet (orbit w1))))%js /\
    if gt (angularChangeThisOrbit (orbit w')) two_pi then
      isFirstOrbit (orbit w') = false /\
      currSnapIndex (orbit w') = 0%nat /\
      currSnapSubindex (orbit w') = indexCarryOver (orbit w') /\
      exists q0 q1,
        nth_error (firstOrbitPath (orbit w')) 0 = Some q0 /\
        nth_error (firstOrbitPath (orbit w')) 1 = Some q1 /\
        indexCarryOver (orbit w')
        = ((angularChangeThisOrbit (orbit w') - two_pi)
           / Math_abs (angleBetween q1 q0))%js
    else
      isFirstOrbit (orbit w') = true /\
      currSnapIndex (orbit w') = currSnapIndex (orbit w) /\
      currSnapSubindex (orbit w') = currSnapSubindex (orbit w) /\
      indexCarryOver (orbit w') = indexCarryOver (orbit w).
Proof.
  intros Hfirst Hpath.
  destruct (draw_first_orbit_shape angleBetween w Hpath)
    as (w1 & w' & E1 & _ & E & _ & _ & _ & Ex & _ & Ep & Ea & Hc).
  exists w1, w'. split; [exact E1|].
  split; [unfold draw; rewrite Hfirst; exact E|].
  split; [exact Ex|]. split; [exact Ep|]. split; [exact Ea|].
  destruct (gt (angularChangeThisOrbit (orbit w')) two_pi).
  - exact Hc.
  - rewrite <- Hfirst. exact Hc.
Qed.

(** C1, at the first frame after a launch. *)
Lemma first_orbit_frame_witness :
  isFirstOrbit (orbit radial_launch) = true /\
  firstOrbitPath (orbit radial_launch) <> [] /\
  exists w1 w',
    updatePlanet_Iterative_Subdivided 5 25 G_setting dt_setting radial_launch = Normal w1 /\
    draw angleBetween_y_axis true radial_launch = Normal w' /\
    firstOrbitPath (orbit w') = firstOrbitPath (orbit radial_launch) ++ [xPlanet (orbit w1)].
Proof.
  split; [reflexivity|]. split; [discriminate|].
  destruct (first_orbit_frame angleBetween_y_axis radial_launch eq_refl
              ltac:(discriminate)) as (w1 & w' & E1 & E & _ & Ep & _).
  exists w1, w'. repeat split; assumption.
Defined.

Section ReplayFrame.
Context {T : Type} `{JSNumber T}.
Variable angleBetween : vec T -> vec T -> T.

Lemma draw_snapped_replay_only (w : world T) :
  isFirstOrbit (orbit w) = false ->
  replay_only w (state_of (draw angleBetween true w)).
Proof.
  intros Hs. unfold draw. rewrite Hs.
  pose proof (draw_snapped_shape w) as S. cbv zeta in S.
  unfold replay_only. tauto.
Qed.

Lemma replay_only_trans (w1 w2 w3 : world T) :
  replay_only w1 w2 -> replay_only w2 w3 -> replay_only w1 w3.
Proof.
  unfold replay_only.
  intros (a1 & a2 & a3 & a4 & a5 & a6 & a7 & a8) (b1 & b2 & b3 & b4 & b5 & b6 & b7 & b8).
  repeat split; congruence.
Qed.

Lemma frames_replay_only (n : nat) (w : world T) :
  isFirstOrbit (orbit w) = false ->
  replay_only w (state_of (frames angleBetween n w)).
Proof.
  intros Hs. induction n as [|n IH].
  - unfold replay_only; simpl; tauto.
  - cbn [frames]. destruct (frames angleBetween n w) as [w1|e w1]; cbn [and_then state_of] in *.
    + eapply replay_only_trans; [exact IH|].
      apply draw_snapped_replay_only.
      destruct IH as (_ & _ & _ & _ & E & _). congruence.
    + exact IH.
Qed.
End ReplayFrame.

(** C6.  Once the orbit has left its first-orbit mode, frames change nothing
    but [xPlanet], [currSnapIndex] and [currSnapSubindex]: after any number
    of frames the velocity, [firstOrbitPath], the mode, the accumulated
    angle, [indexCarryOver] and the globals of the integrator are what they
    were. *)
Theorem snapped_frames_touch_only_the_pointer
  {T : Type} `{JSNumber T} (angleBetween : vec T -> vec T -> T)
  (n : nat) (w : world T) :
  isFirstOrbit (orbit w) = false ->
  let w' := state_of (frames angleBetween n w) in
  vPlanet (orbit w') = vPlanet (orbit w) /\
  firstOrbitPath (orbit w') = firstOrbitPath (orbit w) /\
  isFirstOrbit (orbit w') = false /\
  angularChangeThisOrbit (orbit w') = angularChangeThisOrbit (orbit w) /\
  indexCarryOver (orbit w') = indexCarryOver (orbit w) /\
  vNext w' = vNext w /\ vAvg w' = vAvg w /\ xNext w' = xNext w.
Proof.
  intros Hs w'.
  destruct (frames_replay_only angleBetween n w Hs)
    as (a1 & a2 & a3 & a4 & a5 & a6 & a7 & a8).
  fold w' in a1, a2, a3, a4, a5, a6, a7, a8.
  repeat split; congruence.
Qed.

Section Runs.
Context {T : Type} `{JSNumber T}.
Variable angleBetween : vec T -> vec T -> T.

Lemma interpolatePosition_in_range (path : list (vec T)) (index : nat) (t : T) :
  (index < length path)%nat ->
  exists p1 p2,
    nth_error path index = Some p1 /\
    nth_error path ((index + 1) mod length path) = Some p2 /\
    interpolatePosition path index t
    = Some (vadd (vmult p1 t) (vmult p2 (num_of_nat 1 - t)%js)).
Proof.
  intros Hi. unfold interpolatePosition.
  destruct (nth_error path index) as [p1|] eqn:E1.
  2:{ apply nth_error_None in E1. lia. }
  destruct (nth_error path ((index + 1) mod length path)) as [p2|] eqn:E2.
  2:{ apply nth_error_None in E2.
      pose proof (Nat.mod_upper_bound (index + 1) (length path)). lia. }
  exists p1, p2. repeat split.
Qed.

Lemma snap_advance_in_range (len index : nat) (t carry : T) :
  (2 <= len)%nat -> (index < len)%nat ->
  (fst (snap_advance len index t carry) < len)%nat.
Proof.
  intros Hlen Hi. unfold snap_advance.
  destruct (Nat.eqb_spec (S index) len).
  - destruct (ge (t + carry)%js (num_of_nat 1)); simpl; lia.
  - simpl; lia.
Qed.

(** A frame of a well-formed orbit ends normally and leaves a well-formed
    orbit. *)
Lemma draw_well_formed (w : world T) :
  well_formed w ->
  exists w', draw angleBetween true w = Normal w' /\ well_formed w'.
Proof.
  intros (Hpath & Hsnap). unfold draw.
  destruct (isFirstOrbit (orbit w)) eqn:Hmode.
  - destruct (draw_first_orbit_shape angleBetween w Hpath)
      as (w1 & w' & _ & _ & E & _ & _ & _ & _ & _ & Ep & _ & Hc).
    exists w'. split; [exact E|]. split.
    + rewrite Ep. destruct (firstOrbitPath (orbit w)); discriminate.
    + intros Hs. rewrite Ep, length_app. cbn [length].
      assert (0 < length (firstOrbitPath (orbit w)))%nat
        by (destruct (firstOrbitPath (orbit w)); [congruence|simpl; lia]).
      destruct (gt (angularChangeThisOrbit (orbit w')) two_pi).
      * destruct Hc as (_ & Hi & _). rewrite Hi. lia.
      * destruct Hc as (Hm & _). congruence.
  - destruct (Hsnap eq_refl) as (Hlen & Hi).
    pose proof (draw_snapped_shape w) as S. cbv zeta in S.
    destruct S as (_ & _ & _ & _ & Em & _ & Ep & _ & Ei & _ & Hx).
    pose proof (snap_advance_in_range _ _ (currSnapSubindex (orbit w))
                  (indexCarryOver (orbit w)) Hlen Hi) as Hr.
    destruct (interpolatePosition_in_range (firstOrbitPath (orbit w)) _
                (snd (snap_advance (length (firstOrbitPath (orbit w)))
                        (currSnapIndex (orbit w)) (currSnapSubindex (orbit w))
                        (indexCarryOver (orbit w)))) Hr) as (p1 & p2 & _ & _ & EI).
    rewrite EI in Hx. destruct Hx as (E & _).
    eexists. split; [exact E|]. split.
    + rewrite Ep. exact Hpath.
    + intros _. rewrite Ep, Ei. split; assumption.
Qed.

Lemma launch_well_formed (v : vec T) : well_formed (launch v).
Proof. split; [discriminate|]. simpl; discriminate. Qed.

(** No frame of a launched orbit throws. *)
Lemma frames_well_formed (n : nat) (w : world T) :
  well_formed w ->
  exists w', frames angleBetween n w = Normal w' /\ well_formed w'.
Proof.
  intros Hw. induction n as [|n (w1 & E1 & W1)].
  - exists w; split; [reflexivity|exact Hw].
  - destruct (draw_well_formed w1 W1) as (w2 & E2 & W2).
    exists w2. split; [|exact W2]. cbn [frames]. rewrite E1. exact E2.
Qed.

(** The snapped mode is never left. *)
Lemma snapped_stays (n k : nat) (w : world T) :
  isFirstOrbit (orbit (state_of (frames angleBetween n w))) = false ->
  isFirstOrbit (orbit (state_of (frames angleBetween (n + k) w))) = false.
Proof.
  intros Hs. induction k as [|k IH].
  - now rewrite Nat.add_0_r.
  - rewrite Nat.add_succ_r. cbn [frames].
    destruct (frames angleBetween (n + k) w) as [w1|e w1]; cbn [and_then state_of] in *.
    + destruct (draw_snapped_replay_only angleBetween w1 IH) as (_ & _ & _ & _ & E & _).
      congruence.
    + exact IH.
Qed.

(** The orbit leaves its first-orbit mode in at most one frame of a run. *)
Lemma closure_frame_unique (w : world T) (i j : nat) :
  isFirstOrbit (orbit (state_of (frames angleBetween i w))) = true ->
  isFirstOrbit (orbit (state_of (frames angleBetween (S i) w))) = false ->
  isFirstOrbit (orbit (state_of (frames angleBetween j w))) = true ->
  isFirstOrbit (orbit (state_of (frames angleBetween (S j) w))) = false ->
  i = j.
Proof.
  intros Li Si Lj Sj.
  destruct (Nat.lt_trichotomy i j) as [Hlt|[Heq|Hgt]]; [|exact Heq|].
  - pose proof (snapped_stays (S i) (j - S i) w Si) as F.
    replace (S i + (j - S i))%nat with j in F by lia. congruence.
  - pose proof (snapped_stays (S j) (i - S j) w Sj) as F.
    replace (S j + (i - S j))%nat with i in F by lia. congruence.
Qed.
End Runs.

Section ExactTracker.
Local Open Scope R_scope.
Variable angleBetween : vec R -> vec R -> R.

Lemma Rgtb_true (x y : R) : Rgtb x y = true <-> x > y.
Proof. unfold Rgtb; destruct (Rgt_dec x y); split; intros; (congruence || lra). Qed.

Lemma Rgeb_true (x y : R) : Rgeb x y = true <-> x >= y.
Proof. unfold Rgeb; destruct (Rge_dec x y); split; intros; (congruence || lra). Qed.

Lemma two_pi_real : (two_pi : R) = 2 * PI.
Proof. unfold two_pi; js_real; simpl; lra. Qed.

(** One frame of a well-formed orbit, in exact arithmetic. *)
Lemma frame_accumulates (w : world R) :
  well_formed w ->
  exists w',
    draw angleBetween true w = Normal w' /\ well_formed w' /\
    angularChangeThisOrbit (orbit w) <= angularChangeThisOrbit (orbit w') /\
    (isFirstOrbit (orbit w) = true ->
     (isFirstOrbit (orbit w') = false <-> angularChangeThisOrbit (orbit w') > 2 * PI)) /\
    (isFirstOrbit (orbit w) = false ->
     isFirstOrbit (orbit w') = false /\
     angularChangeThisOrbit (orbit w') = angularChangeThisOrbit (orbit w) /\
     firstOrbitPath (orbit w') = firstOrbitPath (orbit w)).
Proof.
  intros Hw.
  destruct (draw_well_formed angleBetween w Hw) as (w' & E & Hw').
  exists w'. split; [exact E|]. split; [exact Hw'|].
  destruct (isFirstOrbit (orbit w)) eqn:Hmode.
  - destruct (draw_first_orbit_shape angleBetween w (proj1 Hw))
      as (w1 & w2 & _ & _ & E2 & _ & _ & _ & _ & _ & _ & Ea & Hc).
    assert (w2 = w') as ->.
    { unfold draw in E. rewrite Hmode in E. congruence. }
    split.
    { rewrite Ea. js_real.
      pose proof (Rabs_pos (angleBetween (last (firstOrbitPath (orbit w)) (xPlanet (orbit w1)))
                                         (xPlanet (orbit w1)))). lra. }
    split; [|intros Hd; discriminate Hd].
    intros _. rewrite <- two_pi_real.
    destruct (gt (angularChangeThisOrbit (orbit w')) two_pi) eqn:Hgt; js_real.
    + apply Rgtb_true in Hgt. destruct Hc as (Hm & _).
      split; intros _; assumption.
    + destruct Hc as (Hm & _). rewrite Hm, Hmode.
      split; [intros Hd; discriminate Hd|].
      intros Hgt'. apply Rgtb_true in Hgt'. congruence.
  - pose proof (draw_snapped_replay_only angleBetween w Hmode) as R.
    rewrite E in R. cbn [state_of] in R.
    destruct R as (_ & _ & _ & _ & Em & Ea & Ep & _).
    split; [rewrite Ea; lra|]. split; [intros Hd; discriminate Hd|].
    intros _. repeat split; congruence.
Qed.
End ExactTracker.

(** C5.  In exact arithmetic, along the frames of a launched orbit: every
    frame ends normally; the accumulated angle never decreases; a frame of
    the first orbit leaves the first-orbit mode exactly when the accumulated
    angle it has just computed exceeds 2 pi; a frame of a snapped orbit
    leaves it snapped and changes neither the accumulated angle nor the
    path; and so the orbit leaves its first-orbit mode in at most one frame,
    the first one whose accumulated angle exceeds 2 pi. *)
Theorem closure_happens_once (angleBetween : vec R -> vec R -> R) (v : vec R) :
  (forall n : nat,
     exists w w',
       frames angleBetween n (launch v) = Normal w /\
       frames angleBetween (S n) (launch v) = Normal w' /\
       (angularChangeThisOrbit (orbit w) <= angularChangeThisOrbit (orbit w'))%R /\
       (isFirstOrbit (orbit w) = true ->
        (isFirstOrbit (orbit w') = false
         <-> (angularChangeThisOrbit (orbit w') > 2 * PI)%R)) /\
       (isFirstOrbit (orbit w) = false ->
        isFirstOrbit (orbit w') = false /\
        angularChangeThisOrbit (orbit w') = angularChangeThisOrbit (orbit w) /\
        firstOrbitPath (orbit w') = firstOrbitPath (orbit w)))
  /\
  (forall i j : nat,
     isFirstOrbit (orbit (state_of (frames angleBetween i (launch v)))) = true ->
     isFirstOrbit (orbit (state_of (frames angleBetween (S i) (launch v)))) = false ->
     isFirstOrbit (orbit (state_of (frames angleBetween j (launch v)))) = true ->
     isFirstOrbit (orbit (state_of (frames angleBetween (S j) (launch v)))) = false ->
     i = j).
Proof.
  split.
  - intros n.
    destruct (frames_well_formed angleBetween n (launch v) (launch_well_formed v))
      as (w & E & Hw).
    destruct (frame_accumulates angleBetween w Hw) as (w' & E' & _ & Ha & Hl & Hs).
    exists w, w'. split; [exact E|]. split.
    { cbn [frames]. rewrite E. exact E'. }
    split; [exact Ha|]. split; [exact Hl|exact Hs].
  - intros i j. apply closure_frame_unique.
Qed.

(** C3, as the code has it.  In exact arithmetic, a frame of a snapped orbit
    whose [indexCarryOver] and [currSnapSubindex] are in [0,1) leaves the
    subindex in [0,1): away from the end of the path the index grows by one
    and the subindex is kept; at the end of the path the index wraps to 0 and
    the carry-over is added, and when the sum reaches 1 the index is
    incremented once more and 1 is subtracted, once.  The frame that leaves
    the first-orbit mode sets the subindex to [indexCarryOver], the overshoot
    divided by the first step's angle; with a positive first step's angle
    that quotient is in [0,1) exactly when the overshoot is smaller than the
    first step's angle, which nothing in the frame enforces. *)
Theorem subindex_range (angleBetween : vec R -> vec R -> R) (w : world R) :
  (isFirstOrbit (orbit w) = false ->
   (0 <= indexCarryOver (orbit w) < 1)%R ->
   (0 <= currSnapSubindex (orbit w) < 1)%R ->
   let w' := state_of (draw angleBetween true w) in
   let index := currSnapIndex (orbit w) in
   let sum := (currSnapSubindex (orbit w) + indexCarryOver (orbit w))%R in
   (0 <= currSnapSubindex (orbit w') < 1)%R /\
   indexCarryOver (orbit w') = indexCarryOver (orbit w) /\
   (S index <> length (firstOrbitPath (orbit w)) ->
    currSnapIndex (orbit w') = S index /\
    currSnapSubindex (orbit w') = currSnapSubindex (orbit w)) /\
   (S index = length (firstOrbitPath (orbit w)) -> (sum < 1)%R ->
    currSnapIndex (orbit w') = 0%nat /\ currSnapSubindex (orbit w') = sum) /\
   (S index = length (firstOrbitPath (orbit w)) -> (sum >= 1)%R ->
    currSnapIndex (orbit w') = 1%nat /\ currSnapSubindex (orbit w') = (sum - 1)%R))
  /\
  (isFirstOrbit (orbit w) = true ->
   firstOrbitPath (orbit w) <> [] ->
   let w' := state_of (draw angleBetween true w) in
   isFirstOrbit (orbit w') = false ->
   currSnapSubindex (orbit w') = indexCarryOver (orbit w') /\
   exists q0 q1,
     nth_error (firstOrbitPath (orbit w')) 0 = Some q0 /\
     nth_error (firstOrbitPath (orbit w')) 1 = Some q1 /\
     indexCarryOver (orbit w')
     = ((angularChangeThisOrbit (orbit w') - 2 * PI) / Rabs (angleBetween q1 q0))%R /\
     (angularChangeThisOrbit (orbit w') - 2 * PI > 0)%R /\
     ((0 < Rabs (angleBetween q1 q0))%R ->
      ((0 <= currSnapSubindex (orbit w') < 1)%R
       <-> (angularChangeThisOrbit (orbit w') - 2 * PI < Rabs (angleBetween q1 q0))%R))).
Proof.
  split.
  - intros Hmode Hc Hs w' index sum.
    pose proof (draw_snapped_shape w) as S. cbv zeta in S.
    assert (Ew : w' = state_of (draw_snapped w))
      by (unfold w', draw; rewrite Hmode; reflexivity).
    clearbody w'. subst w'.
    destruct S as (_ & _ & _ & _ & _ & _ & _ & Ec & Ei & Es & _).
    rewrite Ec, Ei, Es. clear Ec Ei Es.
    unfold snap_advance. fold index. js_real.
    replace (INR 1) with 1%R by (simpl; lra). fold sum.
    destruct (Nat.eqb_spec (S index) (length (firstOrbitPath (orbit w)))) as [Hend|Hmid].
    + destruct (Rgeb sum 1) eqn:Hge; cbn [fst snd].
      * apply Rgeb_true in Hge. unfold sum in *.
        repeat split; try lra; try congruence; intros; try lra; auto.
      * assert (~ (sum >= 1)%R) by (intros G; apply Rgeb_true in G; congruence).
        unfold sum in *.
        repeat split; try lra; try congruence; intros; try lra; auto.
    + cbn [fst snd]. repeat split; try lra; try congruence; intros; congruence.
  - intros Hmode Hpath w' Hclosed.
    destruct (draw_first_orbit_shape angleBetween w Hpath)
      as (w1 & w2 & _ & _ & E2 & _ & _ & _ & _ & _ & _ & _ & Hc).
    assert (w' = w2) as Ew.
    { unfold w', draw. rewrite Hmode, E2. reflexivity. }
    rewrite Ew in *. clear Ew.
    destruct (gt (angularChangeThisOrbit (orbit w2)) two_pi) eqn:Hgt.
    2:{ destruct Hc as (Hm & _). congruence. }
    destruct Hc as (_ & _ & Es & q0 & q1 & Q0 & Q1 & Ecarry).
    js_real. apply Rgtb_true in Hgt. rewrite two_pi_real in *.
    split; [exact Es|]. exists q0, q1.
    split; [exact Q0|]. split; [exact Q1|]. split; [exact Ecarry|].
    split; [lra|].
    intros Hpos. rewrite Es, Ecarry.
    assert (Hover : (0 < angularChangeThisOrbit (orbit w2) - 2 * PI)%R) by lra.
    set (over := (angularChangeThisOrbit (orbit w2) - 2 * PI)%R) in *.
    set (step := Rabs (angleBetween q1 q0)) in *.
    assert (Hq : (0 <= over / step)%R).
    { apply Rlt_le, Rdiv_lt_0_compat; lra. }
    split.
    + intros (_ & Hlt).
      apply (Rmult_lt_compat_r step) in Hlt; [|exact Hpos].
      unfold Rdiv in Hlt. rewrite Rmult_assoc, Rinv_l in Hlt by lra. lra.
    + intros Hlt. split; [exact Hq|].
      apply (Rmult_lt_reg_r step); [exact Hpos|].
      unfold Rdiv. rewrite Rmult_assoc, Rinv_l by lra. lra.
Qed.

Section NonFinite.
Local Open Scope R_scope.

(** Whatever is divided by zero is not a finite number. *)
Lemma xdiv_by_zero (x : xreal) : xfinite (xdiv x (Fin 0)) = false.
Proof.
  destruct x as [a| | |]; cbn [xdiv]; try reflexivity.
  - destruct (Req_dec_T 0 0) as [_|N]; [|congruence].
    unfold xscale_inf.
    destruct (Rlt_dec 0 a); [reflexivity|].
    destruct (Rlt_dec a 0); reflexivity.
  - destruct (Rlt_dec 0 0); reflexivity.
  - destruct (Rlt_dec 0 0); reflexivity.
Qed.

Lemma xdiv_finite (c a : R) : a <> 0 -> xdiv (Fin c) (Fin a) = Fin (c / a).
Proof. intros Ha. cbn [xdiv]. destruct (Req_dec_T a 0); [contradiction|reflexivity]. Qed.

Lemma two_pi_xreal : (two_pi : xreal) = Fin (2 * PI).
Proof. unfold two_pi. cbn. f_equal. lra. Qed.
End NonFinite.

Section NonFiniteBinary64.
Local Open Scope float_scope.

(** A binary64 number equal to 0 is one of the two zeros. *)
Lemma float_zero_cases (d : float) :
  PrimFloat.eqb d 0 = true -> exists s, Prim2SF d = S754_zero s.
Proof.
  rewrite FloatAxioms.eqb_spec.
  change (Prim2SF 0) with (S754_zero false).
  destruct (Prim2SF d) as [s|s| |s m e]; intros E.
  - now exists s.
  - destruct s; discriminate E.
  - discriminate E.
  - destruct s; discriminate E.
Qed.

Lemma float_nan_or_infinity (y : float) :
  (Prim2SF y = S754_nan \/ exists s, Prim2SF y = S754_infinity s) ->
  PrimFloat.is_finite y = false.
Proof.
  unfold is_finite, is_nan, is_infinity.
  rewrite !FloatAxioms.eqb_spec, FloatAxioms.abs_spec.
  change (Prim2SF infinity) with (S754_infinity false).
  intros [E|[s E]]; rewrite E; [reflexivity|]. destruct s; reflexivity.
Qed.

(** On binary64 numbers too, whatever is divided by a zero is NaN or an
    infinity. *)
Lemma float_div_by_zero (x d : float) :
  PrimFloat.eqb d 0 = true -> PrimFloat.is_finite (x / d) = false.
Proof.
  intros Hd. destruct (float_zero_cases d Hd) as (s & Ed).
  apply float_nan_or_infinity.
  rewrite FloatAxioms.div_spec, Ed.
  destruct (Prim2SF x) as [sx|sx| |sx m e]; cbn; eauto.
Qed.
End NonFiniteBinary64.

(** ** Binary64 arithmetic: what does not overflow *)

Section Binary64Arithmetic.
Local Open Scope Z_scope.

Lemma fexp_64 (z : Z) : fexp prec emax z = Z.max (z - 53) (-1074).
Proof. reflexivity. Qed.

Lemma digits2_pos_bounds (p : positive) :
  2 ^ (Zpos (digits2_pos p) - 1) <= Zpos p < 2 ^ Zpos (digits2_pos p).
Proof.
  induction p as [p IH|p IH|]; cbn [digits2_pos]; rewrite ?Pos2Z.inj_succ.
  - replace (Z.succ (Zpos (digits2_pos p)) - 1) with (Z.succ (Zpos (digits2_pos p) - 1))
      by lia.
    rewrite !Z.pow_succ_r by lia. lia.
  - replace (Z.succ (Zpos (digits2_pos p)) - 1) with (Z.succ (Zpos (digits2_pos p) - 1))
      by lia.
    rewrite !Z.pow_succ_r by lia. lia.
  - simpl. lia.
Qed.

Lemma Zdigits2_nonneg (m : Z) : 0 <= Zdigits2 m.
Proof. destruct m; simpl; lia. Qed.

Lemma Zdigits2_bounds (m : Z) :
  0 < m -> 2 ^ (Zdigits2 m - 1) <= m < 2 ^ Zdigits2 m.
Proof. destruct m as [|p|p]; try lia. intros _. apply digits2_pos_bounds. Qed.

Lemma Zdigits2_le (m k : Z) : 0 <= k -> 0 <= m < 2 ^ k -> Zdigits2 m <= k.
Proof.
  intros Hk Hm. destruct (Z.eq_dec m 0) as [->|Hne]; [simpl; lia|].
  destruct (Zdigits2_bounds m) as (Hlo & _); [lia|].
  destruct (Z_le_gt_dec (Zdigits2 m) k) as [|Hgt]; [assumption|exfalso].
  assert (2 ^ k <= 2 ^ (Zdigits2 m - 1)) by (apply Z.pow_le_mono_r; lia).
  lia.
Qed.

Lemma Zdigits2_ge (m k : Z) : 0 <= k -> 2 ^ k <= m -> k + 1 <= Zdigits2 m.
Proof.
  intros Hk Hm.
  assert (0 < m) by (pose proof (Z.pow_pos_nonneg 2 k); lia).
  destruct (Zdigits2_bounds m) as (_ & Hhi); [lia|].
  destruct (Z_le_gt_dec (k + 1) (Zdigits2 m)) as [|Hgt]; [assumption|exfalso].
  assert (2 ^ Zdigits2 m <= 2 ^ k)
    by (apply Z.pow_le_mono_r; [lia|pose proof (Zdigits2_nonneg m); lia]).
  lia.
Qed.

Lemma shr_1_m (mrs : shr_record) :
  0 <= shr_m mrs -> shr_m (shr_1 mrs) = shr_m mrs / 2.
Proof.
  destruct mrs as [m r s]. cbn [shr_m]. intros Hm.
  destruct m as [|[p|p|]|p]; cbn [shr_1 shr_m]; try lia.
  - reflexivity.
  - rewrite (Pos2Z.inj_xI p). apply Z.div_unique with 1; lia.
  - rewrite (Pos2Z.inj_xO p). apply Z.div_unique with 0; lia.
  - reflexivity.
Qed.

Lemma shr_1_nonneg (mrs : shr_record) : 0 <= shr_m mrs -> 0 <= shr_m (shr_1 mrs).
Proof. intros H. rewrite shr_1_m by exact H. apply Z.div_pos; lia. Qed.

Lemma iter_shr_m (p : positive) : forall mrs : shr_record,
  0 <= shr_m mrs ->
  shr_m (SpecFloat.iter_pos shr_1 p mrs) = shr_m mrs / 2 ^ Zpos p.
Proof.
  induction p as [p IH|p IH|]; intros mrs Hm; cbn [SpecFloat.iter_pos].
  - assert (H1 := shr_1_nonneg mrs Hm).
    assert (H2 : 0 <= shr_m (SpecFloat.iter_pos shr_1 p (shr_1 mrs))).
    { rewrite IH by exact H1. apply Z.div_pos; [lia|]. apply Z.pow_pos_nonneg; lia. }
    rewrite IH by exact H2. rewrite IH by exact H1. rewrite shr_1_m by exact Hm.
    rewrite !Z.div_div by (pose proof (Z.pow_pos_nonneg 2 (Zpos p)); lia).
    f_equal. change 2 with (2 ^ 1) at 1. rewrite <- !Z.pow_add_r by lia. f_equal. lia.
  - assert (H2 : 0 <= shr_m (SpecFloat.iter_pos shr_1 p mrs)).
    { rewrite IH by exact Hm. apply Z.div_pos; [lia|]. apply Z.pow_pos_nonneg; lia. }
    rewrite IH by exact H2. rewrite IH by exact Hm.
    rewrite !Z.div_div by (pose proof (Z.pow_pos_nonneg 2 (Zpos p)); lia).
    f_equal. rewrite <- Z.pow_add_r by lia. f_equal. lia.
  - rewrite shr_1_m by exact Hm. reflexivity.
Qed.

(** [shr] divides the mantissa by [2 ^ n] and adds [n] to the exponent, for
    a shift [n] that is not negative. *)
Lemma shr_spec (mrs : shr_record) (e n : Z) :
  0 <= shr_m mrs ->
  shr_m (fst (shr mrs e n)) = shr_m mrs / 2 ^ Z.max 0 n /\
  snd (shr mrs e n) = e + Z.max 0 n.
Proof.
  intros Hm. destruct n as [|p|p]; cbn [shr fst snd].
  - change (Z.max 0 0) with 0. rewrite Z.div_1_r. lia.
  - change (Z.max 0 (Zpos p)) with (Zpos p).
    split; [apply iter_shr_m; exact Hm|reflexivity].
  - change (Z.max 0 (Zneg p)) with 0. rewrite Z.div_1_r. lia.
Qed.

Lemma shr_record_of_loc_m (m : Z) (l : location) : shr_m (shr_record_of_loc m l) = m.
Proof. destruct l as [|[| |]]; reflexivity. Qed.

Lemma round_nearest_even_bounds (m : Z) (l : location) :
  m <= round_nearest_even m l <= m + 1.
Proof.
  destruct l as [|[| |]]; cbn [round_nearest_even]; try lia.
  destruct (Z.even m); lia.
Qed.

Lemma pow2_pos (n : Z) : 0 <= n -> 0 < 2 ^ n.
Proof. intros Hn. apply Z.pow_pos_nonneg; lia. Qed.

(** Rounding a mantissa that is not negative, given with an exponent not
    above the one of its format: the result is a zero or a finite number, of
    the given sign, below [2 ^ (E + 1)] when the exact value is below
    [2 ^ E]. *)
Lemma binary_round_aux_below (s : bool) (m e : Z) (l : location) (E : Z) :
  0 <= m ->
  e <= fexp prec emax (Zdigits2 m + e) ->
  Zdigits2 m + e <= E ->
  E <= 1023 ->
  binary_round_aux prec emax s m e l = S754_zero s \/
  exists m' e',
    binary_round_aux prec emax s m e l = S754_finite s m' e' /\
    Zpos (digits2_pos m') + e' <= Z.max (E + 1) (-1020).
Proof.
  intros Hm Hal HE Hmax.
  unfold binary_round_aux, shr_fexp.
  rewrite !fexp_64 in *.
  set (d := Zdigits2 m) in *.
  assert (Hd : 0 <= d) by apply Zdigits2_nonneg.
  remember (Z.max (d + e - 53) (-1074)) as e1 eqn:De1.
  destruct (shr_spec (shr_record_of_loc m l) e (e1 - e)) as (Em1 & Ee1);
    [rewrite shr_record_of_loc_m; exact Hm|].
  rewrite shr_record_of_loc_m in Em1.
  destruct (shr (shr_record_of_loc m l) e (e1 - e)) as [mrs1 e1'].
  cbv beta iota.
  cbn [fst snd] in Em1, Ee1.
  assert (He1' : e1' = e1) by lia. clear Ee1. subst e1'.
  rewrite Z.max_r in Em1 by lia.
  assert (Hm1 : 0 <= shr_m mrs1 < 2 ^ 53).
  { rewrite Em1. split; [apply Z.div_pos; [lia|apply pow2_pos; lia]|].
    apply Z.div_lt_upper_bound; [apply pow2_pos; lia|].
    rewrite <- Z.pow_add_r by lia.
    destruct (Z.eq_dec m 0) as [->|Hne]; [apply pow2_pos; lia|].
    destruct (Zdigits2_bounds m) as (_ & Hhi); [lia|]. fold d in Hhi.
    assert (2 ^ d <= 2 ^ (e1 - e + 53)) by (apply Z.pow_le_mono_r; lia).
    lia. }
  set (mr := round_nearest_even (shr_m mrs1) (loc_of_shr_record mrs1)).
  assert (Hmr : 0 <= mr <= 2 ^ 53).
  { pose proof (round_nearest_even_bounds (shr_m mrs1) (loc_of_shr_record mrs1)).
    fold mr in H. lia. }
  set (dr := Zdigits2 mr).
  assert (Hdr : 0 <= dr <= 54).
  { split; [apply Zdigits2_nonneg|]. apply Zdigits2_le; [lia|].
    change (2 ^ 54) with (2 * 2 ^ 53). lia. }
  rewrite fexp_64. fold mr. fold dr.
  remember (Z.max (dr + e1 - 53) (-1074)) as e2 eqn:De2.
  destruct (shr_spec (shr_record_of_loc mr loc_Exact) e1 (e2 - e1)) as (Em2 & Ee2);
    [cbn; lia|].
  destruct (shr (shr_record_of_loc mr loc_Exact) e1 (e2 - e1)) as [mrs2 e2'].
  cbv beta iota.
  cbn [fst snd shr_record_of_loc shr_m] in Em2, Ee2.
  remember (Z.max 0 (e2 - e1)) as k eqn:Dk.
  assert (Hk : k = 0 \/ (k = 1 /\ dr = 54)) by lia.
  assert (Hm2 : 0 <= shr_m mrs2 < 2 ^ 53).
  { rewrite Em2. destruct Hk as [->|(-> & Edr)].
    - rewrite Z.div_1_r. split; [lia|].
      assert (dr <= 53) by lia.
      destruct (Z.eq_dec mr 0) as [->|Hne]; [reflexivity|].
      destruct (Zdigits2_bounds mr) as (_ & Hhi); [lia|]. fold dr in Hhi.
      assert (2 ^ dr <= 2 ^ 53) by (apply Z.pow_le_mono_r; lia). lia.
    - change (2 ^ 1) with 2. split; [apply Z.div_pos; lia|].
      apply Z.div_lt_upper_bound; [lia|]. change (2 * 2 ^ 53) with (2 ^ 54).
      change (2 ^ 54) with (2 * 2 ^ 53). lia. }
  destruct (shr_m mrs2) as [|m2|m2] eqn:E2; [left; reflexivity| |lia].
  right.
  assert (He2 : e2' <= 971) by lia.
  change (emax - prec) with 971.
  destruct (Z.leb_spec e2' 971) as [_|Hgt]; [|lia].
  exists m2, e2'. split; [reflexivity|].
  assert (Zpos (digits2_pos m2) <= 53).
  { apply (Zdigits2_le (Zpos m2) 53); lia. }
  lia.
Qed.

Lemma SF_below_mono (E E' : Z) (x : spec_float) :
  E <= E' -> SF_below E x -> SF_below E' x.
Proof. destruct x; cbn; lia. Qed.

Lemma binary_round_aux_SF_below (s : bool) (m e : Z) (l : location) (E : Z) :
  0 <= m ->
  e <= fexp prec emax (Zdigits2 m + e) ->
  Zdigits2 m + e <= E ->
  E <= 1023 ->
  SF_below (Z.max (E + 1) (-1020)) (binary_round_aux prec emax s m e l).
Proof.
  intros Hm Hal HE Hmax.
  destruct (binary_round_aux_below s m e l E Hm Hal HE Hmax)
    as [->|(m' & e' & -> & Hb)]; cbn; [exact I|exact Hb].
Qed.

(** A valid finite number has at most 53 digits, and exactly 53 unless its
    exponent is the least one. *)
Lemma valid_finite (s : bool) (m : positive) (e : Z) :
  valid_binary (S754_finite s m e) = true ->
  Zpos (digits2_pos m) <= 53 /\ -1074 <= e <= 971 /\
  (-1074 < e -> Zpos (digits2_pos m) = 53).
Proof.
  cbn [SpecFloat.valid_binary]. unfold bounded, canonical_mantissa.
  intros H. apply andb_prop in H. destruct H as (Hc & He).
  apply Z.eqb_eq in Hc. apply Z.leb_le in He. rewrite fexp_64 in Hc.
  change (emax - prec) with 971 in He. lia.
Qed.

Lemma iter_xO_spec (d m : positive) :
  Zpos (Pos.iter xO m d) = Zpos m * 2 ^ Zpos d /\
  Zpos (digits2_pos (Pos.iter xO m d)) = Zpos (digits2_pos m) + Zpos d.
Proof.
  induction d as [|d (IH1 & IH2)] using Pos.peano_ind.
  - cbn [Pos.iter digits2_pos]. rewrite Pos2Z.inj_xO, Pos2Z.inj_succ.
    change (2 ^ 1) with 2. lia.
  - rewrite Pos.iter_succ. cbn [digits2_pos].
    rewrite Pos2Z.inj_xO, !Pos2Z.inj_succ, IH1, IH2, Z.pow_succ_r by lia. lia.
Qed.

(** [shl_align] keeps the value and the sum of digits and exponent. *)
Lemma shl_align_spec (mx : positive) (ex ex' : Z) :
  snd (shl_align mx ex ex') = Z.min ex ex' /\
  Zpos (fst (shl_align mx ex ex')) = Zpos mx * 2 ^ (ex - Z.min ex ex') /\
  Zpos (digits2_pos (fst (shl_align mx ex ex'))) + snd (shl_align mx ex ex')
  = Zpos (digits2_pos mx) + ex.
Proof.
  unfold shl_align. destruct (ex' - ex) as [|d|d] eqn:Ed; cbn [fst snd].
  - rewrite Z.min_l by lia. rewrite Z.sub_diag. cbn. lia.
  - rewrite Z.min_l by lia. rewrite Z.sub_diag. cbn. lia.
  - destruct (iter_xO_spec d mx) as (E1 & E2).
    rewrite Z.min_r by lia. rewrite E1, E2.
    replace (ex - ex') with (Zpos d) by lia. lia.
Qed.

Lemma binary_round_SF_below (s : bool) (m : positive) (e E : Z) :
  Zpos (digits2_pos m) + e <= E -> E <= 1023 ->
  SF_below (Z.max (E + 1) (-1020)) (binary_round prec emax s m e) /\
  (binary_round prec emax s m e = S754_zero s \/
   exists m' e', binary_round prec emax s m e = S754_finite s m' e').
Proof.
  intros HE Hmax. unfold binary_round.
  destruct (shl_align_spec m e (fexp prec emax (Zpos (digits2_pos m) + e)))
    as (Es & _ & Ed).
  destruct (shl_align m e (fexp prec emax (Zpos (digits2_pos m) + e))) as [mz ez].
  cbn [fst snd] in Es, Ed.
  assert (Hal : ez <= fexp prec emax (Zdigits2 (Zpos mz) + ez)).
  { cbn [Zdigits2]. rewrite Ed, Es. lia. }
  assert (Hd : Zdigits2 (Zpos mz) + ez <= E) by (cbn [Zdigits2]; lia).
  split.
  - apply binary_round_aux_SF_below; [lia|exact Hal|exact Hd|exact Hmax].
  - destruct (binary_round_aux_below s (Zpos mz) ez loc_Exact E) as [->|(m' & e' & -> & _)];
      [lia|exact Hal|exact Hd|exact Hmax|left; reflexivity|right; eauto].
Qed.

(** The mantissas of a sum or a difference, aligned. *)
Lemma aligned_mantissa (mx : positive) (ex ez E : Z) :
  ez <= ex -> Zpos (digits2_pos mx) + ex <= E ->
  0 < Zpos (fst (shl_align mx ex ez)) < 2 ^ (E - ez) /\ 0 < E - ez.
Proof.
  intros Hz HE.
  destruct (shl_align_spec mx ex ez) as (Es & _ & Ed).
  rewrite Z.min_r in Es by lia. rewrite Es in Ed.
  pose proof (digits2_pos_bounds (fst (shl_align mx ex ez))) as (_ & Hhi).
  assert (0 < Zpos (digits2_pos (fst (shl_align mx ex ez)))) by lia.
  assert (2 ^ Zpos (digits2_pos (fst (shl_align mx ex ez))) <= 2 ^ (E - ez))
    by (apply Z.pow_le_mono_r; lia).
  lia.
Qed.

(** The sum of two positive numbers below [2 ^ E] is a number that is not
    negative, below [2 ^ (E + 2)]. *)
Lemma SFadd_positive (mx my : positive) (ex ey E : Z) :
  Zpos (digits2_pos mx) + ex <= E -> Zpos (digits2_pos my) + ey <= E ->
  E + 1 <= 1023 ->
  SF_below (Z.max (E + 2) (-1020))
    (SF64add (S754_finite false mx ex) (S754_finite false my ey)) /\
  (SF64add (S754_finite false mx ex) (S754_finite false my ey) = S754_zero false \/
   exists m e,
     SF64add (S754_finite false mx ex) (S754_finite false my ey)
     = S754_finite false m e).
Proof.
  intros Hx Hy Hmax. unfold SF64add, SFadd. cbv zeta. cbn [cond_Zopp].
  set (ez := Z.min ex ey).
  destruct (aligned_mantissa mx ex ez E) as (Ha & Hpos); [lia|exact Hx|].
  destruct (aligned_mantissa my ey ez E) as (Hb & _); [lia|exact Hy|].
  set (a := fst (shl_align mx ex ez)) in *.
  set (b := fst (shl_align my ey ez)) in *.
  change (Zpos a + Zpos b) with (Zpos (a + b)). cbn [binary_normalize].
  assert (Hd : Zpos (digits2_pos (a + b)) + ez <= E + 1).
  { assert (Zdigits2 (Zpos (a + b)) <= E - ez + 1).
    { apply Zdigits2_le; [lia|]. rewrite Z.pow_add_r by lia.
      change (2 ^ 1) with 2. lia. }
    cbn [Zdigits2] in H. lia. }
  replace (E + 2) with (E + 1 + 1) by lia.
  apply binary_round_SF_below; [exact Hd|exact Hmax].
Qed.

(** The difference of two positive numbers below [2 ^ E] is below
    [2 ^ (E + 1)]. *)
Lemma SFsub_positive (mx my : positive) (ex ey E : Z) :
  Zpos (digits2_pos mx) + ex <= E -> Zpos (digits2_pos my) + ey <= E ->
  E <= 1023 ->
  SF_below (Z.max (E + 1) (-1020))
    (SF64sub (S754_finite false mx ex) (S754_finite false my ey)).
Proof.
  intros Hx Hy Hmax. unfold SF64sub, SFsub. cbv zeta. cbn [cond_Zopp].
  set (ez := Z.min ex ey).
  destruct (aligned_mantissa mx ex ez E) as (Ha & Hpos); [lia|exact Hx|].
  destruct (aligned_mantissa my ey ez E) as (Hb & _); [lia|exact Hy|].
  set (a := fst (shl_align mx ex ez)) in *.
  set (b := fst (shl_align my ey ez)) in *.
  destruct (Zpos a - Zpos b) as [|c|c] eqn:Ec; cbn [binary_normalize].
  - exact I.
  - apply binary_round_SF_below; [|exact Hmax].
    assert (Zdigits2 (Zpos c) <= E - ez) by (apply Zdigits2_le; lia).
    cbn [Zdigits2] in H. lia.
  - apply binary_round_SF_below; [|exact Hmax].
    assert (Zdigits2 (Zpos c) <= E - ez) by (apply Zdigits2_le; lia).
    cbn [Zdigits2] in H. lia.
Qed.

(** A quotient does not overflow when the dividend is below [2 ^ Eo] and
    the divisor at least [2 ^ (La - 1)], with [Eo - La] far enough from the
    largest exponent. *)
Lemma SFdiv_finite (sx sy : bool) (mx my : positive) (ex ey Eo La : Z) :
  Zpos (digits2_pos mx) + ex <= Eo ->
  La <= Zpos (digits2_pos my) + ey ->
  Eo - La + 1 <= 1023 ->
  SF_below 1024 (SF64div (S754_finite sx mx ex) (S754_finite sy my ey)).
Proof.
  intros Hx Hy Hmax. unfold SF64div, SFdiv, SFdiv_core_binary. cbv zeta.
  cbn [Zdigits2]. rewrite fexp_64.
  set (d1 := Zpos (digits2_pos mx)) in *.
  set (d2 := Zpos (digits2_pos my)) in *.
  assert (Hd1 : 0 < d1) by (unfold d1; lia).
  assert (Hd2 : 0 < d2) by (unfold d2; lia).
  remember (d1 + ex - (d2 + ey)) as D eqn:DD.
  remember (Z.min (Z.max (D - 53) (-1074)) (ex - ey)) as e' eqn:De'.
  remember (ex - ey - e') as sh eqn:Dsh.
  assert (Hsh : 0 <= sh) by lia.
  set (m' := match sh with
             | 0 => Zpos mx
             | Zpos _ => Z.shiftl (Zpos mx) sh
             | Zneg _ => 0
             end).
  assert (Em' : m' = Zpos mx * 2 ^ sh).
  { unfold m'. destruct sh as [|p|p]; [lia|apply Z.shiftl_mul_pow2; lia|lia]. }
  clearbody m'.
  pose proof (digits2_pos_bounds mx) as (Hxlo & Hxhi). fold d1 in Hxlo, Hxhi.
  pose proof (digits2_pos_bounds my) as (Hylo & Hyhi). fold d2 in Hylo, Hyhi.
  assert (Hm' : 2 ^ (d1 + sh - 1) <= m' < 2 ^ (d1 + sh)).
  { rewrite Em'. replace (d1 + sh - 1) with (d1 - 1 + sh) by lia.
    rewrite !Z.pow_add_r by lia. pose proof (pow2_pos sh Hsh). nia. }
  assert (Eq : fst (Z.div_eucl m' (Zpos my)) = m' / Zpos my) by reflexivity.
  destruct (Z.div_eucl m' (Zpos my)) as [q r]. cbn [fst] in Eq.
  assert (Hq : 0 <= q) by (rewrite Eq; apply Z.div_pos; lia).
  assert (Hqm : q * Zpos my <= m').
  { rewrite Eq, Z.mul_comm. apply Z.mul_div_le. lia. }
  assert (Hup : Zdigits2 q + e' <= Z.max (D + 1) (-1074)).
  { destruct (Z.eq_dec q 0) as [->|Hne]; [cbn [Zdigits2]; lia|].
    destruct (Zdigits2_bounds q) as (Hqlo & _); [lia|].
    assert (0 + 1 <= Zdigits2 q) by (apply Zdigits2_ge; [lia|simpl; lia]).
    assert (Zdigits2 q - 1 + (d2 - 1) < d1 + sh).
    { apply (Z.pow_lt_mono_r_iff 2); [lia|lia|].
      rewrite Z.pow_add_r by lia.
      assert (0 < 2 ^ (Zdigits2 q - 1)) by (apply pow2_pos; lia).
      assert (0 < 2 ^ (d2 - 1)) by (apply pow2_pos; lia).
      nia. }
    lia. }
  assert (Hal : e' <= fexp prec emax (Zdigits2 q + e')).
  { rewrite fexp_64.
    destruct (Z_le_gt_dec e' (-1074)) as [|Hgt]; [lia|].
    assert (Hbig : 53 + d2 <= d1 + sh) by lia.
    assert (2 ^ (d1 + sh - 1 - d2) <= q).
    { rewrite Eq. apply Z.div_le_lower_bound; [lia|].
      assert (0 < 2 ^ (d1 + sh - 1 - d2)) by (apply pow2_pos; lia).
      replace (d1 + sh - 1) with (d2 + (d1 + sh - 1 - d2)) in Hm' by lia.
      rewrite Z.pow_add_r in Hm' by lia. nia. }
    assert (d1 + sh - 1 - d2 + 1 <= Zdigits2 q) by (apply Zdigits2_ge; lia).
    lia. }
  apply (SF_below_mono (Z.max (Z.max (D + 1) (-1074) + 1) (-1020))); [lia|].
  apply binary_round_aux_SF_below; [exact Hq|exact Hal|exact Hup|lia].
Qed.
End Binary64Arithmetic.

(** ** The carry-over on binary64 numbers *)

Section Binary64Angles.
Local Open Scope Z_scope.

Lemma Prim2SF_two_pi :
  Prim2SF (two_pi : float) = S754_finite false 7074237752028440 (-50).
Proof. vm_compute. reflexivity. Qed.

Lemma Prim2SF_least_angle :
  Prim2SF least_angle = S754_finite false 4503599627370496 (-1052).
Proof. vm_compute. reflexivity. Qed.

Lemma Prim2SF_four : Prim2SF 4%float = S754_finite false 4503599627370496 (-50).
Proof. vm_compute. reflexivity. Qed.

Lemma Prim2SF_zero : Prim2SF (num_of_nat 0 : float) = S754_zero false.
Proof. vm_compute. reflexivity. Qed.

Lemma SFleb_positive (m1 m2 : positive) (e1 e2 : Z) :
  SFleb (S754_finite false m1 e1) (S754_finite false m2 e2) = true -> e1 <= e2.
Proof.
  unfold SFleb, SFcompare. destruct (Z.compare_spec e1 e2); intros E;
    first [lia|discriminate E].
Qed.

Lemma SFltb_positive_false (m1 m2 : positive) (e1 e2 : Z) :
  SFltb (S754_finite false m1 e1) (S754_finite false m2 e2) = false -> e2 <= e1.
Proof.
  unfold SFltb, SFcompare. destruct (Z.compare_spec e1 e2); intros E;
    first [lia|discriminate E].
Qed.

(** An angle in the range of the library, in absolute value: NaN, zero, or
    a finite positive number with an exponent between those of
    [least_angle] and of 4. *)
Lemma angle_shape (x : float) :
  angle_in_range (PrimFloat.abs x) = true ->
  Prim2SF (PrimFloat.abs x) = S754_nan \/
  Prim2SF (PrimFloat.abs x) = S754_zero false \/
  exists m e, Prim2SF (PrimFloat.abs x) = S754_finite false m e /\ -1052 <= e <= -50.
Proof.
  unfold angle_in_range, is_nan.
  rewrite !FloatAxioms.eqb_spec, !FloatAxioms.leb_spec, FloatAxioms.abs_spec,
    Prim2SF_least_angle, Prim2SF_four.
  change (Prim2SF 0) with (S754_zero false).
  destruct (Prim2SF x) as [s|s| |s m e]; cbn [SFabs]; intros H.
  - right. left. reflexivity.
  - discriminate H.
  - left. reflexivity.
  - right. right. exists m, e. split; [reflexivity|].
    apply orb_prop in H. destruct H as [H|H].
    + apply orb_prop in H. destruct H as [H|H].
      * unfold SFeqb, SFcompare in H. rewrite Z.compare_refl, Pos.compare_cont_refl in H.
        discriminate H.
      * discriminate H.
    + apply andb_prop in H. destruct H as (H1 & H2).
      apply SFleb_positive in H1. apply SFleb_positive in H2. lia.
Qed.

Lemma SF_below_is_finite (y : float) (E : Z) :
  SF_below E (Prim2SF y) -> PrimFloat.is_finite y = true.
Proof.
  unfold is_finite, is_nan, is_infinity.
  rewrite !FloatAxioms.eqb_spec, FloatAxioms.abs_spec.
  change (Prim2SF infinity) with (S754_infinity false).
  destruct (Prim2SF y) as [s|s| |s m e]; cbn [SF_below SFabs]; intros H;
    try contradiction.
  - reflexivity.
  - unfold SFeqb, SFcompare. rewrite Z.compare_refl, Pos.compare_cont_refl.
    destruct s; reflexivity.
Qed.

Lemma SF_nonneg_below_mono (E E' : Z) (x : spec_float) :
  E <= E' -> SF_nonneg_below E x -> SF_nonneg_below E' x.
Proof.
  intros HE [->|(m & e & -> & H)]; [left; reflexivity|right].
  exists m, e. split; [reflexivity|lia].
Qed.

(** The accumulated angle and one more angle. *)
Lemma accumulate_shape (acc a : float) :
  Prim2SF acc = S754_nan \/ SF_nonneg_below 3 (Prim2SF acc) ->
  Prim2SF a = S754_nan \/ SF_nonneg_below 3 (Prim2SF a) ->
  (Prim2SF (acc + a) = S754_nan \/ SF_nonneg_below 5 (Prim2SF (acc + a))) /\
  (Prim2SF acc = S754_nan \/ Prim2SF a = S754_nan -> Prim2SF (acc + a) = S754_nan).
Proof.
  rewrite FloatAxioms.add_spec.
  intros [Ex|[Ex|(mx & ex & Ex & Hx)]] [Ey|[Ey|(my & ey & Ey & Hy)]];
    rewrite Ex, Ey; cbn [SF64add SFadd];
    (split; [|intros [N|N]; try discriminate N; reflexivity]).
  - left; reflexivity.
  - left; reflexivity.
  - left; reflexivity.
  - left; reflexivity.
  - right. left. reflexivity.
  - right. right. exists my, ey. split; [reflexivity|lia].
  - left; reflexivity.
  - right. right. exists mx, ex. split; [reflexivity|lia].
  - right. destruct (SFadd_positive mx my ex ey 3 Hx Hy) as (_ & [E|(m & e & E)]); [lia| |].
    + left. exact E.
    + right. exists m, e. split; [exact E|].
      destruct (SFadd_positive mx my ex ey 3 Hx Hy) as (B & _); [lia|].
      unfold SF64add in *. rewrite E in B. cbn [SF_below] in B. lia.
Qed.

(** An accumulated angle that is not above [2 pi] is below 8. *)
Lemma not_above_two_pi (x : float) (E : Z) :
  Prim2SF x = S754_nan \/ SF_nonneg_below E (Prim2SF x) ->
  gt x two_pi = false ->
  Prim2SF x = S754_nan \/ SF_nonneg_below 3 (Prim2SF x).
Proof.
  intros [N|[Z|(m & e & Ex & Hx)]] Hgt; [left; exact N|right; left; exact Z|].
  right. right. exists m, e. split; [exact Ex|].
  cbn [gt float_number] in Hgt.
  rewrite FloatAxioms.ltb_spec, Prim2SF_two_pi, Ex in Hgt.
  apply SFltb_positive_false in Hgt.
  pose proof (FloatAxioms.Prim2SF_valid x) as V. rewrite Ex in V.
  apply valid_finite in V. lia.
Qed.

Lemma above_two_pi (x : float) :
  gt x two_pi = true -> Prim2SF x <> S754_nan.
Proof.
  cbn [gt float_number]. rewrite FloatAxioms.ltb_spec, Prim2SF_two_pi.
  intros H N. rewrite N in H. discriminate H.
Qed.

(** The overshoot of an accumulated angle below 32. *)
Lemma overshoot_below (x : float) :
  SF_nonneg_below 5 (Prim2SF x) -> SF_below 6 (Prim2SF (x - two_pi)%js).
Proof.
  cbn [sub float_number]. rewrite FloatAxioms.sub_spec, Prim2SF_two_pi.
  intros [->|(m & e & -> & Hx)].
  - cbn. lia.
  - apply (SF_below_mono (Z.max (5 + 1) (-1020))); [lia|].
    apply SFsub_positive; [exact Hx|cbn; lia|lia].
Qed.

(** The quotient of an overshoot below 64 by an angle in the range of the
    library is a finite number. *)
Lemma carry_over_finite (o a : float) (m : positive) (e : Z) :
  SF_below 6 (Prim2SF o) ->
  Prim2SF a = S754_finite false m e -> -1052 <= e ->
  PrimFloat.is_finite (o / a) = true.
Proof.
  intros Ho Ea He. apply (SF_below_is_finite _ 1024).
  rewrite FloatAxioms.div_spec, Ea.
  pose proof (FloatAxioms.Prim2SF_valid a) as V. rewrite Ea in V.
  apply valid_finite in V.
  destruct (Prim2SF o) as [s|s| |s mo eo]; cbn [SF_below] in Ho; try contradiction.
  - exact I.
  - apply (SFdiv_finite s false mo m eo e 6 (-999)); lia.
Qed.
End Binary64Angles.

Section Binary64Carry.
Variable angleBetween : vec float -> vec float -> float.
Hypothesis angle_range :
  forall u v, angle_in_range (Math_abs (angleBetween u v)) = true.
Hypothesis angle_sym :
  forall u v, Math_abs (angleBetween u v) = Math_abs (angleBetween v u).

Lemma angle_accumulates (u v : vec float) :
  Prim2SF (Math_abs (angleBetween u v)) = S754_nan \/
  SF_nonneg_below 3 (Prim2SF (Math_abs (angleBetween u v))).
Proof.
  pose proof (angle_range u v) as R. cbn [Math_abs float_number] in *.
  destruct (angle_shape _ R) as [N|[Z|(m & e & E & He)]].
  - left. exact N.
  - right. left. exact Z.
  - right. right. exists m, e. split; [exact E|].
    pose proof (FloatAxioms.Prim2SF_valid (PrimFloat.abs (angleBetween u v))) as V.
    rewrite E in V. apply valid_finite in V. lia.
Qed.

Lemma launch_first_orbit_ok (v : vec float) :
  first_orbit_ok angleBetween (launch v).
Proof.
  split; [apply launch_well_formed|]. split.
  - right. left. reflexivity.
  - left. eexists. split; reflexivity.
Qed.

(** A frame of the first orbit, on binary64 numbers. *)
Lemma first_orbit_frame_binary64 (w : world float) :
  first_orbit_ok angleBetween w -> isFirstOrbit (orbit w) = true ->
  exists w' q0 q1,
    draw angleBetween true w = Normal w' /\
    nth_error (firstOrbitPath (orbit w')) 0 = Some q0 /\
    nth_error (firstOrbitPath (orbit w')) 1 = Some q1 /\
    (isFirstOrbit (orbit w') = true -> first_orbit_ok angleBetween w') /\
    (isFirstOrbit (orbit w') = false ->
     indexCarryOver (orbit w')
     = ((angularChangeThisOrbit (orbit w') - two_pi)
        / Math_abs (angleBetween q1 q0))%js /\
     SF_nonneg_below 5 (Prim2SF (angularChangeThisOrbit (orbit w'))) /\
     Prim2SF (Math_abs (angleBetween q1 q0)) <> S754_nan).
Proof.
  intros (Hw & Hacc & Hfirst) Hmode.
  destruct (draw_well_formed angleBetween w Hw) as (w' & E & Hw').
  destruct (draw_first_orbit_shape angleBetween w (proj1 Hw))
    as (w1 & w2 & _ & _ & E2 & _ & _ & _ & _ & _ & Ep & Ea & Hc).
  assert (w2 = w') as ->.
  { unfold draw in E. rewrite Hmode in E. congruence. }
  set (x1 := xPlanet (orbit w1)) in *.
  set (step := Math_abs (angleBetween (last (firstOrbitPath (orbit w)) x1) x1)) in *.
  cbn [add float_number] in Ea.
  destruct (accumulate_shape (angularChangeThisOrbit (orbit w)) step Hacc
              (angle_accumulates _ _)) as (Hsum & Hnan).
  rewrite <- Ea in Hsum, Hnan.
  (* the first two points of the path, and the angle of the first step *)
  assert (Hq : exists q0 q1,
             nth_error (firstOrbitPath (orbit w')) 0 = Some q0 /\
             nth_error (firstOrbitPath (orbit w')) 1 = Some q1 /\
             (Prim2SF (Math_abs (angleBetween q1 q0)) = S754_nan ->
              Prim2SF (angularChangeThisOrbit (orbit w')) = S754_nan)).
  { destruct Hfirst as [(q0 & Epath & _)|(q0 & q1 & Q0 & Q1 & N)].
    - exists q0, x1. rewrite Ep, Epath. split; [reflexivity|]. split; [reflexivity|].
      intros Hn. apply Hnan. right. unfold step. rewrite Epath. cbn [last].
      rewrite angle_sym. exact Hn.
    - exists q0, q1. rewrite Ep.
      split; [rewrite nth_error_app1; [exact Q0|apply nth_error_Some; congruence]|].
      split; [rewrite nth_error_app1; [exact Q1|apply nth_error_Some; congruence]|].
      intros Hn. apply Hnan. left. apply N, Hn. }
  destruct Hq as (q0 & q1 & Q0 & Q1 & N).
  exists w', q0, q1. split; [exact E|]. split; [exact Q0|]. split; [exact Q1|].
  destruct (gt (angularChangeThisOrbit (orbit w')) two_pi) eqn:Hgt.
  - destruct Hc as (Hm & _ & _ & q0' & q1' & Q0' & Q1' & Ecarry).
    split; [intros Hd; congruence|]. intros _.
    assert (q0' = q0) by congruence. assert (q1' = q1) by congruence. subst q0' q1'.
    split; [exact Ecarry|].
    pose proof (above_two_pi _ Hgt) as Hnn.
    split.
    + destruct Hsum as [Hn|Hb]; [contradiction|exact Hb].
    + intros Hn. apply Hnn, N, Hn.
  - destruct Hc as (Hm & _).
    split; [|intros Hd; congruence]. intros _.
    split; [exact Hw'|]. split.
    + apply (not_above_two_pi _ 5); assumption.
    + right. exists q0, q1. split; [exact Q0|]. split; [exact Q1|exact N].
Qed.

(** The same, after any number of frames from a launch. *)
Lemma first_orbit_ok_frames (v : vec float) (n : nat) :
  exists w,
    frames angleBetween n (launch v) = Normal w /\
    (isFirstOrbit (orbit w) = true -> first_orbit_ok angleBetween w).
Proof.
  induction n as [|n (w & E & IH)].
  - exists (launch v). split; [reflexivity|]. intros _. apply launch_first_orbit_ok.
  - cbn [frames]. rewrite E. cbn [and_then].
    destruct (isFirstOrbit (orbit w)) eqn:Hmode.
    + destruct (first_orbit_frame_binary64 w (IH eq_refl) Hmode)
        as (w' & q0 & q1 & E' & _ & _ & Hok & _).
      exists w'. split; [exact E'|exact Hok].
    + destruct (frames_well_formed angleBetween (S n) (launch v) (launch_well_formed v))
        as (w' & E' & _).
      cbn [frames] in E'. rewrite E in E'. cbn [and_then] in E'.
      exists w'. split; [exact E'|].
      pose proof (draw_snapped_replay_only angleBetween w Hmode) as R.
      rewrite E' in R. cbn [state_of] in R.
      destruct R as (_ & _ & _ & _ & Em & _). intros Hd. congruence.
Qed.
End Binary64Carry.

(** The angle between two vectors of the vertical axis is in the range and
    symmetric. *)
Lemma float_mul_comm (x y : float) : PrimFloat.mul x y = PrimFloat.mul y x.
Proof.
  apply FloatAxioms.Prim2SF_inj. rewrite !FloatAxioms.mul_spec.
  unfold SF64mul, SFmul.
  destruct (Prim2SF x) as [sx|sx| |sx mx ex], (Prim2SF y) as [sy|sy| |sy my ey];
    try reflexivity; rewrite (xorb_comm sx sy); try reflexivity.
  rewrite (Pos.mul_comm mx my), (Z.add_comm ex ey). reflexivity.
Qed.

Lemma angleBetween_y_axis_range (u v : vec float) :
  angle_in_range (Math_abs (angleBetween_y_axis u v)) = true.
Proof.
  unfold angleBetween_y_axis.
  destruct (PrimFloat.eqb (vx u) 0 && PrimFloat.eqb (vx v) 0); [|vm_compute; reflexivity].
  cbv zeta.
  destruct (PrimFloat.ltb 0 (PrimFloat.mul (vy u) (vy v))); [vm_compute; reflexivity|].
  destruct (PrimFloat.ltb (PrimFloat.mul (vy u) (vy v)) 0); vm_compute; reflexivity.
Qed.

Lemma angleBetween_y_axis_sym (u v : vec float) :
  Math_abs (angleBetween_y_axis u v) = Math_abs (angleBetween_y_axis v u).
Proof.
  unfold angleBetween_y_axis.
  rewrite (andb_comm (PrimFloat.eqb (vx v) 0)), (float_mul_comm (vy v) (vy u)).
  reflexivity.
Qed.

Lemma closing_carry_binary64
    (angleBetween : vec float -> vec float -> float) (v : vec float) (n : nat) :
  (forall p q, angle_in_range (Math_abs (angleBetween p q)) = true) ->
  (forall p q, Math_abs (angleBetween p q) = Math_abs (angleBetween q p)) ->
  let w := state_of (frames angleBetween n (launch v)) in
  let w' := state_of (frames angleBetween (S n) (launch v)) in
  isFirstOrbit (orbit w) = true ->
  isFirstOrbit (orbit w') = false ->
  exists q0 q1,
    nth_error (firstOrbitPath (orbit w')) 0 = Some q0 /\
    nth_error (firstOrbitPath (orbit w')) 1 = Some q1 /\
    let firstStepAngle := Math_abs (angleBetween q1 q0) in
    indexCarryOver (orbit w')
    = ((angularChangeThisOrbit (orbit w') - two_pi) / firstStepAngle)%js /\
    PrimFloat.is_nan firstStepAngle = false /\
    PrimFloat.is_finite (indexCarryOver (orbit w'))
    = negb (strict_eq firstStepAngle 0%float).
Proof.
  intros Hrange Hsym w w' Hmode Hclosed.
  destruct (first_orbit_ok_frames angleBetween Hrange Hsym v n) as (w0 & E & Hok).
  assert (Ew : w = w0) by (unfold w; rewrite E; reflexivity).
  rewrite Ew in Hmode.
  destruct (first_orbit_frame_binary64 angleBetween Hrange Hsym w0 (Hok Hmode) Hmode)
    as (w1 & q0 & q1 & E' & Q0 & Q1 & _ & Hclose).
  assert (Ew' : w' = w1).
  { unfold w'. cbn [frames]. rewrite E. cbn [and_then]. rewrite E'. reflexivity. }
  clearbody w w'. subst w w'.
  destruct (Hclose Hclosed) as (Ecarry & Hacc & Hnn).
  exists q0, q1. split; [exact Q0|]. split; [exact Q1|].
  intros firstStepAngle. fold firstStepAngle in Ecarry, Hnn.
  split; [exact Ecarry|].
  pose proof (Hrange q1 q0) as R. fold firstStepAngle in R.
  unfold firstStepAngle in R, Hnn. cbn [Math_abs float_number] in R, Hnn.
  destruct (angle_shape _ R) as [N|[Z|(m & e & Ea & He)]]; [contradiction| |].
  - assert (E0 : strict_eq firstStepAngle 0%float = true).
    { unfold firstStepAngle. cbn [strict_eq Math_abs float_number].
      rewrite FloatAxioms.eqb_spec, Z. reflexivity. }
    split.
    { unfold firstStepAngle, is_nan. cbn [Math_abs float_number].
      rewrite FloatAxioms.eqb_spec, Z. reflexivity. }
    rewrite E0, Ecarry. apply float_div_by_zero. exact E0.
  - assert (E0 : strict_eq firstStepAngle 0%float = false).
    { unfold firstStepAngle. cbn [strict_eq Math_abs float_number].
      rewrite FloatAxioms.eqb_spec, Ea. reflexivity. }
    split.
    { unfold firstStepAngle, is_nan. cbn [Math_abs float_number].
      rewrite FloatAxioms.eqb_spec, Ea. unfold SFeqb, SFcompare.
      rewrite Z.compare_refl, Pos.compare_cont_refl. reflexivity. }
    rewrite E0, Ecarry. cbn [negb div float_number].
    apply (carry_over_finite _ _ m e); [apply overshoot_below; exact Hacc|exact Ea|lia].
Qed.

(** The carry-over a closing frame assigns, at any carrier. *)
Lemma closing_frame_carry
  {T : Type} `{JSNumber T} (angleBetween : vec T -> vec T -> T) (w : world T) :
  isFirstOrbit (orbit w) = true ->
  firstOrbitPath (orbit w) <> [] ->
  let w' := state_of (draw angleBetween true w) in
  isFirstOrbit (orbit w') = false ->
  exists q0 q1,
    nth_error (firstOrbitPath (orbit w')) 0 = Some q0 /\
    nth_error (firstOrbitPath (orbit w')) 1 = Some q1 /\
    indexCarryOver (orbit w')
    = ((angularChangeThisOrbit (orbit w') - two_pi) / Math_abs (angleBetween q1 q0))%js.
Proof.
  intros Hmode Hpath w' Hclosed.
  destruct (draw_first_orbit_shape angleBetween w Hpath)
    as (w1 & w2 & _ & _ & E2 & _ & _ & _ & _ & _ & _ & _ & Hc).
  assert (w' = w2) as Ew.
  { unfold w', draw. rewrite Hmode, E2. reflexivity. }
  clearbody w'. subst w'.
  destruct (gt (angularChangeThisOrbit (orbit w2)) two_pi) eqn:Hgt.
  2:{ destruct Hc as (Hm & _). congruence. }
  destruct Hc as (_ & _ & _ & q0 & q1 & Q0 & Q1 & Ecarry).
  exists q0, q1. split; [exact Q0|]. split; [exact Q1|exact Ecarry].
Qed.

(** C9.  The frame that leaves the first-orbit mode computes
    [indexCarryOver] as the overshoot divided by the first step's angle, with
    no test of the divisor.

    On the binary64 numbers of the program, for every launch velocity and
    every number of frames, with an [angleBetween] that is symmetric in
    absolute value and whose absolute value is NaN, 0 or a number from
    [2 ^ -1000] to 4: at the frame that closes the orbit the first step's
    angle is not NaN, and [indexCarryOver] is a finite number exactly when
    that angle is not zero.  Rounding is accounted for: the accumulated
    angle is at most [2 pi] before the closing frame, so the overshoot is
    below 64 and its quotient by an angle of at least [2 ^ -1000] does not
    overflow.

    Besides, for a single closing frame from any state and with any
    [angleBetween]: on binary64 a first step's angle equal to zero leaves a
    carry-over that is not finite; and in exact arithmetic with IEEE's
    non-finite values, a nonzero first step's angle (and a finite
    accumulated angle) gives the finite quotient, a zero one an infinity or
    NaN. *)
Theorem carry_over_division_unguarded :
  (forall (angleBetween : vec xreal -> vec xreal -> xreal) (w : world xreal),
     isFirstOrbit (orbit w) = true ->
     firstOrbitPath (orbit w) <> [] ->
     let w' := state_of (draw angleBetween true w) in
     isFirstOrbit (orbit w') = false ->
     exists q0 q1,
       nth_error (firstOrbitPath (orbit w')) 0 = Some q0 /\
       nth_error (firstOrbitPath (orbit w')) 1 = Some q1 /\
       let firstStepAngle := Math_abs (angleBetween q1 q0) in
       indexCarryOver (orbit w')
       = ((angularChangeThisOrbit (orbit w') - two_pi) / firstStepAngle)%js /\
       (forall a c : R,
          firstStepAngle = Fin a -> a <> 0%R ->
          angularChangeThisOrbit (orbit w') = Fin c ->
          indexCarryOver (orbit w') = Fin ((c - 2 * PI) / a)) /\
       (firstStepAngle = Fin 0 -> xfinite (indexCarryOver (orbit w')) = false))
  /\
  (forall (angleBetween : vec float -> vec float -> float) (w : world float),
     isFirstOrbit (orbit w) = true ->
     firstOrbitPath (orbit w) <> [] ->
     let w' := state_of (draw angleBetween true w) in
     isFirstOrbit (orbit w') = false ->
     exists q0 q1,
       nth_error (firstOrbitPath (orbit w')) 0 = Some q0 /\
       nth_error (firstOrbitPath (orbit w')) 1 = Some q1 /\
       let firstStepAngle := Math_abs (angleBetween q1 q0) in
       indexCarryOver (orbit w')
       = ((angularChangeThisOrbit (orbit w') - two_pi) / firstStepAngle)%js /\
       (strict_eq firstStepAngle 0%float = true ->
        PrimFloat.is_finite (indexCarryOver (orbit w')) = false))
  /\
  (forall (angleBetween : vec float -> vec float -> float) (v : vec float) (n : nat),
     (forall p q, angle_in_range (Math_abs (angleBetween p q)) = true) ->
     (forall p q, Math_abs (angleBetween p q) = Math_abs (angleBetween q p)) ->
     let w := state_of (frames angleBetween n (launch v)) in
     let w' := state_of (frames angleBetween (S n) (launch v)) in
     isFirstOrbit (orbit w) = true ->
     isFirstOrbit (orbit w') = false ->
     exists q0 q1,
       nth_error (firstOrbitPath (orbit w')) 0 = Some q0 /\
       nth_error (firstOrbitPath (orbit w')) 1 = Some q1 /\
       let firstStepAngle := Math_abs (angleBetween q1 q0) in
       indexCarryOver (orbit w')
       = ((angularChangeThisOrbit (orbit w') - two_pi) / firstStepAngle)%js /\
       PrimFloat.is_nan firstStepAngle = false /\
       PrimFloat.is_finite (indexCarryOver (orbit w'))
       = negb (strict_eq firstStepAngle 0%float)).
Proof.
  split; [|split]; [| |exact closing_carry_binary64].
  - intros angleBetween w Hmode Hpath w' Hclosed.
    destruct (closing_frame_carry angleBetween w Hmode Hpath Hclosed)
      as (q0 & q1 & Q0 & Q1 & Ecarry).
    fold w' in Q0, Q1, Ecarry.
    exists q0, q1. split; [exact Q0|]. split; [exact Q1|].
    intros firstStepAngle. fold firstStepAngle in Ecarry.
    split; [exact Ecarry|]. split.
    + intros a c Ea Ha Ec. rewrite Ecarry, Ea, Ec, two_pi_xreal.
      cbn [sub div xreal_number xsub xneg xadd].
      rewrite xdiv_finite by exact Ha. reflexivity.
    + intros E0. rewrite Ecarry, E0. apply xdiv_by_zero.
  - intros angleBetween w Hmode Hpath w' Hclosed.
    destruct (closing_frame_carry angleBetween w Hmode Hpath Hclosed)
      as (q0 & q1 & Q0 & Q1 & Ecarry).
    fold w' in Q0, Q1, Ecarry.
    exists q0, q1. split; [exact Q0|]. split; [exact Q1|].
    intros firstStepAngle. fold firstStepAngle in Ecarry.
    split; [exact Ecarry|].
    intros E0. rewrite Ecarry. apply float_div_by_zero. exact E0.
Qed.

(** ** The sweep meter *)

Section ExactSweep.
Local Open Scope R_scope.

Lemma dist_sym (a b : vec R) : dist a b = dist b a.
Proof.
  unfold dist, mag, magSq, vsub. js_real. cbn [vx vy]. f_equal. ring.
Qed.

Lemma dist_squared (a b : vec R) :
  dist a b * dist a b
  = (vx b - vx a) * (vx b - vx a) + (vy b - vy a) * (vy b - vy a).
Proof. unfold dist. rewrite mag_squared. reflexivity. Qed.

Lemma heron_sym (a b c : R) : Spec.heron a b c = Spec.heron c b a.
Proof. unfold Spec.heron, Spec.heron_radicand. f_equal. field. Qed.

(** The triangle's area does not depend on the order of its two points. *)
Lemma triangle_area_sym (p q : vec R) : Spec.triangle_area p q = Spec.triangle_area q p.
Proof.
  unfold Spec.triangle_area.
  rewrite heron_sym, (dist_sym q Spec.origin), (dist_sym p q), (dist_sym Spec.origin p).
  reflexivity.
Qed.

(** The radicand of Heron's formula on the three distances is the square
    of half the cross product: it is never negative, and the root is the
    area of the triangle. *)
Lemma radicand_is_cross (p q : vec R) :
  Spec.heron_radicand (dist Spec.origin p) (dist p q) (dist q Spec.origin)
  = Rsqr ((vx p * vy q - vy p * vx q) / 2).
Proof.
  pose proof (dist_squared Spec.origin p) as Ha.
  pose proof (dist_squared p q) as Hb.
  pose proof (dist_squared q Spec.origin) as Hc.
  set (a := dist Spec.origin p) in *.
  set (b := dist p q) in *.
  set (c := dist q Spec.origin) in *.
  replace (Spec.heron_radicand a b c)
    with ((2 * ((a * a) * (b * b) + (b * b) * (c * c) + (c * c) * (a * a))
           - ((a * a) * (a * a) + (b * b) * (b * b) + (c * c) * (c * c))) / 16)
    by (unfold Spec.heron_radicand; field).
  rewrite Ha, Hb, Hc. unfold Spec.origin, Rsqr. cbn [vx vy]. field.
Qed.

Lemma radicand_nonneg (p q : vec R) :
  0 <= Spec.heron_radicand (dist Spec.origin p) (dist p q) (dist q Spec.origin).
Proof. rewrite radicand_is_cross. apply Rle_0_sqr. Qed.

Lemma triangle_area_is_half_cross (p q : vec R) :
  Spec.triangle_area p q = Rabs (vx p * vy q - vy p * vx q) / 2.
Proof.
  unfold Spec.triangle_area, Spec.heron.
  rewrite radicand_is_cross, sqrt_Rsqr_abs.
  unfold Rdiv. rewrite Rabs_mult, (Rabs_right (/ 2)) by lra. reflexivity.
Qed.

Lemma getTriangleArea_refines (p q : vec R) :
  getTriangleArea Spec.origin p q = Spec.triangle_area p q.
Proof.
  unfold getTriangleArea, Spec.triangle_area, Spec.heron, Spec.heron_radicand.
  js_real. replace (INR 2) with 2 by (simpl; lra). reflexivity.
Qed.

Lemma sweep_loop_refines (path : list (vec R)) (total : R) :
  sweep_loop Spec.origin total path = total + Spec.sweptAreaInAU2 path.
Proof.
  revert total. induction path as [|p rest IH]; intros total.
  - simpl. lra.
  - destruct rest as [|q rest'].
    + simpl. lra.
    + change (sweep_loop Spec.origin total (p :: q :: rest'))
        with (sweep_loop Spec.origin (total + getTriangleArea Spec.origin p q)%js
                         (q :: rest')).
      rewrite IH. js_real. rewrite getTriangleArea_refines.
      change (Spec.sweptAreaInAU2 (p :: q :: rest'))
        with (Spec.triangle_area p q + Spec.sweptAreaInAU2 (q :: rest')).
      lra.
Qed.

Lemma getSweepAreaInAU2_refines (path : list (vec R)) :
  getSweepAreaInAU2 path = Spec.sweptAreaInAU2 path.
Proof.
  unfold getSweepAreaInAU2.
  change (createVector (num_of_nat 0) (num_of_nat 0)) with Spec.origin.
  rewrite sweep_loop_refines. js_real. simpl. lra.
Qed.

Lemma sweptArea_nonneg (path : list (vec R)) : 0 <= Spec.sweptAreaInAU2 path.
Proof.
  induction path as [|p rest IH]; [simpl; lra|].
  destruct rest as [|q rest']; [simpl; lra|].
  change (Spec.sweptAreaInAU2 (p :: q :: rest'))
    with (Spec.triangle_area p q + Spec.sweptAreaInAU2 (q :: rest')).
  pose proof (sqrt_pos (Spec.heron_radicand (dist Spec.origin p) (dist p q)
                          (dist q Spec.origin))) as Hs.
  unfold Spec.triangle_area at 1. unfold Spec.heron. lra.
Qed.

(** The sum when a point is added at the end of the path. *)
Lemma sweptArea_snoc (path : list (vec R)) (q : vec R) :
  Spec.sweptAreaInAU2 (path ++ [q])
  = Spec.sweptAreaInAU2 path
    + match path with [] => 0 | _ => Spec.triangle_area (last path q) q end.
Proof.
  induction path as [|p rest IH]; [simpl; lra|].
  destruct rest as [|p' rest'].
  - simpl. lra.
  - change (Spec.sweptAreaInAU2 ((p :: p' :: rest') ++ [q]))
      with (Spec.triangle_area p p' + Spec.sweptAreaInAU2 ((p' :: rest') ++ [q])).
    rewrite IH.
    change (Spec.sweptAreaInAU2 (p :: p' :: rest'))
      with (Spec.triangle_area p p' + Spec.sweptAreaInAU2 (p' :: rest')).
    change (last (p :: p' :: rest') q) with (last (p' :: rest') q).
    lra.
Qed.

Lemma last_rev_cons (p : vec R) (rest : list (vec R)) (d : vec R) :
  last (rev (p :: rest)) d = p.
Proof. cbn [rev]. apply last_last. Qed.

Lemma sweptArea_rev (path : list (vec R)) :
  Spec.sweptAreaInAU2 (rev path) = Spec.sweptAreaInAU2 path.
Proof.
  induction path as [|p rest IH]; [reflexivity|].
  cbn [rev]. rewrite sweptArea_snoc, IH.
  destruct rest as [|q rest']; [simpl; lra|].
  rewrite last_rev_cons.
  change (Spec.sweptAreaInAU2 (p :: q :: rest'))
    with (Spec.triangle_area p q + Spec.sweptAreaInAU2 (q :: rest')).
  destruct (rev (q :: rest')) eqn:Er.
  - apply (f_equal (@length _)) in Er. rewrite length_rev in Er. discriminate.
  - rewrite (triangle_area_sym q p). lra.
Qed.
End ExactSweep.

(** The loop adds one triangle per consecutive pair, from the left, at every
    carrier. *)
Lemma sweep_loop_fold {T : Type} `{JSNumber T} (center : vec T) (path : list (vec T))
  (total : T) :
  sweep_loop center total path
  = fold_left (fun t pq => (t + getTriangleArea center (fst pq) (snd pq))%js)
              (combine path (tl path)) total.
Proof.
  revert total. induction path as [|p rest IH]; intros total; [reflexivity|].
  destruct rest as [|q rest']; [reflexivity|].
  change (sweep_loop center total (p :: q :: rest'))
    with (sweep_loop center (total + getTriangleArea center p q)%js (q :: rest')).
  rewrite IH. reflexivity.
Qed.

(** C7, as the code has it.  At every carrier of numbers
    [getSweepAreaInAU2] adds, from the left and starting from 0, Heron's
    formula on the three pairwise distances of the origin and the two points
    of each consecutive pair, and it is 0 for a path of fewer than two
    points.  In exact arithmetic that is the specification's sum, the
    radicand of the formula is never negative, and the sum is not negative. *)
Theorem sweep_area_exact :
  (forall (T : Type) (N : JSNumber T) (path : list (vec T)),
     getSweepAreaInAU2 path
     = fold_left (fun t pq =>
                    (t + getTriangleArea (createVector (num_of_nat 0) (num_of_nat 0))
                                         (fst pq) (snd pq))%js)
                 (combine path (tl path)) (num_of_nat 0) /\
     ((length path < 2)%nat -> getSweepAreaInAU2 path = num_of_nat 0))
  /\
  (forall path : list (vec R),
     getSweepAreaInAU2 path = Spec.sweptAreaInAU2 path /\
     (forall p q : vec R,
        (0 <= Spec.heron_radicand (dist Spec.origin p) (dist p q) (dist q Spec.origin))%R) /\
     (0 <= getSweepAreaInAU2 path)%R).
Proof.
  split.
  - intros T N path. split.
    + unfold getSweepAreaInAU2. apply sweep_loop_fold.
    + intros Hlen.
      destruct path as [|p [|q rest]]; [reflexivity|reflexivity|simpl in Hlen; lia].
  - intros path.
    split; [apply getSweepAreaInAU2_refines|].
    split; [apply radicand_nonneg|].
    rewrite getSweepAreaInAU2_refines. apply sweptArea_nonneg.
Qed.

(** C7 fails on binary64 numbers: for the two points (1,1) and (-3,-3), in
    line with the sun and on either side of it, the radicand rounds to a
    negative number and the area is NaN, which is not [>= 0]. *)
Lemma sweep_area_not_a_number :
  getSweepAreaInAU2 [fvec 1 1; fvec (-3) (-3)] = nan /\
  ge (getSweepAreaInAU2 [fvec 1 1; fvec (-3) (-3)]) 0%float = false.
Proof. split; vm_compute; reflexivity. Qed.

(** C8, as the code has it.  In exact arithmetic the swept area of a path
    and of the path in reverse order are equal.  On binary64 numbers they
    need not be, and not only in the last digits: there is a path whose
    swept area is NaN while that of the reversed path is 0. *)
Theorem sweep_area_reverse_exact :
  (forall path : list (vec R),
     getSweepAreaInAU2 (rev path) = getSweepAreaInAU2 path) /\
  (exists path : list (vec float),
     getSweepAreaInAU2 path = nan /\
     getSweepAreaInAU2 (rev path) = 0%float).
Proof.
  split.
  - intros path. rewrite !getSweepAreaInAU2_refines. apply sweptArea_rev.
  - exists [fvec 1 1; fvec (-3) (-3)]. split; vm_compute; reflexivity.
Qed.

(** C8 fails on binary64 numbers: the triangle of the sun, (-3,-3) and
    (-3,-2) has area 3/2; the code answers 1.4999999999999989 for the path
    and 1.5000000000000038 for the reversed path. *)
Lemma sweep_area_reverse_differs :
  getSweepAreaInAU2 [fvec (-3) (-3); fvec (-3) (-2)] = 0x1.7fffffffffffbp+0%float /\
  getSweepAreaInAU2 (rev [fvec (-3) (-3); fvec (-3) (-2)]) = 0x1.8000000000011p+0%float /\
  strict_eq (getSweepAreaInAU2 (rev [fvec (-3) (-3); fvec (-3) (-2)]))
            (getSweepAreaInAU2 [fvec (-3) (-3); fvec (-3) (-2)]) = false.
Proof. repeat split; vm_compute; reflexivity. Qed.

(** ** Interpolation along the path *)

(** In exact arithmetic the weight 0 yields the later of the two points, and
    the weight 1 the earlier one: [subindex] weighs [path[index]]. *)
Lemma interpolatePosition_weights (path : list (vec R)) (index : nat) :
  (index < length path)%nat ->
  interpolatePosition path index 0%R = nth_error path ((index + 1) mod length path) /\
  interpolatePosition path index 1%R = nth_error path index.
Proof.
  intros Hi.
  destruct (interpolatePosition_in_range path index 0%R Hi) as (p1 & p2 & E1 & E2 & E0).
  destruct (interpolatePosition_in_range path index 1%R Hi) as (p1' & p2' & E1' & E2' & E).
  rewrite E0, E, E1, E2. rewrite E1 in E1'. rewrite E2 in E2'.
  injection E1' as <-. injection E2' as <-.
  unfold vadd, vmult. js_real. cbn [vx vy]. replace (INR 1) with 1%R by (simpl; lra).
  destruct p1 as [x1 y1], p2 as [x2 y2]. cbn [vx vy].
  split; do 2 f_equal; ring.
Qed.

(** C2 at the failing input: on the path [(0,-1); (1,0)], index 0 and
    weight 0, the function returns [path[1]], not [path[0]] (and with weight
    1 it returns [path[0]]). *)
Theorem interpolatePosition_weight_zero :
  interpolatePosition [fvec 0 (-1); fvec 1 0] 0 0%float = Some (fvec 1 0) /\
  interpolatePosition [fvec 0 (-1); fvec 1 0] 0 1%float = Some (fvec 0 (-1)).
Proof. split; vm_compute; reflexivity. Qed.

(** ** Runs and instances *)

(** C3 fails on the program's numbers.  The planet is released straight at
    the sun with speed 73.75 / 30.  For 29 frames it falls along the axis, so
    the first step's angle is 0; frames 30, 31 and 32 each take it across the
    sun, so the accumulated angle reaches 3 pi at frame 32 and the orbit
    leaves its first-orbit mode with [currSnapSubindex = indexCarryOver =
    pi / 0 = Infinity], which is not below 1. *)
Lemma subindex_infinite_after_radial_launch :
  exists w : world float,
    frames angleBetween_y_axis 32 radial_launch = Normal w /\
    isFirstOrbit (orbit w) = false /\
    currSnapSubindex (orbit w) = infinity /\
    indexCarryOver (orbit w) = infinity /\
    ge (currSnapSubindex (orbit w)) 1%float = true.
Proof.
  eexists. split; [vm_compute; reflexivity|].
  repeat split; vm_compute; reflexivity.
Qed.

(** C3's statement at a snapped orbit at the end of its path, with subindex
    3/4 and carry-over 1/2: the frame wraps, the sum 5/4 overflows, the index
    becomes 1 and the subindex 1/4. *)
Lemma subindex_range_witness :
  isFirstOrbit (orbit snapped_at_end) = false /\
  (0 <= indexCarryOver (orbit snapped_at_end) < 1)%R /\
  (0 <= currSnapSubindex (orbit snapped_at_end) < 1)%R /\
  (0 <= currSnapSubindex (orbit (state_of (draw (fun _ _ => 0%R) true snapped_at_end))) < 1)%R /\
  currSnapIndex (orbit (state_of (draw (fun _ _ => 0%R) true snapped_at_end))) = 1%nat /\
  currSnapSubindex (orbit (state_of (draw (fun _ _ => 0%R) true snapped_at_end)))
  = (3 / 4 + 1 / 2 - 1)%R.
Proof.
  assert (H1 : isFirstOrbit (orbit snapped_at_end) = false) by reflexivity.
  assert (H2 : (0 <= indexCarryOver (orbit snapped_at_end) < 1)%R) by (simpl; lra).
  assert (H3 : (0 <= currSnapSubindex (orbit snapped_at_end) < 1)%R) by (simpl; lra).
  destruct (proj1 (subindex_range (fun _ _ => 0%R) snapped_at_end) H1 H2 H3)
    as (R & _ & _ & _ & W).
  destruct (W eq_refl ltac:(simpl; lra)) as (Wi & Ws).
  repeat split; try assumption; try (simpl; lra).
  - apply R.
  - apply R.
Defined.

(** C6 at a snapped orbit of four points, over three frames. *)
Lemma snapped_frames_touch_only_the_pointer_witness :
  isFirstOrbit (orbit snapped_square) = false /\
  vPlanet (orbit (state_of (frames angleBetween_y_axis 3 snapped_square)))
  = vPlanet (orbit snapped_square) /\
  firstOrbitPath (orbit (state_of (frames angleBetween_y_axis 3 snapped_square)))
  = firstOrbitPath (orbit snapped_square).
Proof.
  split; [reflexivity|].
  destruct (snapped_frames_touch_only_the_pointer angleBetween_y_axis 3 snapped_square
              eq_refl) as (Hv & Hp & _).
  split; assumption.
Defined.

(** C10 at a new orbit with the globals an earlier orbit left: without a
    pass, the call replaces the launch position (0,-1) and the launch
    velocity by the stale values. *)
Lemma updatePlanet_Iterative_needs_a_pass_witness :
  vNext stale_globals = Some (fvec 1 2) /\
  xNext stale_globals = Some (fvec 3 4) /\
  updatePlanet_Iterative 0 G_setting dt_setting stale_globals
  = Normal (set_orbit stale_globals
              (set_xPlanet (set_vPlanet (orbit stale_globals) (fvec 1 2)) (fvec 3 4))) /\
  (1 <= 5)%nat /\
  forall g1 g2 g3 : option (vec float),
    updatePlanet_Iterative 5 G_setting dt_setting (mkWorld g1 g2 g3 (orbit stale_globals))
    = updatePlanet_Iterative 5 G_setting dt_setting stale_globals.
Proof.
  destruct (updatePlanet_Iterative_needs_a_pass G_setting dt_setting stale_globals)
    as (P & _ & _ & Z).
  split; [reflexivity|]. split; [reflexivity|].
  split; [exact (Z (fvec 1 2) (fvec 3 4) eq_refl eq_refl)|].
  split; [repeat constructor|].
  destruct (P 5%nat ltac:(repeat constructor)) as (vN & xN & _ & _ & _ & F).
  exact F.
Defined.

(** C9 at an orbit one frame before closure, every step of a hundredth of a
    radian: the frame closes the orbit, half a step past 2 pi.  And at the
    radial launch, whose first step's angle is 0: the frame that closes the
    orbit leaves a carry-over that is not finite. *)
Lemma carry_over_division_unguarded_witness :
  (isFirstOrbit (orbit about_to_close) = true /\
   firstOrbitPath (orbit about_to_close) <> [] /\
   isFirstOrbit (orbit (state_of (draw angle_of_a_step true about_to_close))) = false /\
   exists q0 q1,
     nth_error (firstOrbitPath (orbit (state_of (draw angle_of_a_step true about_to_close)))) 0
     = Some q0 /\
     nth_error (firstOrbitPath (orbit (state_of (draw angle_of_a_step true about_to_close)))) 1
     = Some q1 /\
     indexCarryOver (orbit (state_of (draw angle_of_a_step true about_to_close)))
     = ((angularChangeThisOrbit (orbit (state_of (draw angle_of_a_step true about_to_close)))
         - two_pi) / Math_abs (angle_of_a_step q1 q0))%js)
  /\
  (isFirstOrbit (orbit radial_frame_31) = true /\
   firstOrbitPath (orbit radial_frame_31) <> [] /\
   isFirstOrbit (orbit (state_of (draw angleBetween_y_axis true radial_frame_31))) = false /\
   PrimFloat.is_finite
     (indexCarryOver (orbit (state_of (draw angleBetween_y_axis true radial_frame_31))))
   = false)
  /\
  ((forall p q, angle_in_range (Math_abs (angle_of_one_radian p q)) = true) /\
   (forall p q, Math_abs (angle_of_one_radian p q) = Math_abs (angle_of_one_radian q p)) /\
   isFirstOrbit (orbit (state_of (frames angle_of_one_radian 6 (launch (fvec 1 0))))) = true /\
   isFirstOrbit (orbit (state_of (frames angle_of_one_radian 7 (launch (fvec 1 0))))) = false /\
   PrimFloat.is_finite
     (indexCarryOver (orbit (state_of (frames angle_of_one_radian 7 (launch (fvec 1 0))))))
   = true)
  /\
  ((forall p q, angle_in_range (Math_abs (angleBetween_y_axis p q)) = true) /\
   (forall p q, Math_abs (angleBetween_y_axis p q) = Math_abs (angleBetween_y_axis q p)) /\
   isFirstOrbit (orbit (state_of (frames angleBetween_y_axis 31
                                    (launch (fvec 0 (73.75 / 30)))))) = true /\
   isFirstOrbit (orbit (state_of (frames angleBetween_y_axis 32
                                    (launch (fvec 0 (73.75 / 30)))))) = false /\
   PrimFloat.is_finite
     (indexCarryOver (orbit (state_of (frames angleBetween_y_axis 32
                                         (launch (fvec 0 (73.75 / 30)))))))
   = false).
Proof.
  destruct carry_over_division_unguarded as (Exact & Binary & Launched).
  split; [|split; [|split]].
  4:{ assert (H3 : isFirstOrbit (orbit (state_of (frames angleBetween_y_axis 31
                                                     (launch (fvec 0 (73.75 / 30))))))
                   = true) by (vm_compute; reflexivity).
      assert (H4 : isFirstOrbit (orbit (state_of (frames angleBetween_y_axis 32
                                                     (launch (fvec 0 (73.75 / 30))))))
                   = false) by (vm_compute; reflexivity).
      split; [exact angleBetween_y_axis_range|].
      split; [exact angleBetween_y_axis_sym|].
      split; [exact H3|]. split; [exact H4|].
      destruct (Launched angleBetween_y_axis (fvec 0 (73.75 / 30)) 31%nat
                  angleBetween_y_axis_range angleBetween_y_axis_sym H3 H4)
        as (q0 & q1 & Q0 & Q1 & _ & _ & F).
      rewrite F. vm_compute in Q0. vm_compute in Q1.
      injection Q0 as <-. injection Q1 as <-.
      vm_compute. reflexivity. }
  3:{ assert (H1 : forall p q, angle_in_range (Math_abs (angle_of_one_radian p q)) = true)
        by (intros p q; vm_compute; reflexivity).
      assert (H2 : forall p q, Math_abs (angle_of_one_radian p q)
                               = Math_abs (angle_of_one_radian q p))
        by (intros p q; reflexivity).
      assert (H3 : isFirstOrbit (orbit (state_of (frames angle_of_one_radian 6
                                                     (launch (fvec 1 0))))) = true)
        by (vm_compute; reflexivity).
      assert (H4 : isFirstOrbit (orbit (state_of (frames angle_of_one_radian 7
                                                     (launch (fvec 1 0))))) = false)
        by (vm_compute; reflexivity).
      split; [exact H1|]. split; [exact H2|]. split; [exact H3|]. split; [exact H4|].
      destruct (Launched angle_of_one_radian (fvec 1 0) 6%nat H1 H2 H3 H4)
        as (q0 & q1 & _ & _ & _ & _ & F).
      rewrite F. vm_compute. reflexivity. }
  - assert (H1 : isFirstOrbit (orbit about_to_close) = true) by reflexivity.
    assert (H2 : firstOrbitPath (orbit about_to_close) <> []) by discriminate.
    assert (H3 : isFirstOrbit (orbit (state_of (draw angle_of_a_step true about_to_close)))
                 = false).
    { destruct (draw_first_orbit_shape angle_of_a_step about_to_close H2)
        as (w1 & w2 & _ & _ & E2 & _ & _ & _ & _ & _ & _ & Ea & Hc).
      unfold draw. rewrite H1, E2. cbn [state_of].
      assert (Hgt : gt (angularChangeThisOrbit (orbit w2)) two_pi = true).
      { rewrite Ea, two_pi_xreal. cbn. apply Rgtb_true.
        rewrite Rabs_right by lra. lra. }
      rewrite Hgt in Hc. apply Hc. }
    split; [exact H1|]. split; [exact H2|]. split; [exact H3|].
    destruct (Exact angle_of_a_step about_to_close H1 H2 H3)
      as (q0 & q1 & Q0 & Q1 & E & _).
    exists q0, q1. repeat split; assumption.
  - assert (H1 : isFirstOrbit (orbit radial_frame_31) = true)
      by (vm_compute; reflexivity).
    assert (H2 : firstOrbitPath (orbit radial_frame_31) <> []).
    { intros E. apply (f_equal (@length _)) in E. vm_compute in E. discriminate E. }
    assert (H3 : isFirstOrbit (orbit (state_of (draw angleBetween_y_axis true radial_frame_31)))
                 = false) by (vm_compute; reflexivity).
    split; [exact H1|]. split; [exact H2|]. split; [exact H3|].
    destruct (Binary angleBetween_y_axis radial_frame_31 H1 H2 H3)
      as (q0 & q1 & Q0 & Q1 & _ & Z).
    apply Z.
    vm_compute in Q0. vm_compute in Q1.
    injection Q0 as <-. injection Q1 as <-.
    vm_compute. reflexivity.
Defined.

(* ================================================================== *)
(** * More properties *)

(** ** The integrator: free motion and mirror symmetry *)

Section IntegratorSymmetry.
Local Open Scope R_scope.

Lemma vec_eq (u v : vec R) : vx u = vx v -> vy u = vy v -> u = v.
Proof. destruct u, v; simpl; intros -> ->; reflexivity. Qed.

(** Without gravity a pass leaves the velocity alone and moves the position
    by [v dt], whatever the running mean position is. *)
Lemma iterative_pass_free (dt : R) (v x : vec R) (st : iter_vars R) :
  it_vNext (iterative_pass 0 dt v x st) = Some v /\
  it_xNext (iterative_pass 0 dt v x st) = Some (vadd x (vmult v dt)).
Proof.
  unfold iterative_pass. cbn [it_vNext it_xNext].
  assert (Ev : vadd v (vmult (vmult (normalize (it_xAvg st)) (- 0 / magSq (it_xAvg st))%js) dt)
               = v).
  { apply vec_eq; unfold vadd, vmult; js_real; cbn [vx vy]; unfold Rdiv; ring. }
  rewrite Ev. split; [reflexivity|].
  f_equal. apply vec_eq; unfold vadd, vmult, vdiv; js_real; cbn [vx vy];
    replace (INR 2) with 2 by (simpl; lra); field.
Qed.

Lemma updatePlanet_Iterative_free (k : nat) (dt : R) (w : world R) :
  exists w',
    updatePlanet_Iterative (S k) 0 dt w = Normal w' /\
    vPlanet (orbit w') = vPlanet (orbit w) /\
    xPlanet (orbit w') = vadd (xPlanet (orbit w)) (vmult (vPlanet (orbit w)) dt) /\
    same_tracking (orbit w) (orbit w').
Proof.
  destruct (updatePlanet_Iterative_last_pass k 0 dt w) as (vN & xN & E1 & E3 & E).
  cbv zeta in E1, E3, E.
  destruct (iterative_pass_free dt (vPlanet (orbit w)) (xPlanet (orbit w))
              (Nat.iter k (iterative_pass 0 dt (vPlanet (orbit w)) (xPlanet (orbit w)))
                 (loop_entry w))) as (F1 & F3).
  rewrite F1 in E1. rewrite F3 in E3. injection E1 as <-. injection E3 as <-.
  eexists. split; [exact E|]. cbn. unfold same_tracking. cbn. tauto.
Qed.

Lemma subdivided_loop_free (k n : nat) (dt : R) (w : world R) :
  exists w',
    subdivided_loop (S k) 0 dt n w = Normal w' /\
    vPlanet (orbit w') = vPlanet (orbit w) /\
    xPlanet (orbit w') = vadd (xPlanet (orbit w)) (vmult (vPlanet (orbit w)) (INR n * dt)) /\
    same_tracking (orbit w) (orbit w').
Proof.
  revert w. induction n as [|n IH]; intros w.
  - exists w. split; [reflexivity|]. split; [reflexivity|]. split.
    + apply vec_eq; unfold vadd, vmult; js_real; cbn [vx vy]; simpl; ring.
    + apply same_tracking_refl.
  - destruct (updatePlanet_Iterative_free k dt w) as (w1 & E1 & V1 & X1 & S1).
    destruct (IH w1) as (w2 & E2 & V2 & X2 & S2).
    exists w2. split; [cbn [subdivided_loop]; rewrite E1; exact E2|].
    split; [congruence|]. split.
    + rewrite X2, V1, X1. rewrite S_INR.
      apply vec_eq; unfold vadd, vmult; js_real; cbn [vx vy]; ring.
    + eapply same_tracking_trans; eassumption.
Qed.
End IntegratorSymmetry.

(** X1.  Without gravity the integrator moves the planet uniformly: with at
    least one pass and at least one subdivision, in exact arithmetic,
    [updatePlanet_Iterative_Subdivided(iterCount, subdivCount, 0, dt)] keeps
    the velocity and moves the position by [v dt], however the step is
    subdivided; nothing else of the orbit changes. *)
Theorem free_motion_is_uniform (iterCount subdivCount : nat) (dt : R) (w : world R) :
  (1 <= iterCount)%nat ->
  (1 <= subdivCount)%nat ->
  exists w',
    updatePlanet_Iterative_Subdivided iterCount subdivCount 0%R dt w = Normal w' /\
    vPlanet (orbit w') = vPlanet (orbit w) /\
    xPlanet (orbit w') = vadd (xPlanet (orbit w)) (vmult (vPlanet (orbit w)) dt) /\
    same_tracking (orbit w) (orbit w').
Proof.
  intros Hi Hs. destruct iterCount as [|k]; [lia|].
  unfold updatePlanet_Iterative_Subdivided.
  destruct (subdivided_loop_free k subdivCount (dt / num_of_nat subdivCount)%js w)
    as (w' & E & V & X & S').
  exists w'. split; [exact E|]. split; [exact V|]. split; [|exact S'].
  rewrite X. f_equal. f_equal. js_real.
  assert (INR subdivCount <> 0%R) by (apply not_0_INR; lia).
  field. assumption.
Qed.

(** X1 at the settings of [draw]: 5 passes, 25 subdivisions. *)
Lemma free_motion_is_uniform_witness :
  (1 <= 5)%nat /\ (1 <= 25)%nat /\
  exists w',
    updatePlanet_Iterative_Subdivided 5 25 0%R (11 / 1000)%R (launch (rvec 1 0)) = Normal w' /\
    vPlanet (orbit w') = rvec 1 0.
Proof.
  split; [repeat constructor|]. split; [repeat constructor|].
  destruct (free_motion_is_uniform 5 25 (11 / 1000)%R (launch (rvec 1 0))
              ltac:(repeat constructor) ltac:(repeat constructor))
    as (w' & E & V & _).
  exists w'. split; [exact E|exact V].
Defined.

Section Mirror.
Local Open Scope R_scope.

Lemma mirror_involutive (u : vec R) : mirror (mirror u) = u.
Proof. apply vec_eq; unfold mirror; js_real; cbn [vx vy]; ring. Qed.

Lemma magSq_mirror (u : vec R) : magSq (mirror u) = magSq u.
Proof. unfold magSq, mirror; js_real; cbn [vx vy]; ring. Qed.

Lemma mag_mirror (u : vec R) : mag (mirror u) = mag u.
Proof. unfold mag. now rewrite magSq_mirror. Qed.

Lemma vmult_mirror (u : vec R) (k : R) : vmult (mirror u) k = mirror (vmult u k).
Proof. apply vec_eq; unfold vmult, mirror; js_real; cbn [vx vy]; ring. Qed.

Lemma vdiv_mirror (u : vec R) (k : R) : vdiv (mirror u) k = mirror (vdiv u k).
Proof. apply vec_eq; unfold vdiv, mirror; js_real; cbn [vx vy]; unfold Rdiv; ring. Qed.

Lemma vadd_mirror (u v : vec R) : vadd (mirror u) (mirror v) = mirror (vadd u v).
Proof. apply vec_eq; unfold vadd, mirror; js_real; cbn [vx vy]; ring. Qed.

Lemma normalize_mirror (u : vec R) : normalize (mirror u) = mirror (normalize u).
Proof.
  unfold normalize. rewrite mag_mirror.
  destruct (strict_eq (mag u) (num_of_nat 0)); [reflexivity|apply vmult_mirror].
Qed.

Lemma iterative_pass_mirror (G dt : R) (v x : vec R) (st : iter_vars R) :
  iterative_pass G dt (mirror v) (mirror x) (mirror_vars st)
  = mirror_vars (iterative_pass G dt v x st).
Proof.
  unfold iterative_pass, mirror_vars. cbn [it_xAvg it_vNext it_vAvg it_xNext option_map].
  rewrite normalize_mirror, magSq_mirror.
  rewrite !vmult_mirror, !vadd_mirror, !vdiv_mirror, !vmult_mirror, !vadd_mirror,
          !vdiv_mirror.
  reflexivity.
Qed.

Lemma passes_mirror (G dt : R) (v x : vec R) (n : nat) (st : iter_vars R) :
  Nat.iter n (iterative_pass G dt (mirror v) (mirror x)) (mirror_vars st)
  = mirror_vars (Nat.iter n (iterative_pass G dt v x) st).
Proof.
  induction n as [|n IH]; [reflexivity|].
  rewrite !Nat.iter_succ, IH. apply iterative_pass_mirror.
Qed.

Lemma updatePlanet_Iterative_mirror (n : nat) (G dt : R) (w : world R) :
  updatePlanet_Iterative n G dt (mirror_world w)
  = mirror_completion (updatePlanet_Iterative n G dt w).
Proof.
  unfold updatePlanet_Iterative. rewrite !for_loop_passes.
  change (loop_entry (mirror_world w)) with (mirror_vars (loop_entry w)).
  change (vPlanet (orbit (mirror_world w))) with (mirror (vPlanet (orbit w))).
  change (xPlanet (orbit (mirror_world w))) with (mirror (xPlanet (orbit w))).
  rewrite passes_mirror.
  set (st := Nat.iter n (iterative_pass G dt (vPlanet (orbit w)) (xPlanet (orbit w)))
               (loop_entry w)).
  unfold commit. cbn [mirror_vars it_vNext it_vAvg it_xNext].
  destruct (it_vNext st) as [vN|]; cbn [option_map]; [|reflexivity].
  destruct (it_xNext st) as [xN|]; cbn [option_map]; reflexivity.
Qed.

Lemma subdivided_loop_mirror (i : nat) (G dt : R) (n : nat) (w : world R) :
  subdivided_loop i G dt n (mirror_world w)
  = mirror_completion (subdivided_loop i G dt n w).
Proof.
  revert w. induction n as [|n IH]; intros w; [reflexivity|].
  cbn [subdivided_loop]. rewrite updatePlanet_Iterative_mirror.
  destruct (updatePlanet_Iterative i G dt w) as [w1|e w1]; cbn [mirror_completion and_then].
  - apply IH.
  - reflexivity.
Qed.

Lemma integrator_mirror_symmetry_lemma
  (iterCount subdivCount : nat) (G dt : R) (w : world R) :
  updatePlanet_Iterative_Subdivided iterCount subdivCount G dt (mirror_world w)
  = mirror_completion (updatePlanet_Iterative_Subdivided iterCount subdivCount G dt w).
Proof. apply subdivided_loop_mirror. Qed.
End Mirror.

(** X2.  The integrator is symmetric in the vertical axis through the sun:
    in exact arithmetic, integrating the mirror image of a state (positions,
    velocities and the integrator's globals reflected) gives the mirror image
    of the result, exception included, for every number of passes and of
    subdivisions. *)
Theorem integrator_mirror_symmetry
  (iterCount subdivCount : nat) (G dt : R) (w : world R) :
  updatePlanet_Iterative_Subdivided iterCount subdivCount G dt (mirror_world w)
  = mirror_completion (updatePlanet_Iterative_Subdivided iterCount subdivCount G dt w).
Proof. apply subdivided_loop_mirror. Qed.

(** ** The tracker: mirror-image launches *)

Section MirrorFrames.
Local Open Scope R_scope.
Variable angleBetween : vec R -> vec R -> R.
Hypothesis angle_mirror :
  forall u v : vec R, Rabs (angleBetween (mirror u) (mirror v)) = Rabs (angleBetween u v).

Lemma element_at_mirror (l : list (vec R)) (i : Z) :
  element_at (map mirror l) i = option_map mirror (element_at l i).
Proof. unfold element_at. destruct (i <? 0)%Z; [reflexivity|apply nth_error_map]. Qed.

Lemma interpolatePosition_mirror (path : list (vec R)) (index : nat) (t : R) :
  interpolatePosition (map mirror path) index t
  = option_map mirror (interpolatePosition path index t).
Proof.
  unfold interpolatePosition. rewrite length_map, !nth_error_map.
  destruct (nth_error path index) as [p1|]; cbn [option_map]; [|reflexivity].
  destruct (nth_error path ((index + 1) mod length path)) as [p2|]; cbn [option_map];
    [|reflexivity].
  now rewrite !vmult_mirror, vadd_mirror.
Qed.

Lemma snap_setup_mirror (w : world R) :
  snap_setup angleBetween (mirror_world w) = mirror_completion (snap_setup angleBetween w).
Proof.
  destruct w as [g1 g2 g3 [x v f acc path idx sub carry]].
  unfold snap_setup, mirror_world, mirror_orbit.
  cbn [orbit firstOrbitPath set_isFirstOrbit xPlanet vPlanet isFirstOrbit
       angularChangeThisOrbit currSnapIndex currSnapSubindex indexCarryOver].
  rewrite !nth_error_map.
  destruct (nth_error path 1) as [q1|]; cbn [option_map]; [|reflexivity].
  destruct (nth_error path 0) as [q0|]; cbn [option_map]; [|reflexivity].
  js_real. rewrite angle_mirror. reflexivity.
Qed.

Lemma draw_first_orbit_mirror (w : world R) :
  draw_first_orbit angleBetween (mirror_world w)
  = mirror_completion (draw_first_orbit angleBetween w).
Proof.
  unfold draw_first_orbit. rewrite integrator_mirror_symmetry_lemma.
  destruct (updatePlanet_Iterative_Subdivided 5 25 G_setting dt_setting w) as [w1|e w1];
    cbn [mirror_completion and_then]; [|reflexivity].
  destruct w1 as [g1 g2 g3 [x v f acc path idx sub carry]].
  cbn [mirror_world mirror_orbit orbit firstOrbitPath xPlanet set_firstOrbitPath
       vPlanet isFirstOrbit angularChangeThisOrbit currSnapIndex currSnapSubindex
       indexCarryOver].
  change (map mirror path ++ [mirror x]) with (map mirror path ++ map mirror [x]).
  rewrite <- map_app, length_map, element_at_mirror.
  destruct (element_at (path ++ [x]) (Z.of_nat (length (path ++ [x])) - 2)) as [prev|];
    cbn [option_map]; [|reflexivity].
  cbn [set_angularChangeThisOrbit angularChangeThisOrbit xPlanet vPlanet isFirstOrbit
       firstOrbitPath currSnapIndex currSnapSubindex indexCarryOver].
  js_real. rewrite angle_mirror.
  destruct (Rgtb (acc + Rabs (angleBetween prev x)) two_pi).
  - rewrite <- snap_setup_mirror. reflexivity.
  - reflexivity.
Qed.

Lemma draw_snapped_mirror (w : world R) :
  draw_snapped (mirror_world w) = mirror_completion (draw_snapped w).
Proof.
  destruct w as [g1 g2 g3 [x v f acc path idx sub carry]].
  unfold draw_snapped, mirror_world, mirror_orbit.
  cbn [orbit firstOrbitPath currSnapIndex currSnapSubindex indexCarryOver
       set_currSnapIndex set_currSnapSubindex xPlanet vPlanet isFirstOrbit
       angularChangeThisOrbit].
  rewrite length_map, interpolatePosition_mirror.
  destruct (interpolatePosition path _ _) as [p|]; reflexivity.
Qed.

Lemma draw_mirror (b : bool) (w : world R) :
  draw angleBetween b (mirror_world w) = mirror_completion (draw angleBetween b w).
Proof.
  unfold draw. destruct b; [|reflexivity].
  change (isFirstOrbit (orbit (mirror_world w))) with (isFirstOrbit (orbit w)).
  destruct (isFirstOrbit (orbit w)); [apply draw_first_orbit_mirror|apply draw_snapped_mirror].
Qed.

Lemma frames_mirror (n : nat) (w : world R) :
  frames angleBetween n (mirror_world w) = mirror_completion (frames angleBetween n w).
Proof.
  induction n as [|n IH]; [reflexivity|].
  cbn [frames]. rewrite IH.
  destruct (frames angleBetween n w) as [w1|e w1]; cbn [mirror_completion and_then];
    [apply draw_mirror|reflexivity].
Qed.
End MirrorFrames.

Section LaunchVelocity.
Local Open Scope R_scope.

Lemma launch_mirror (v : vec R) : launch (mirror v) = mirror_world (launch v).
Proof.
  unfold launch, mirror_world, mirror_orbit, createNewOrbit.
  cbn [orbit vNext vAvg xNext option_map xPlanet vPlanet isFirstOrbit
       angularChangeThisOrbit firstOrbitPath currSnapIndex currSnapSubindex
       indexCarryOver map].
  assert (E : @createVector R (num_of_nat 0) (- num_of_nat 1)%js
              = mirror (@createVector R (num_of_nat 0) (- num_of_nat 1)%js)).
  { apply vec_eq; unfold mirror; js_real; cbn [vx vy]; simpl; ring. }
  rewrite <- E. reflexivity.
Qed.

Lemma inputVelocityToPhys_mirror (vInputMag vInputAngle : R) :
  inputVelocityToPhys vInputMag (180 - vInputAngle)
  = mirror (inputVelocityToPhys vInputMag vInputAngle).
Proof.
  unfold inputVelocityToPhys.
  replace ((180 - vInputAngle) * PI / 180) with (PI - vInputAngle * PI / 180) by field.
  rewrite sin_PI_x, cos_minus, cos_PI, sin_PI.
  apply vec_eq; unfold mirror; js_real; cbn [vx vy]; ring.
Qed.

(** The library's angle changes at most its sign under the reflection. *)
Lemma angleBetween_acos_mirror (u v : vec R) :
  Rabs (angleBetween_acos (mirror u) (mirror v)) = Rabs (angleBetween_acos u v).
Proof.
  unfold angleBetween_acos. rewrite !mag_mirror.
  unfold mirror. cbn [vx vy]. js_real.
  replace (- vx u * - vx v + vy u * vy v) with (vx u * vx v + vy u * vy v) by ring.
  set (angle := acos _).
  assert (Eneg : Rabs (angle * -1) = Rabs angle).
  { replace (angle * -1) with (- angle) by ring. apply Rabs_Ropp. }
  destruct (Rlt_dec (- vx u * vy v - vy u * - vx v) 0);
    destruct (Rlt_dec (vx u * vy v - vy u * vx v) 0);
    rewrite ?Rmult_1_r, ?Eneg; reflexivity.
Qed.
End LaunchVelocity.

(** X3.  Mirror-image launches give mirror-image animations.  In exact
    arithmetic, for every [angleBetween] whose absolute value does not change
    when both vectors are reflected in the vertical axis through the sun:
    launching with the angle [180 - a] instead of [a] gives, frame after
    frame, the reflected state (position, velocity, recorded path), with the
    same accumulated angle, mode, snap index, subindex and carry-over, and
    the same exception if there is one. *)
Theorem mirror_launch_mirror_frames
  (angleBetween : vec R -> vec R -> R) (vInputMag vInputAngle : R) (n : nat) :
  (forall u v : vec R,
     Rabs (angleBetween (mirror u) (mirror v)) = Rabs (angleBetween u v)) ->
  frames angleBetween n (launch (inputVelocityToPhys vInputMag (180 - vInputAngle)))
  = mirror_completion
      (frames angleBetween n (launch (inputVelocityToPhys vInputMag vInputAngle))).
Proof.
  intros Hangle.
  rewrite inputVelocityToPhys_mirror, launch_mirror.
  apply frames_mirror, Hangle.
Qed.

(** X3 with the library's arccosine formula, at the default launch of the
    sketch (25, 30 degrees) and its mirror image (25, 150 degrees). *)
Lemma mirror_launch_mirror_frames_witness :
  (forall u v : vec R,
     Rabs (angleBetween_acos (mirror u) (mirror v)) = Rabs (angleBetween_acos u v)) /\
  frames angleBetween_acos 3 (launch (inputVelocityToPhys 25 (180 - 30)))
  = mirror_completion (frames angleBetween_acos 3 (launch (inputVelocityToPhys 25 30))).
Proof.
  split; [exact angleBetween_acos_mirror|].
  exact (mirror_launch_mirror_frames angleBetween_acos 25 30 3 angleBetween_acos_mirror).
Defined.

(** X4.  The launch speed is the input magnitude over 30, whatever the
    angle: in exact arithmetic [|inputVelocityToPhys()| = |vInputMag| / 30];
    and the launch angles 0 and 90 point along [+x] and along [-y] (away
    from the sun, which is at the origin above the launch point (0,-1)). *)
Theorem launch_speed (vInputMag vInputAngle : R) :
  mag (inputVelocityToPhys vInputMag vInputAngle) = (Rabs vInputMag / 30)%R /\
  inputVelocityToPhys vInputMag 0 = rvec (vInputMag / 30) 0 /\
  inputVelocityToPhys vInputMag 90 = rvec 0 (- (vInputMag / 30)).
Proof.
  split; [|split].
  - unfold mag, magSq, inputVelocityToPhys. js_real. cbn [vx vy].
    set (a := (vInputAngle * PI / 180)%R).
    replace (vInputMag / 30 * cos a * (vInputMag / 30 * cos a)
             + -1 * (vInputMag / 30) * sin a * (-1 * (vInputMag / 30) * sin a))%R
      with (Rsqr (vInputMag / 30) * (Rsqr (sin a) + Rsqr (cos a)))%R
      by (unfold Rsqr; ring).
    rewrite sin2_cos2, Rmult_1_r, sqrt_Rsqr_abs.
    unfold Rdiv. rewrite Rabs_mult, (Rabs_right (/ 30)) by lra. reflexivity.
  - unfold inputVelocityToPhys, rvec.
    replace (0 * PI / 180)%R with 0%R by field.
    rewrite cos_0, sin_0. apply vec_eq; cbn [vx vy]; ring.
  - unfold inputVelocityToPhys, rvec.
    replace (90 * PI / 180)%R with (PI / 2)%R by field.
    rewrite cos_PI2, sin_PI2. apply vec_eq; cbn [vx vy]; ring.
Qed.

Section RadialLaunch.
Local Open Scope R_scope.
Variable angleBetween : vec R -> vec R -> R.
Hypothesis angle_mirror :
  forall u v : vec R, Rabs (angleBetween (mirror u) (mirror v)) = Rabs (angleBetween u v).

Lemma mirror_fixed (u : vec R) : mirror u = u -> vx u = 0.
Proof.
  intros E. apply (f_equal vx) in E. unfold mirror in E. js_real. cbn [vx] in E. lra.
Qed.

Lemma map_mirror_fixed (l : list (vec R)) :
  map mirror l = l -> Forall (fun p => vx p = 0) l.
Proof.
  induction l as [|p l IH]; intros E; [constructor|].
  cbn [map] in E. injection E as Ep El.
  constructor; [apply mirror_fixed, Ep|apply IH, El].
Qed.

Lemma frames_on_the_axis (vLaunch : vec R) (n : nat) :
  vx vLaunch = 0 ->
  let w := state_of (frames angleBetween n (launch vLaunch)) in
  vx (xPlanet (orbit w)) = 0 /\ vx (vPlanet (orbit w)) = 0 /\
  Forall (fun p => vx p = 0) (firstOrbitPath (orbit w)).
Proof.
  intros Hv w.
  assert (Em : mirror vLaunch = vLaunch).
  { apply vec_eq; unfold mirror; js_real; cbn [vx vy]; [lra|reflexivity]. }
  pose proof (frames_mirror angleBetween angle_mirror n (launch vLaunch)) as F.
  rewrite <- launch_mirror, Em in F.
  assert (Ew : mirror_world w = w).
  { unfold w. destruct (frames angleBetween n (launch vLaunch)) as [w1|e w1];
      cbn [mirror_completion state_of] in *; congruence. }
  clearbody w.
  destruct w as [g1 g2 g3 [x v f acc path idx sub carry]].
  unfold mirror_world, mirror_orbit in Ew.
  cbn [orbit xPlanet vPlanet firstOrbitPath isFirstOrbit angularChangeThisOrbit
       currSnapIndex currSnapSubindex indexCarryOver vNext vAvg xNext] in *.
  injection Ew as _ _ _ Ex Ev Ep.
  split; [apply mirror_fixed, Ex|]. split; [apply mirror_fixed, Ev|].
  apply map_mirror_fixed, Ep.
Qed.
End RadialLaunch.

(** X5.  A planet launched along the vertical axis through the sun never
    leaves it.  In exact arithmetic, for every [angleBetween] as in X3: when
    the launch velocity has no horizontal component, after any number of
    frames the position, the velocity and every point of [firstOrbitPath]
    have a zero [x]. *)
Theorem radial_launch_stays_on_the_axis
  (angleBetween : vec R -> vec R -> R) (vLaunch : vec R) (n : nat) :
  (forall u v : vec R,
     Rabs (angleBetween (mirror u) (mirror v)) = Rabs (angleBetween u v)) ->
  vx vLaunch = 0%R ->
  let w := state_of (frames angleBetween n (launch vLaunch)) in
  vx (xPlanet (orbit w)) = 0%R /\ vx (vPlanet (orbit w)) = 0%R /\
  Forall (fun p => vx p = 0%R) (firstOrbitPath (orbit w)).
Proof.
  intros Hangle Hv. apply frames_on_the_axis; assumption.
Qed.

(** X5 at the launch angle 90 with the library's arccosine formula. *)
Lemma radial_launch_stays_on_the_axis_witness :
  (forall u v : vec R,
     Rabs (angleBetween_acos (mirror u) (mirror v)) = Rabs (angleBetween_acos u v)) /\
  vx (inputVelocityToPhys 25 90) = 0%R /\
  vx (xPlanet (orbit (state_of (frames angleBetween_acos 40
                                  (launch (inputVelocityToPhys 25 90)))))) = 0%R.
Proof.
  assert (Hv : vx (inputVelocityToPhys 25 90) = 0%R).
  { unfold inputVelocityToPhys. cbn [vx].
    replace (90 * PI / 180)%R with (PI / 2)%R by field. rewrite cos_PI2. ring. }
  split; [exact angleBetween_acos_mirror|]. split; [exact Hv|].
  exact (proj1 (radial_launch_stays_on_the_axis angleBetween_acos
                  (inputVelocityToPhys 25 90) 40 angleBetween_acos_mirror Hv)).
Defined.

(** ** The sweep meter: time, area of any triangle, sweeps end to end *)

Section SweepFacts.
Local Open Scope R_scope.

Lemma INR_literal (n : nat) : INR n = IZR (Z.of_nat n).
Proof. apply INR_IZR_INZ. Qed.

Lemma dt_setting_real : (dt_setting : R) = 11 / 1000.
Proof. unfold dt_setting. js_real. rewrite !INR_literal. simpl Z.of_nat. reflexivity. Qed.

Lemma getTimeStepsPerDay_real : (getTimeStepsPerDay : R) = 2 * PI / (11 / 1000) / 365.
Proof.
  unfold getTimeStepsPerDay. rewrite dt_setting_real. js_real.
  rewrite !INR_literal. simpl Z.of_nat. reflexivity.
Qed.

Lemma getTimeStepsPerDay_pos : 0 < (getTimeStepsPerDay : R).
Proof.
  rewrite getTimeStepsPerDay_real. pose proof PI_RGT_0.
  apply Rdiv_lt_0_compat; [|lra]. apply Rdiv_lt_0_compat; lra.
Qed.

(** The days one step of the simulation stands for. *)
Lemma days_per_step : 1 / (getTimeStepsPerDay : R) = 365 * (11 / 1000) / (2 * PI).
Proof. rewrite getTimeStepsPerDay_real. pose proof PI_RGT_0. field. lra. Qed.

Lemma getSweepTimeInDays_real (path : list (vec R)) :
  getSweepTimeInDays path = (INR (length path) - 1) * (365 * (11 / 1000) / (2 * PI)).
Proof.
  unfold getSweepTimeInDays. js_real. rewrite <- days_per_step.
  change (INR 1) with 1. pose proof getTimeStepsPerDay_pos. field. lra.
Qed.

(** The area of any triangle, by the coordinates of its points. *)
Lemma heron_radicand_is_cross (p0 p1 p2 : vec R) :
  Spec.heron_radicand (dist p0 p1) (dist p1 p2) (dist p2 p0)
  = Rsqr (((vx p1 - vx p0) * (vy p2 - vy p0) - (vy p1 - vy p0) * (vx p2 - vx p0)) / 2).
Proof.
  pose proof (dist_squared p0 p1) as Ha.
  pose proof (dist_squared p1 p2) as Hb.
  pose proof (dist_squared p2 p0) as Hc.
  set (a := dist p0 p1) in *.
  set (b := dist p1 p2) in *.
  set (c := dist p2 p0) in *.
  replace (Spec.heron_radicand a b c)
    with ((2 * ((a * a) * (b * b) + (b * b) * (c * c) + (c * c) * (a * a))
           - ((a * a) * (a * a) + (b * b) * (b * b) + (c * c) * (c * c))) / 16)
    by (unfold Spec.heron_radicand; field).
  rewrite Ha, Hb, Hc. unfold Rsqr. field.
Qed.

Lemma sweptArea_app (l1 l2 : list (vec R)) (p : vec R) :
  Spec.sweptAreaInAU2 (l1 ++ p :: l2)
  = Spec.sweptAreaInAU2 (l1 ++ [p]) + Spec.sweptAreaInAU2 (p :: l2).
Proof.
  induction l1 as [|a l1 IH].
  - cbn [app]. change (Spec.sweptAreaInAU2 [p]) with 0. lra.
  - destruct l1 as [|b l1].
    + cbn [app].
      destruct l2 as [|q l2].
      * change (Spec.sweptAreaInAU2 [p]) with 0. lra.
      * change (Spec.sweptAreaInAU2 (a :: p :: q :: l2))
          with (Spec.triangle_area a p + Spec.sweptAreaInAU2 (p :: q :: l2)).
        change (Spec.sweptAreaInAU2 [a; p]) with (Spec.triangle_area a p + 0). lra.
    + change (Spec.sweptAreaInAU2 ((a :: b :: l1) ++ p :: l2))
        with (Spec.triangle_area a b + Spec.sweptAreaInAU2 ((b :: l1) ++ p :: l2)).
      change (Spec.sweptAreaInAU2 ((a :: b :: l1) ++ [p]))
        with (Spec.triangle_area a b + Spec.sweptAreaInAU2 ((b :: l1) ++ [p])).
      rewrite IH. lra.
Qed.

Lemma sweptArea_collinear (d : vec R) (path : list (vec R)) :
  Forall (fun p => exists t, p = vmult d t) path ->
  Spec.sweptAreaInAU2 path = 0.
Proof.
  induction path as [|p rest IH]; intros Hall; [reflexivity|].
  destruct rest as [|q rest']; [reflexivity|].
  change (Spec.sweptAreaInAU2 (p :: q :: rest'))
    with (Spec.triangle_area p q + Spec.sweptAreaInAU2 (q :: rest')).
  inversion Hall as [|? ? (t & Ep) Hrest]; subst.
  rewrite (IH Hrest).
  inversion Hrest as [|? ? (t' & Eq) _]; subst.
  rewrite triangle_area_is_half_cross.
  unfold vmult. js_real. cbn [vx vy].
  replace (vx d * t * (vy d * t') - vy d * t * (vx d * t')) with 0 by ring.
  rewrite Rabs_R0. lra.
Qed.
End SweepFacts.

(** X6.  [getSweepTimeInDays] counts the steps between the points of the
    path, 365 days for [2 pi] of simulated time: in exact arithmetic it is
    [(length - 1) * 365 * dt / (2 pi)] with [dt = 0.011].  A path of one point
    takes 0 days, every further point adds the same positive amount, and the
    empty path gets a negative time, minus one step. *)
Theorem sweep_time_counts_steps (path : list (vec R)) (p : vec R) :
  getSweepTimeInDays path
  = ((INR (length path) - 1) * (365 * (11 / 1000) / (2 * PI)))%R /\
  getSweepTimeInDays [p] = 0%R /\
  getSweepTimeInDays (path ++ [p])
  = (getSweepTimeInDays path + 365 * (11 / 1000) / (2 * PI))%R /\
  (0 < 365 * (11 / 1000) / (2 * PI))%R /\
  (getSweepTimeInDays (@nil (vec R)) < 0)%R.
Proof.
  pose proof PI_RGT_0 as Hpi.
  assert (Hstep : (0 < 365 * (11 / 1000) / (2 * PI))%R)
    by (apply Rdiv_lt_0_compat; lra).
  split; [apply getSweepTimeInDays_real|].
  split; [rewrite getSweepTimeInDays_real; cbn [length]; change (INR 1) with 1%R; lra|].
  split.
  - rewrite !getSweepTimeInDays_real, length_app. cbn [length].
    rewrite plus_INR. change (INR 1) with 1%R. lra.
  - split; [exact Hstep|].
    rewrite getSweepTimeInDays_real. cbn [length]. change (INR 0) with 0%R. lra.
Qed.

(** X7.  [getTriangleArea] is the area of the triangle, for any three
    points: in exact arithmetic Heron's formula on the three distances equals
    half the absolute value of the cross product of two edge vectors; it does
    not depend on the order of the points and is 0 exactly when the three
    points are in line. *)
Theorem getTriangleArea_is_the_area (p0 p1 p2 : vec R) :
  let cross := ((vx p1 - vx p0) * (vy p2 - vy p0)
                - (vy p1 - vy p0) * (vx p2 - vx p0))%R in
  getTriangleArea p0 p1 p2 = (Rabs cross / 2)%R /\
  getTriangleArea p1 p2 p0 = getTriangleArea p0 p1 p2 /\
  getTriangleArea p1 p0 p2 = getTriangleArea p0 p1 p2 /\
  (getTriangleArea p0 p1 p2 = 0%R <-> cross = 0%R).
Proof.
  intros cross.
  assert (A : forall a b c : vec R,
             getTriangleArea a b c
             = (Rabs ((vx b - vx a) * (vy c - vy a) - (vy b - vy a) * (vx c - vx a)) / 2)%R).
  { intros a b c.
    assert (E : getTriangleArea a b c
                = R_sqrt.sqrt (Spec.heron_radicand (dist a b) (dist b c) (dist c a))).
    { unfold getTriangleArea, Spec.heron_radicand. js_real.
      replace (INR 2) with 2%R by (simpl; lra). reflexivity. }
    rewrite E, heron_radicand_is_cross, sqrt_Rsqr_abs.
    unfold Rdiv. rewrite Rabs_mult, (Rabs_right (/ 2)) by lra. reflexivity. }
  split; [apply A|]. split; [|split].
  - rewrite !A. f_equal.
    replace ((vx p2 - vx p1) * (vy p0 - vy p1) - (vy p2 - vy p1) * (vx p0 - vx p1))%R
      with cross by (unfold cross; ring). reflexivity.
  - rewrite !A. f_equal.
    replace ((vx p0 - vx p1) * (vy p2 - vy p1) - (vy p0 - vy p1) * (vx p2 - vx p1))%R
      with (- cross)%R by (unfold cross; ring). apply Rabs_Ropp.
  - rewrite A. fold cross. split.
    + intros E. destruct (Req_dec cross 0) as [|N]; [assumption|].
      pose proof (Rabs_pos_lt cross N). lra.
    + intros ->. rewrite Rabs_R0. lra.
Qed.

(** X8.  Sweeps laid end to end add up: in exact arithmetic the swept area
    of a path is the area up to any of its points plus the area from that
    point on. *)
Theorem sweep_areas_add_up (before after : list (vec R)) (p : vec R) :
  getSweepAreaInAU2 (before ++ p :: after)
  = (getSweepAreaInAU2 (before ++ [p]) + getSweepAreaInAU2 (p :: after))%R.
Proof. rewrite !getSweepAreaInAU2_refines. apply sweptArea_app. Qed.

(** X9.  A path along a line through the sun sweeps no area: in exact
    arithmetic, when every point of the path is a multiple of one vector,
    [getSweepAreaInAU2] is 0. *)
Theorem radial_path_sweeps_nothing (d : vec R) (path : list (vec R)) :
  Forall (fun p => exists t : R, p = vmult d t) path ->
  getSweepAreaInAU2 path = 0%R.
Proof. intros Hall. rewrite getSweepAreaInAU2_refines. apply (sweptArea_collinear d), Hall. Qed.

(** X9 on three points of the vertical axis, two below the sun and one
    above. *)
Lemma radial_path_sweeps_nothing_witness :
  Forall (fun p => exists t : R, p = vmult (rvec 0 1) t)
         [rvec 0 (-1); rvec 0 (-1 / 2); rvec 0 (1 / 4)] /\
  getSweepAreaInAU2 [rvec 0 (-1); rvec 0 (-1 / 2); rvec 0 (1 / 4)] = 0%R.
Proof.
  assert (H : Forall (fun p => exists t : R, p = vmult (rvec 0 1) t)
                     [rvec 0 (-1); rvec 0 (-1 / 2); rvec 0 (1 / 4)]).
  { repeat constructor;
      [exists (-1)%R|exists (-1 / 2)%R|exists (1 / 4)%R];
      apply vec_eq; unfold vmult, rvec; js_real; cbn [vx vy]; lra. }
  split; [exact H|].
  exact (radial_path_sweeps_nothing (rvec 0 1) _ H).
Defined.

(** ** Display coordinates *)

Section DisplayFacts.
Local Open Scope R_scope.
Variables width height : R.

Lemma getDisplayPerPhys_real : (getDisplayPerPhys : R) = 180.
Proof.
  unfold getDisplayPerPhys, defaultAUDist, zoom_setting. js_real.
  rewrite !INR_literal. simpl Z.of_nat. field.
Qed.

Lemma physToDisplay_distance (a b : vec R) :
  dist (physToDisplay width height a) (physToDisplay width height b) = 180 * dist a b.
Proof.
  unfold dist, mag, magSq, physToDisplay, vsub, vadd, vmult.
  rewrite getDisplayPerPhys_real. js_real. cbn [vx vy].
  replace ((vx b * 180 + vx (getDisplayCenter width height)
            - (vx a * 180 + vx (getDisplayCenter width height)))
           * (vx b * 180 + vx (getDisplayCenter width height)
              - (vx a * 180 + vx (getDisplayCenter width height)))
           + (vy b * 180 + vy (getDisplayCenter width height)
              - (vy a * 180 + vy (getDisplayCenter width height)))
             * (vy b * 180 + vy (getDisplayCenter width height)
                - (vy a * 180 + vy (getDisplayCenter width height))))
    with (Rsqr 180 * ((vx b - vx a) * (vx b - vx a) + (vy b - vy a) * (vy b - vy a)))
    by (unfold Rsqr; ring).
  rewrite sqrt_mult;
    [|apply Rle_0_sqr
     |apply Rplus_le_le_0_compat;
        [apply (Rle_0_sqr (vx b - vx a))|apply (Rle_0_sqr (vy b - vy a))]].
  rewrite sqrt_Rsqr_abs, Rabs_right by lra. reflexivity.
Qed.

Lemma physToDisplay_inverse (a : vec R) :
  vdiv (vsub (physToDisplay width height a) (getDisplayCenter width height))
       getDisplayPerPhys = a.
Proof.
  unfold physToDisplay, vdiv, vsub, vadd, vmult.
  rewrite getDisplayPerPhys_real. js_real.
  apply vec_eq; cbn [vx vy]; field.
Qed.
End DisplayFacts.

(** X10.  [physToDisplay] draws to scale: in exact arithmetic, at the
    settings [defaultAUDist = 150] and [zoom = 1.2], the distance of two
    display points is 180 times the distance of the physical points, for
    every canvas size, and the sun (the origin) is drawn at the centre of the
    canvas. *)
Theorem physToDisplay_to_scale (width height : R) (a b : vec R) :
  dist (physToDisplay width height a) (physToDisplay width height b)
  = (180 * dist a b)%R /\
  physToDisplay width height (rvec 0 0) = rvec (width / 2) (height / 2).
Proof.
  split; [apply physToDisplay_distance|].
  unfold physToDisplay, getDisplayCenter, vadd, vmult, rvec. js_real.
  replace (INR 2) with 2%R by (simpl; lra).
  apply vec_eq; cbn [vx vy]; ring.
Qed.

(** X11.  [displayToPhys] is not the inverse of [physToDisplay] it is
    written to be.  It never reads its argument: with no global named
    [xyPhys], as in this program, every call throws a ReferenceError; and if
    such a global held a display point, the call would return the physical
    point of that global (in exact arithmetic), whatever the argument. *)
Theorem displayToPhys_ignores_its_argument
  (width height : R) (xyDisplay xyDisplay' a : vec R) (g : option (vec R)) :
  displayToPhys width height None xyDisplay = Thrown ReferenceError /\
  displayToPhys width height g xyDisplay = displayToPhys width height g xyDisplay' /\
  displayToPhys width height (Some (physToDisplay width height a)) xyDisplay = Returned a.
Proof.
  split; [reflexivity|]. split; [reflexivity|].
  unfold displayToPhys. f_equal. apply physToDisplay_inverse.
Qed.

(** ** The reference circle *)

Section ReferenceCircle.
Local Open Scope R_scope.

Lemma for_loop_collect {A : Type} (f : nat -> A) (n i : nat) (acc : list A) :
  for_loop (fun i pts => pts ++ [f i]) n i acc = acc ++ map f (seq i n).
Proof.
  revert i acc. induction n as [|n IH]; intros i acc.
  - cbn. now rewrite app_nil_r.
  - cbn [for_loop seq map]. rewrite IH, <- app_assoc. reflexivity.
Qed.

Lemma refCirclePointsPhys_points :
  refCirclePointsPhys
  = map (fun i => createVector (cos (2 * PI / INR 300 * INR i))
                               (sin (2 * PI / INR 300 * INR i))) (seq 0 300)
    ++ [createVector (cos (2 * PI / INR 300 * INR 0)) (sin (2 * PI / INR 300 * INR 0))].
Proof.
  unfold refCirclePointsPhys. cbv zeta. rewrite for_loop_collect. cbn [app].
  change (seq 0 300) with (0%nat :: seq 1 299). cbn [map]. reflexivity.
Qed.

Lemma on_unit_circle (a : R) : mag (createVector (cos a) (sin a)) = 1.
Proof.
  unfold mag, magSq. js_real. cbn [vx vy].
  replace (cos a * cos a + sin a * sin a) with (Rsqr (sin a) + Rsqr (cos a))
    by (unfold Rsqr; ring).
  rewrite sin2_cos2. apply sqrt_1.
Qed.
End ReferenceCircle.

(** X12.  The reference circle is the circle of radius 1 around the sun,
    closed: [drawReferenceCircle] joins 301 points, every one at distance 1
    from the origin (in exact arithmetic), the first being (1,0) and the last
    the first again. *)
Theorem reference_circle_is_the_unit_circle :
  length refCirclePointsPhys = 301%nat /\
  Forall (fun p => mag p = 1%R) refCirclePointsPhys /\
  nth_error refCirclePointsPhys 0 = Some (rvec 1 0) /\
  nth_error refCirclePointsPhys 300 = nth_error refCirclePointsPhys 0.
Proof.
  rewrite refCirclePointsPhys_points.
  assert (E0 : createVector (cos (2 * PI / INR 300 * INR 0)) (sin (2 * PI / INR 300 * INR 0))
               = rvec 1 0).
  { change (INR 0) with 0%R. rewrite Rmult_0_r, cos_0, sin_0. reflexivity. }
  split; [|split; [|split]].
  - rewrite length_app, length_map, length_seq. reflexivity.
  - apply Forall_app. split.
    + apply Forall_map, Forall_forall. intros i _. apply on_unit_circle.
    + constructor; [apply on_unit_circle|constructor].
  - change (seq 0 300) with (0%nat :: seq 1 299). cbn [map app nth_error].
    now rewrite E0.
  - rewrite nth_error_app2 by (rewrite length_map, length_seq; apply Nat.le_refl).
    rewrite length_map, length_seq, Nat.sub_diag.
    change (seq 0 300) with (0%nat :: seq 1 299). reflexivity.
Qed.

(** ** Day markers along the path *)

Section Markers.
Local Open Scope R_scope.

Lemma step_days_bounds : 0 < 1 / (getTimeStepsPerDay : R) < 7.
Proof.
  rewrite days_per_step. pose proof PI2_3_2 as Hpi. pose proof PI_RGT_0 as Hpos.
  split.
  - apply Rdiv_lt_0_compat; lra.
  - apply (Rmult_lt_reg_r (2 * PI)); [lra|].
    unfold Rdiv. rewrite Rmult_assoc, Rinv_l by lra. lra.
Qed.

Lemma no_integer_between (cs cb : nat) :
  -5 < 5 * INR cb - INR cs -> 5 * INR cb - INR cs < -4 -> False.
Proof.
  rewrite !INR_literal.
  replace (5 * IZR (Z.of_nat cb) - IZR (Z.of_nat cs))
    with (IZR (5 * Z.of_nat cb - Z.of_nat cs))
    by (rewrite minus_IZR, mult_IZR; reflexivity).
  intros H1 H2. apply lt_IZR in H1. apply lt_IZR in H2. lia.
Qed.

Lemma filter_length_snoc {A : Type} (f : A -> bool) (l : list A) (a : A) :
  length (filter f (l ++ [a])) = (length (filter f l) + if f a then 1 else 0)%nat.
Proof.
  rewrite filter_app, length_app. cbn [filter]. destruct (f a); reflexivity.
Qed.

Lemma marker_pass_ok (n : nat) (st : @marker_vars R) :
  markers_ok n st -> markers_ok (S n) (marker_pass st).
Proof.
  pose proof step_days_bounds as (Hd0 & Hd7).
  unfold markers_ok. cbv zeta.
  intros (Hlen & Hs & Hsr & Hb & Hbr & Hall).
  unfold marker_pass. cbv zeta.
  cbn [circles smallCircleDayTracker bigCircleDayTracker]. js_real.
  replace (INR 7) with 7 by (rewrite INR_literal; reflexivity).
  replace (INR 5) with 5 by (rewrite INR_literal; reflexivity).
  replace (INR 1) with 1 by reflexivity.
  set (d := 1 / getTimeStepsPerDay) in *.
  set (s := smallCircleDayTracker st) in *.
  set (b := bigCircleDayTracker st) in *.
  rewrite !filter_length_snoc, !plus_INR, S_INR, length_app. cbn [fst snd length].
  set (cs := INR (length (filter fst (circles st)))) in *.
  set (cb := INR (length (filter snd (circles st)))) in *.
  assert (Hint : b + d >= 7 * 5 -> s + d >= 7).
  { intros Hbig.
    destruct (Rge_dec (s + d) 7) as [|Hsmall]; [assumption|exfalso].
    apply (no_integer_between (length (filter fst (circles st)))
                              (length (filter snd (circles st)))); fold cs cb; lra. }
  destruct (Rgeb (s + d) 7) eqn:Esmall; destruct (Rgeb (b + d) (7 * 5)) eqn:Ebig;
    try (apply Rgeb_true in Esmall); try (apply Rgeb_true in Ebig);
    try (assert (~ s + d >= 7) by (intros G; apply Rgeb_true in G; congruence));
    try (assert (~ b + d >= 7 * 5) by (intros G; apply Rgeb_true in G; congruence));
    change (INR 1) with 1; change (INR 0) with 0;
    (split; [lia|]); (split; [lra|]); (split; [lra|]); (split; [lra|]);
    (split; [lra|]);
    apply Forall_app; (split; [exact Hall|]); constructor; try constructor;
    cbn [fst snd]; intros E; try reflexivity; try discriminate E.
  exfalso. apply Hint in Ebig. contradiction.
Qed.

Lemma markers_ok_after (n : nat) :
  markers_ok n (Nat.iter n marker_pass
                  {| smallCircleDayTracker := 0; bigCircleDayTracker := 0; circles := [] |}).
Proof.
  induction n as [|n IH].
  - unfold markers_ok. cbn. repeat split; try lra; try constructor.
  - rewrite Nat.iter_succ. apply marker_pass_ok, IH.
Qed.
End Markers.

(** X13.  The circles of [drawPlanetPath] mark the days of the path.  Each
    point adds one step's days, [365 dt / (2 pi)], to both trackers; in exact
    arithmetic, among the [n] points of a path the number [s] of small
    circles is the whole number of weeks in [n] steps ([7 s <= n days-per-step
    < 7 (s + 1)]), the number [b] of big circles the whole number of 35-day
    periods, and every point that gets a big circle gets a small one too. *)
Theorem circles_count_the_days (path : list (vec R)) :
  let st := drawPlanetPath_circles path in
  let days := (INR (length path) * (365 * (11 / 1000) / (2 * PI)))%R in
  let small := INR (length (filter fst (circles st))) in
  let big := INR (length (filter snd (circles st))) in
  length (circles st) = length path /\
  (7 * small <= days < 7 * (small + 1))%R /\
  (35 * big <= days < 35 * (big + 1))%R /\
  Forall (fun m => snd m = true -> fst m = true) (circles st).
Proof.
  intros st days small big.
  pose proof (markers_ok_after (length path)) as M.
  assert (Est : st = Nat.iter (length path) marker_pass
                      {| smallCircleDayTracker := 0%R; bigCircleDayTracker := 0%R;
                         circles := [] |}).
  { unfold st, drawPlanetPath_circles. rewrite for_loop_passes. reflexivity. }
  rewrite <- Est in M. unfold markers_ok in M. cbv zeta in M.
  rewrite days_per_step in M. fold days small big in M.
  destruct M as (Hlen & Hs & Hsr & Hb & Hbr & Hall).
  split; [exact Hlen|]. split; [lra|]. split; [lra|exact Hall].
Qed.

(** ** The recorded path along a run *)

Section PathRecord.
Context {T : Type} `{JSNumber T}.
Variable angleBetween : vec T -> vec T -> T.

Lemma frames_add (n k : nat) (w : world T) :
  frames angleBetween (n + k) w
  = and_then (frames angleBetween n w) (frames angleBetween k).
Proof.
  induction k as [|k IH].
  - rewrite Nat.add_0_r. destruct (frames angleBetween n w); reflexivity.
  - rewrite Nat.add_succ_r. cbn [frames]. rewrite IH.
    destruct (frames angleBetween n w); reflexivity.
Qed.

(** One frame keeps the path or appends the new position to it. *)
Lemma draw_path_grows (w : world T) :
  well_formed w ->
  exists w',
    draw angleBetween true w = Normal w' /\ well_formed w' /\
    (isFirstOrbit (orbit w) = true ->
     firstOrbitPath (orbit w') = firstOrbitPath (orbit w) ++ [xPlanet (orbit w')]) /\
    (isFirstOrbit (orbit w) = false ->
     isFirstOrbit (orbit w') = false /\
     firstOrbitPath (orbit w') = firstOrbitPath (orbit w)).
Proof.
  intros Hw.
  destruct (draw_well_formed angleBetween w Hw) as (w' & E & Hw').
  exists w'. split; [exact E|]. split; [exact Hw'|].
  destruct (isFirstOrbit (orbit w)) eqn:Hmode.
  - split; [intros _|intros Hd; discriminate Hd].
    destruct (draw_first_orbit_shape angleBetween w (proj1 Hw))
      as (w1 & w2 & _ & _ & E2 & _ & _ & _ & Ex & _ & Ep & _).
    assert (w2 = w') as ->.
    { unfold draw in E. rewrite Hmode in E. congruence. }
    rewrite Ep, Ex. reflexivity.
  - split; [intros Hd; discriminate Hd|intros _].
    pose proof (draw_snapped_replay_only angleBetween w Hmode) as R.
    rewrite E in R. cbn [state_of] in R.
    destruct R as (_ & _ & _ & _ & Em & _ & Ep & _).
    split; congruence.
Qed.

Lemma frames_path_grows (k : nat) (w : world T) :
  well_formed w ->
  exists w' ext,
    frames angleBetween k w = Normal w' /\ well_formed w' /\
    firstOrbitPath (orbit w') = firstOrbitPath (orbit w) ++ ext /\
    (isFirstOrbit (orbit w) = false -> isFirstOrbit (orbit w') = false /\ ext = []).
Proof.
  intros Hw. induction k as [|k (w1 & ext & E1 & W1 & P1 & S1)].
  - exists w, []. rewrite app_nil_r.
    split; [reflexivity|]. split; [exact Hw|]. split; [reflexivity|].
    intros Hs. split; [exact Hs|reflexivity].
  - destruct (draw_path_grows w1 W1) as (w2 & E2 & W2 & G2 & K2).
    cbn [frames]. rewrite E1. cbn [and_then].
    destruct (isFirstOrbit (orbit w1)) eqn:Hmode.
    + exists w2, (ext ++ [xPlanet (orbit w2)]).
      split; [exact E2|]. split; [exact W2|]. split.
      * rewrite (G2 eq_refl), P1, app_assoc. reflexivity.
      * intros Hs. destruct (S1 Hs) as (F & _). congruence.
    + destruct (K2 eq_refl) as (M2 & Q2).
      exists w2, ext. split; [exact E2|]. split; [exact W2|]. split.
      * rewrite Q2. exact P1.
      * intros Hs. split; [exact M2|]. apply S1, Hs.
Qed.

Lemma frames_of_a_launch (v : vec T) (n : nat) :
  exists w,
    frames angleBetween n (launch v) = Normal w /\ well_formed w /\
    (length (firstOrbitPath (orbit w)) <= n + 1)%nat /\
    (isFirstOrbit (orbit w) = true ->
     length (firstOrbitPath (orbit w)) = (n + 1)%nat /\
     last (firstOrbitPath (orbit w)) (xPlanet (orbit w)) = xPlanet (orbit w)).
Proof.
  induction n as [|n (w1 & E1 & W1 & L1 & F1)].
  - exists (launch v). split; [reflexivity|]. split; [apply launch_well_formed|].
    split; [simpl; lia|]. intros _. split; reflexivity.
  - destruct (draw_path_grows w1 W1) as (w2 & E2 & W2 & G2 & K2).
    exists w2. cbn [frames]. rewrite E1. cbn [and_then].
    split; [exact E2|]. split; [exact W2|].
    destruct (isFirstOrbit (orbit w1)) eqn:Hmode.
    + destruct (F1 eq_refl) as (Len & _).
      rewrite (G2 eq_refl), length_app, Len. cbn [length].
      split; [lia|]. intros _. split; [lia|]. apply last_last.
    + destruct (K2 eq_refl) as (M2 & Q2). rewrite Q2.
      split; [lia|]. intros Hd. congruence.
Qed.
End PathRecord.

(** X14.  The path a launched orbit records, for every number type and
    every [angleBetween].  No frame throws.  The path starts with the launch
    position [(0, -1)]; as long as the orbit is in its first-orbit mode after
    [n] frames the path holds [n + 1] points, the last being the planet's
    position; and whatever follows only appends to it, and appends nothing
    once the orbit is snapped. *)
Theorem path_records_the_first_orbit {T : Type} `{JSNumber T}
    (angleBetween : vec T -> vec T -> T) (v : vec T) (n k : nat) :
  exists w w' ext,
    frames angleBetween n (launch v) = Normal w /\
    frames angleBetween (n + k) (launch v) = Normal w' /\
    nth_error (firstOrbitPath (orbit w)) 0
    = Some (createVector (num_of_nat 0) (- num_of_nat 1)%js) /\
    (length (firstOrbitPath (orbit w)) <= n + 1)%nat /\
    (isFirstOrbit (orbit w) = true ->
     length (firstOrbitPath (orbit w)) = (n + 1)%nat /\
     last (firstOrbitPath (orbit w)) (xPlanet (orbit w)) = xPlanet (orbit w)) /\
    firstOrbitPath (orbit w') = firstOrbitPath (orbit w) ++ ext /\
    (isFirstOrbit (orbit w) = false -> isFirstOrbit (orbit w') = false /\ ext = []).
Proof.
  destruct (frames_of_a_launch angleBetween v n) as (w & E & W & L & F).
  destruct (frames_path_grows angleBetween k w W) as (w' & ext & E' & _ & P & S).
  destruct (frames_path_grows angleBetween n (launch v) (launch_well_formed v))
    as (w0 & ext0 & E0 & _ & P0 & _).
  assert (w0 = w) as -> by congruence.
  exists w, w', ext.
  split; [exact E|]. split; [rewrite frames_add, E; exact E'|].
  split; [rewrite P0; reflexivity|].
  split; [exact L|]. split; [exact F|]. split; [exact P|exact S].
Qed.

(** ** The page *)

Section PageFacts.
Context {T : Type} `{JSNumber T}.
Variable angleBetween : vec T -> vec T -> T.
Variables width height : T.

Lemma sweep_label_position_throws (sweepPath : list (vec T)) (e : js_error) :
  sweep_label_position width height sweepPath = Thrown e ->
  e = TypeError /\ sweepPath = [].
Proof.
  unfold sweep_label_position.
  destruct (nth_error sweepPath (length sweepPath / 2)) eqn:E; [discriminate|].
  intros Q. split; [congruence|].
  apply nth_error_None in E.
  destruct sweepPath as [|a l]; [reflexivity|exfalso].
  pose proof (Nat.div_lt (length (a :: l)) 2). simpl in *. lia.
Qed.

Lemma drawSweeps_from_throws (all : list (list (vec T))) :
  In [] all -> forall i, drawSweeps_from width height i all = Thrown TypeError.
Proof.
  induction all as [|sweepPath rest IH]; intros Hin i; [destruct Hin|].
  cbn [drawSweeps_from].
  destruct (sweep_label_position width height sweepPath) as [d|e] eqn:E.
  - destruct Hin as [->|Hin]; [discriminate E|].
    rewrite (IH Hin). reflexivity.
  - apply sweep_label_position_throws in E. destruct E as (-> & _). reflexivity.
Qed.

Lemma drawSweeps_from_returns (all : list (list (vec T))) :
  ~ In [] all -> forall i,
  exists labels,
    drawSweeps_from width height i all = Returned labels /\
    length labels = length all /\
    forall k sweepPath,
      nth_error all k = Some sweepPath ->
      exists l,
        nth_error labels k = Some l /\
        label_number l = (i + k + 1)%nat /\
        sweepDays l = getSweepTimeInDays sweepPath /\
        sweepArea l = getSweepAreaInAU2 sweepPath.
Proof.
  induction all as [|sweepPath rest IH]; intros Hin i.
  - exists []. split; [reflexivity|]. split; [reflexivity|].
    intros [|k] s Q; discriminate Q.
  - cbn [drawSweeps_from].
    destruct (sweep_label_position width height sweepPath) as [d|e] eqn:E.
    + destruct (IH (fun F => Hin (or_intror F)) (S i)) as (labels & -> & Len & Each).
      eexists. split; [reflexivity|]. split; [simpl; lia|].
      intros [|k] s Q; cbn [nth_error] in *.
      * injection Q as <-. eexists. split; [reflexivity|]. cbn.
        repeat split. lia.
      * destruct (Each k s Q) as (l & Ql & Nl & Dl & Al).
        exists l. split; [exact Ql|]. split; [lia|]. split; assumption.
    + apply sweep_label_position_throws in E. destruct E as (_ & ->).
      exfalso. apply Hin. left. reflexivity.
Qed.

Lemma page_of_paint (p : page) : page_of (paint width height p) = p.
Proof. unfold paint. destruct (drawSweeps width height (sweeps p)); reflexivity. Qed.

Lemma paint_throws (p : page) :
  In [] (sweeps p) -> paint width height p = Aborted TypeError p.
Proof.
  intros Hin. unfold paint, drawSweeps.
  rewrite (drawSweeps_from_throws _ Hin). reflexivity.
Qed.

(** A frame of a tidy page: the orbit steps without exception, and the new
    position joins the sweep in progress. *)
Lemma frame_of_a_tidy_page (p : page) :
  tidy p ->
  exists w',
    draw angleBetween (stateIsOrbiting p) (sim p) = Normal w' /\
    well_formed w' /\
    (stateIsOrbiting p = false -> w' = sim p) /\
    draw_page angleBetween width height p
    = paint width height
        (if stateIsOrbiting p && stateIsSweeping p
         then set_sweeps (set_sim p w')
                (removelast (sweeps p)
                 ++ [last (sweeps p) [] ++ [xPlanet (orbit w')]])
         else set_sim p w').
Proof.
  intros (_ & Hw & _ & Hs & _).
  unfold draw_page.
  destruct (stateIsOrbiting p) eqn:EO.
  - destruct (draw_well_formed angleBetween (sim p) Hw) as (w' & E & Hw').
    exists w'. rewrite E. split; [reflexivity|]. split; [exact Hw'|].
    split; [intros Hd; discriminate Hd|].
    cbn [set_sim stateIsOrbiting stateIsSweeping sweeps sim]. rewrite EO.
    destruct (stateIsSweeping p) eqn:ES; cbn [andb]; [|reflexivity].
    destruct (Hs eq_refl) as (_ & Hne & _).
    unfold push_to_last_sweep.
    destruct (sweeps p) as [|s0 rest]; [congruence|]. reflexivity.
  - exists (sim p). unfold draw. split; [reflexivity|]. split; [exact Hw|].
    split; [reflexivity|].
    cbn [set_sim stateIsOrbiting stateIsSweeping sweeps sim]. rewrite EO.
    reflexivity.
Qed.

Lemma removelast_snoc_length {A : Type} (l : list A) (x : A) :
  l <> [] -> length (removelast l ++ [x]) = length l.
Proof.
  intros Hl. destruct (exists_last Hl) as (l' & a & ->).
  rewrite removelast_last, !length_app. reflexivity.
Qed.

Lemma frame_keeps_tidy (p : page) :
  tidy p -> tidy (page_of (draw_page angleBetween width height p)).
Proof.
  intros Ht.
  destruct (frame_of_a_tidy_page p Ht) as (w' & _ & Hw' & _ & ->).
  rewrite page_of_paint.
  destruct Ht as (Hl & Hw & Hn & Hs & Hns & Ho & Hb).
  destruct (stateIsOrbiting p && stateIsSweeping p) eqn:EOS.
  - apply andb_prop in EOS. destruct EOS as (EO & ES).
    destruct (Hs ES) as (_ & Hne & Hc & Hd & Hi).
    unfold tidy.
    cbn [set_sweeps set_sim programLocked sim sweeps stateIsSweeping stateIsOrbiting
         clearSweepsButton sweepButton orbitButton].
    rewrite (removelast_snoc_length (sweeps p) _ Hne), ES, EO.
    split; [exact Hl|]. split; [exact Hw'|]. split; [exact Hn|].
    split.
    { intros _. split; [reflexivity|]. split; [|split; [exact Hc|split; assumption]].
      destruct (removelast (sweeps p)); discriminate. }
    split; [intros Hd'; discriminate Hd'|].
    split; [intros Hd'; discriminate Hd'|].
    rewrite EO in Hb. exact Hb.
  - unfold tidy.
    cbn [set_sim programLocked sim sweeps stateIsSweeping stateIsOrbiting
         clearSweepsButton sweepButton orbitButton].
    split; [exact Hl|]. split; [exact Hw'|]. split; [exact Hn|].
    split; [exact Hs|]. split; [exact Hns|]. split; [exact Ho|exact Hb].
Qed.

Lemma createNewOrbit_well_formed (w : world T) (input : vec T) :
  well_formed (set_orbit w (createNewOrbit input)).
Proof. split; [discriminate|]. simpl; discriminate. Qed.

(** Stopping an orbit with its button leaves a tidy page, whatever the page
    was. *)
Lemma stop_makes_tidy (p : page) (input : vec T) :
  programLocked p = false -> stateIsOrbiting p = true ->
  tidy (button_toggleOrbit input p).
Proof.
  intros Hl Ho. unfold button_toggleOrbit. rewrite Hl.
  cbn [set_programLocked stateIsOrbiting stateIsSweeping]. rewrite Ho.
  set (q := if stateIsSweeping p then action_endSweep (set_programLocked p true)
            else set_programLocked p true).
  assert (Sq : stateIsSweeping q = false).
  { unfold q. destruct (stateIsSweeping p) eqn:ES; [|exact ES].
    unfold action_endSweep. cbn [set_stateIsSweeping sweeps].
    destruct (Nat.eqb (length (sweeps (set_programLocked p true))) sweepMax);
      reflexivity. }
  clearbody q. unfold tidy, action_endOrbit, action_clearAllSweeps.
  cbn [set_programLocked set_sweepButton set_orbitButton set_clearSweepsButton
       set_sim set_sweeps set_stateIsOrbiting programLocked sim sweeps
       stateIsSweeping stateIsOrbiting clearSweepsButton sweepButton orbitButton
       set_style_display set_innerHTML set_disabled innerHTML disabled
       style_display length].
  rewrite Sq.
  split; [reflexivity|]. split; [apply createNewOrbit_well_formed|].
  split; [unfold sweepMax; lia|].
  split; [intros Hd; discriminate Hd|].
  split; [intros _; split; reflexivity|].
  split; [intros _; repeat split; reflexivity|reflexivity].
Qed.

Lemma click_keeps_tidy (p : page) (e : event) :
  e <> Frame -> tidy p -> possible p e = true ->
  tidy (react angleBetween width height p e).
Proof.
  intros He (Hl & Hw & Hn & Hs & Hns & Ho & Hb) Hp.
  destruct e as [|input| | |]; [congruence| | | |]; cbn [react possible] in *.
  - (* the orbit button *)
    destruct (stateIsOrbiting p) eqn:EO.
    + apply stop_makes_tidy; assumption.
    + destruct (Ho eq_refl) as (ES & Hnil & Hsb & Hcb).
      destruct (Hns ES) as (Hd & Hi).
      unfold button_toggleOrbit. rewrite Hl.
      cbn [set_programLocked stateIsOrbiting]. rewrite EO.
      unfold tidy, action_startOrbit.
      cbn [set_programLocked set_sweepButton set_orbitButton set_sim
           set_stateIsOrbiting programLocked sim sweeps stateIsSweeping
           stateIsOrbiting clearSweepsButton sweepButton orbitButton
           set_style_display set_innerHTML innerHTML disabled style_display].
      rewrite ES, Hnil in *.
      split; [reflexivity|]. split; [apply createNewOrbit_well_formed|].
      split; [exact Hn|]. split; [intros Hd'; discriminate Hd'|].
      split; [intros _; split; assumption|].
      split; [intros Hd'; discriminate Hd'|reflexivity].
  - (* the sweep button *)
    unfold clickable in Hp. apply andb_prop in Hp. destruct Hp as (Hdisp & Hen).
    apply negb_true_iff in Hen.
    assert (EO : stateIsOrbiting p = true).
    { destruct (stateIsOrbiting p); [reflexivity|].
      destruct (Ho eq_refl) as (_ & _ & Hsb & _). congruence. }
    unfold button_toggleSweep. rewrite Hl.
    cbn [set_programLocked stateIsSweeping].
    destruct (stateIsSweeping p) eqn:ES.
    + destruct (Hs eq_refl) as (_ & Hne & Hc & Hd & Hi).
      unfold tidy, action_endSweep.
      cbn [set_programLocked set_stateIsSweeping sweeps].
      destruct (Nat.eqb (length (sweeps p)) sweepMax) eqn:Emax;
        cbn [set_programLocked set_sweepButton set_clearSweepsButton
             set_stateIsSweeping programLocked sim sweeps stateIsSweeping
             stateIsOrbiting clearSweepsButton sweepButton orbitButton
             set_style_display set_innerHTML set_disabled innerHTML disabled
             style_display];
        rewrite ?Emax, ?Hd, ?EO;
        (split; [reflexivity|]); (split; [exact Hw|]); (split; [exact Hn|]);
        (split; [intros Hd'; discriminate Hd'|]);
        (split; [intros _; split; reflexivity|]);
        (split; [intros Hd'; discriminate Hd'|]);
        rewrite EO in Hb; exact Hb.
    + destruct (Hns eq_refl) as (Hd & Hi).
      rewrite Hen in Hd. symmetry in Hd. apply Nat.eqb_neq in Hd.
      unfold tidy, action_startSweep.
      cbn [set_programLocked set_sweepButton set_clearSweepsButton set_sweeps
           set_stateIsSweeping programLocked sim sweeps stateIsSweeping
           stateIsOrbiting clearSweepsButton sweepButton orbitButton
           set_style_display set_innerHTML set_disabled innerHTML disabled
           style_display].
      rewrite length_app. cbn [length].
      split; [reflexivity|]. split; [exact Hw|]. split; [lia|].
      split.
      { intros _. split; [exact EO|]. split.
        - destruct (sweeps p); discriminate.
        - split; [reflexivity|]. split; [exact Hen|reflexivity]. }
      split; [intros Hd'; discriminate Hd'|].
      split; [intros Hd'; congruence|exact Hb].
  - (* the button that clears the sweeps *)
    unfold clickable in Hp. apply andb_prop in Hp. destruct Hp as (Hdisp & _).
    assert (ES : stateIsSweeping p = false).
    { destruct (stateIsSweeping p); [|reflexivity].
      destruct (Hs eq_refl) as (_ & _ & Hc & _). congruence. }
    assert (EO : stateIsOrbiting p = true).
    { destruct (stateIsOrbiting p); [reflexivity|].
      destruct (Ho eq_refl) as (_ & _ & _ & Hcb). congruence. }
    unfold button_clearAllSweeps. rewrite Hl.
    unfold tidy, action_clearAllSweeps.
    cbn [set_programLocked set_sweepButton set_sweeps programLocked sim sweeps
         stateIsSweeping stateIsOrbiting clearSweepsButton sweepButton orbitButton
         set_innerHTML set_disabled innerHTML disabled style_display length].
    rewrite ES, EO.
    split; [reflexivity|]. split; [exact Hw|]. split; [unfold sweepMax; lia|].
    split; [intros Hd'; discriminate Hd'|].
    split; [intros _; split; reflexivity|].
    split; [intros Hd'; discriminate Hd'|].
    rewrite EO in Hb. exact Hb.
  - (* the button of the reference circle *)
    unfold button_toggleReferenceCircle. rewrite Hl.
    unfold tidy, action_hideReferenceCircle, action_showReferenceCircle.
    cbn [set_programLocked displayReferenceCircle].
    destruct (displayReferenceCircle p);
      cbn [set_programLocked set_referenceCircleButton set_displayReferenceCircle
           programLocked sim sweeps stateIsSweeping stateIsOrbiting
           clearSweepsButton sweepButton orbitButton];
      (split; [reflexivity|]); (split; [exact Hw|]); (split; [exact Hn|]);
      (split; [exact Hs|]); (split; [exact Hns|]); (split; [exact Ho|exact Hb]).
Qed.

Lemma react_keeps_tidy (p : page) (e : event) :
  tidy p -> possible p e = true -> tidy (react angleBetween width height p e).
Proof.
  intros Ht Hp. destruct e as [|input| | |] eqn:Ee.
  - apply frame_keeps_tidy, Ht.
  - apply click_keeps_tidy; [discriminate|exact Ht|exact Hp].
  - apply click_keeps_tidy; [discriminate|exact Ht|exact Hp].
  - apply click_keeps_tidy; [discriminate|exact Ht|exact Hp].
  - apply click_keeps_tidy; [discriminate|exact Ht|exact Hp].
Qed.

Lemma run_keeps_tidy (es : list event) (p : page) :
  tidy p -> all_possible angleBetween width height es p ->
  tidy (run angleBetween width height es p).
Proof.
  revert p. induction es as [|e es IH]; intros p Ht Hp; [exact Ht|].
  destruct Hp as (Hp & Hrest). cbn [run fold_left].
  apply IH; [apply react_keeps_tidy; assumption|exact Hrest].
Qed.

Lemma run_app (es es' : list event) (p : page) :
  run angleBetween width height (es ++ es') p
  = run angleBetween width height es' (run angleBetween width height es p).
Proof. unfold run. apply fold_left_app. Qed.

Lemma repeat_snoc {A : Type} (a : A) (n : nat) : repeat a (S n) = repeat a n ++ [a].
Proof. induction n as [|n IH]; [reflexivity|]. simpl in *. rewrite <- IH. reflexivity. Qed.

Lemma frames_keep_tidy (n : nat) (p : page) :
  tidy p -> tidy (run angleBetween width height (repeat Frame n) p).
Proof.
  intros Ht. induction n as [|n IH]; [exact Ht|].
  rewrite repeat_snoc, run_app. cbn [run fold_left react].
  apply frame_keeps_tidy, IH.
Qed.
End PageFacts.

Section PageRuns.
Context {T : Type} `{JSNumber T}.
Variable angleBetween : vec T -> vec T -> T.
Variables width height : T.

Lemma toggleSweep_starts (p : @page T) :
  programLocked p = false -> stateIsSweeping p = false ->
  let p' := button_toggleSweep p in
  stateIsSweeping p' = true /\ sweeps p' = sweeps p ++ [[]] /\
  stateIsOrbiting p' = stateIsOrbiting p /\
  style_display (sweepButton p') = style_display (sweepButton p) /\
  disabled (sweepButton p') = disabled (sweepButton p) /\
  programLocked p' = false.
Proof.
  intros Hl Hs p'. unfold p', button_toggleSweep. rewrite Hl.
  cbn [set_programLocked stateIsSweeping]. rewrite Hs.
  repeat split; reflexivity.
Qed.

Lemma toggleSweep_ends (p : @page T) :
  programLocked p = false -> stateIsSweeping p = true ->
  let p' := button_toggleSweep p in
  stateIsSweeping p' = false /\ sweeps p' = sweeps p /\
  stateIsOrbiting p' = stateIsOrbiting p.
Proof.
  intros Hl Hs p'. unfold p', button_toggleSweep. rewrite Hl.
  cbn [set_programLocked stateIsSweeping]. rewrite Hs.
  unfold action_endSweep. cbn [set_stateIsSweeping sweeps].
  destruct (Nat.eqb (length (sweeps (set_programLocked p true))) sweepMax);
    repeat split; reflexivity.
Qed.

(** A frame while no sweep is in progress leaves the sweeps alone, and is
    given up when one of them is empty. *)
Lemma frame_without_sweep (p : page) :
  tidy p -> stateIsSweeping p = false ->
  let p' := page_of (draw_page angleBetween width height p) in
  tidy p' /\ stateIsSweeping p' = false /\ sweeps p' = sweeps p /\
  (In [] (sweeps p) ->
   draw_page angleBetween width height p = Aborted TypeError p').
Proof.
  intros Ht Hs p'.
  pose proof (frame_keeps_tidy angleBetween width height p Ht) as Ht'.
  fold p' in Ht'.
  destruct (frame_of_a_tidy_page angleBetween width height p Ht)
    as (w' & _ & _ & _ & E).
  rewrite Hs, andb_false_r in E.
  assert (Ep : p' = set_sim p w').
  { unfold p'. rewrite E. apply page_of_paint. }
  split; [exact Ht'|]. rewrite Ep. split; [exact Hs|]. split; [reflexivity|].
  intros Hin. rewrite E. apply paint_throws. exact Hin.
Qed.

Lemma frames_without_sweep (n : nat) (p : page) :
  tidy p -> stateIsSweeping p = false ->
  let p' := run angleBetween width height (repeat Frame n) p in
  tidy p' /\ stateIsSweeping p' = false /\ sweeps p' = sweeps p.
Proof.
  intros Ht Hs. induction n as [|n (Ht' & Hs' & Hw')]; cbv zeta.
  - split; [exact Ht|]. split; [exact Hs|reflexivity].
  - rewrite repeat_snoc, run_app. cbn [run fold_left react].
    destruct (frame_without_sweep _ Ht' Hs') as (A & B & C & _).
    split; [exact A|]. split; [exact B|]. rewrite C. exact Hw'.
Qed.

(** A frame while a sweep is in progress adds the planet's new position to
    it. *)
Lemma frame_with_sweep (p : page) (finished : list (list (vec T)))
    (current : list (vec T)) :
  tidy p -> stateIsOrbiting p = true -> stateIsSweeping p = true ->
  sweeps p = finished ++ [current] ->
  let p' := page_of (draw_page angleBetween width height p) in
  tidy p' /\ stateIsOrbiting p' = true /\ stateIsSweeping p' = true /\
  draw angleBetween true (sim p) = Normal (sim p') /\
  sweeps p' = finished ++ [current ++ [xPlanet (orbit (sim p'))]].
Proof.
  intros Ht Ho Hs Hsw p'.
  pose proof (frame_keeps_tidy angleBetween width height p Ht) as Ht'.
  fold p' in Ht'.
  destruct (frame_of_a_tidy_page angleBetween width height p Ht)
    as (w' & Ed & _ & _ & E).
  rewrite Ho, Hs in E. cbn [andb] in E. rewrite Ho in Ed.
  assert (Ep : p' = set_sweeps (set_sim p w')
                      (removelast (sweeps p)
                       ++ [last (sweeps p) [] ++ [xPlanet (orbit w')]])).
  { unfold p'. rewrite E. apply page_of_paint. }
  split; [exact Ht'|]. rewrite Ep.
  split; [exact Ho|]. split; [exact Hs|]. split; [exact Ed|].
  cbn [set_sweeps set_sim sweeps sim].
  rewrite Hsw, removelast_last, last_last. reflexivity.
Qed.

Lemma frames_with_sweep (n : nat) (p : page) (finished : list (list (vec T)))
    (current : list (vec T)) :
  tidy p -> stateIsOrbiting p = true -> stateIsSweeping p = true ->
  sweeps p = finished ++ [current] ->
  let p' := run angleBetween width height (repeat Frame n) p in
  exists points,
    tidy p' /\ stateIsOrbiting p' = true /\ stateIsSweeping p' = true /\
    frames angleBetween n (sim p) = Normal (sim p') /\
    length points = n /\
    sweeps p' = finished ++ [current ++ points] /\
    last points (xPlanet (orbit (sim p))) = xPlanet (orbit (sim p')) /\
    (isFirstOrbit (orbit (sim p')) = true ->
     firstOrbitPath (orbit (sim p'))
     = firstOrbitPath (orbit (sim p)) ++ points).
Proof.
  intros Ht Ho Hs Hsw.
  induction n as [|n (points & Ht' & Ho' & Hs' & Ef & Len & Hsw' & Hl & Hp)];
    cbv zeta.
  - exists []. rewrite !app_nil_r.
    split; [exact Ht|]. split; [exact Ho|]. split; [exact Hs|].
    split; [reflexivity|]. split; [reflexivity|]. split; [exact Hsw|].
    split; [reflexivity|]. intros _. reflexivity.
  - rewrite repeat_snoc, run_app. cbn [run fold_left react].
    set (q := run angleBetween width height (repeat Frame n) p) in *.
    destruct (frame_with_sweep q finished (current ++ points) Ht' Ho' Hs' Hsw')
      as (A & B & C & D & E).
    set (q' := page_of (draw_page angleBetween width height q)) in *.
    exists (points ++ [xPlanet (orbit (sim q'))]).
    split; [exact A|]. split; [exact B|]. split; [exact C|].
    split; [cbn [frames]; rewrite Ef; exact D|].
    split; [rewrite length_app, Len; simpl; lia|].
    split; [rewrite E, app_assoc; reflexivity|].
    split; [apply last_last|].
    intros Hfirst.
    destruct (draw_path_grows angleBetween (sim q) (proj1 (proj2 Ht')))
      as (w2 & E2 & _ & G2 & K2).
    assert (w2 = sim q') as -> by congruence.
    destruct (isFirstOrbit (orbit (sim q))) eqn:Hmode.
    + rewrite (G2 eq_refl), (Hp eq_refl), app_assoc. reflexivity.
    + destruct (K2 eq_refl) as (F & _). congruence.
Qed.
End PageRuns.

(** X15.  [drawSweeps] needs a point in every sweep.  With an empty sweep
    in the list it throws a [TypeError], at [sweepMiddlePhys.copy()];
    otherwise it labels every sweep, numbering them from 1 in the order of
    the list, with the days of [getSweepTimeInDays] and the area of
    [getSweepAreaInAU2]. *)
Theorem drawSweeps_needs_a_point_in_every_sweep {T : Type} `{JSNumber T}
    (width height : T) (all : list (list (vec T))) :
  (In [] all -> drawSweeps width height all = Thrown TypeError) /\
  (~ In [] all ->
   exists labels,
     drawSweeps width height all = Returned labels /\
     length labels = length all /\
     forall k sweepPath,
       nth_error all k = Some sweepPath ->
       exists l,
         nth_error labels k = Some l /\
         label_number l = (k + 1)%nat /\
         sweepDays l = getSweepTimeInDays sweepPath /\
         sweepArea l = getSweepAreaInAU2 sweepPath).
Proof.
  split.
  - intros Hin. apply drawSweeps_from_throws, Hin.
  - intros Hin. apply (drawSweeps_from_returns width height all Hin 0).
Qed.

(** X16.  Clicking the sweep button twice with no frame in between, on a
    tidy page with an orbit under way, is possible and leaves an empty sweep
    behind; from then on every frame is given up with a [TypeError] in
    [drawSweeps], however many frames have gone by. *)
Theorem empty_sweep_aborts_every_frame {T : Type} `{JSNumber T}
    (angleBetween : vec T -> vec T -> T) (width height : T)
    (p : page) (n : nat) :
  tidy p -> stateIsOrbiting p = true -> stateIsSweeping p = false ->
  clickable (sweepButton p) = true ->
  let twice := [Click_toggleSweep; Click_toggleSweep] in
  all_possible angleBetween width height twice p /\
  exists p',
    draw_page angleBetween width height
      (run angleBetween width height (twice ++ repeat Frame n) p)
    = Aborted TypeError p' /\
    stateIsSweeping p' = false /\
    sweeps p' = sweeps p ++ [[]].
Proof.
  intros Ht Ho Hs Hc twice.
  pose proof Ht as (Hl & _).
  destruct (toggleSweep_starts p Hl Hs) as (S1 & W1 & O1 & D1 & B1 & L1).
  destruct (toggleSweep_ends (button_toggleSweep p) L1 S1) as (S2 & W2 & O2).
  assert (P1 : possible p Click_toggleSweep = true) by exact Hc.
  assert (P2 : possible (button_toggleSweep p) Click_toggleSweep = true).
  { cbn [possible]. unfold clickable, displayed in *. rewrite D1, B1. exact Hc. }
  assert (Hall : all_possible angleBetween width height twice p).
  { cbn. split; [exact P1|]. split; [exact P2|exact I]. }
  split; [exact Hall|].
  pose proof (run_keeps_tidy angleBetween width height twice p Ht Hall) as T2.
  rewrite run_app.
  set (p2 := run angleBetween width height twice p) in *.
  assert (Ep2 : p2 = button_toggleSweep (button_toggleSweep p)) by reflexivity.
  destruct (frames_without_sweep angleBetween width height n p2 T2)
    as (Tn & Sn & Wn); [rewrite Ep2; exact S2|].
  set (q := run angleBetween width height (repeat Frame n) p2) in *.
  destruct (frame_without_sweep angleBetween width height q Tn Sn)
    as (_ & Sq & Wq & Hthrow).
  exists (page_of (draw_page angleBetween width height q)).
  assert (Esw : sweeps q = sweeps p ++ [[]]).
  { rewrite Wn, Ep2, W2, W1. reflexivity. }
  split; [|split; [exact Sq|rewrite Wq; exact Esw]].
  apply Hthrow. rewrite Esw. apply in_or_app. right. left. reflexivity.
Qed.

Lemma page_in_orbit_tidy : tidy page_in_orbit.
Proof.
  unfold tidy, page_in_orbit.
  cbn [programLocked sim sweeps stateIsSweeping stateIsOrbiting
       clearSweepsButton sweepButton orbitButton innerHTML disabled length].
  split; [reflexivity|]. split; [apply launch_well_formed|].
  split; [unfold sweepMax; lia|]. split; [intros Hd; discriminate Hd|].
  split; [intros _; split; reflexivity|].
  split; [intros Hd; discriminate Hd|reflexivity].
Qed.

Lemma empty_sweep_aborts_every_frame_witness :
  exists p',
    draw_page angleBetween_y_axis 800%float 600%float
      (run angleBetween_y_axis 800%float 600%float
         ([Click_toggleSweep; Click_toggleSweep] ++ repeat Frame 3) page_in_orbit)
    = Aborted TypeError p' /\
    stateIsSweeping p' = false /\
    sweeps p' = sweeps page_in_orbit ++ [[]].
Proof.
  exact (proj2 (empty_sweep_aborts_every_frame angleBetween_y_axis 800%float 600%float
                  page_in_orbit 3 page_in_orbit_tidy eq_refl eq_refl eq_refl)).
Defined.

(** X17.  While a sweep is in progress on a tidy page, [n] frames add [n]
    points to it, the positions of the planet frame by frame, and start no
    other sweep; as long as the orbit is in its first-orbit mode these are
    the very points the frames add to the recorded path. *)
Theorem sweep_follows_the_planet {T : Type} `{JSNumber T}
    (angleBetween : vec T -> vec T -> T) (width height : T)
    (p : page) (finished : list (list (vec T))) (current : list (vec T))
    (n : nat) :
  tidy p -> stateIsOrbiting p = true -> stateIsSweeping p = true ->
  sweeps p = finished ++ [current] ->
  let p' := run angleBetween width height (repeat Frame n) p in
  exists points,
    length points = n /\
    sweeps p' = finished ++ [current ++ points] /\
    frames angleBetween n (sim p) = Normal (sim p') /\
    last points (xPlanet (orbit (sim p))) = xPlanet (orbit (sim p')) /\
    (isFirstOrbit (orbit (sim p')) = true ->
     firstOrbitPath (orbit (sim p'))
     = firstOrbitPath (orbit (sim p)) ++ points).
Proof.
  intros Ht Ho Hs Hsw p'.
  destruct (frames_with_sweep angleBetween width height n p finished current
              Ht Ho Hs Hsw)
    as (points & _ & _ & _ & Ef & Len & Hsw' & Hl & Hp).
  exists points. repeat split; assumption.
Qed.

Lemma page_in_sweep_tidy : tidy page_in_sweep.
Proof.
  apply (click_keeps_tidy angleBetween_y_axis 800%float 600%float page_in_orbit
           Click_toggleSweep); [discriminate|exact page_in_orbit_tidy|reflexivity].
Qed.

Lemma sweep_follows_the_planet_witness :
  exists points,
    length points = 4%nat /\
    sweeps (run angleBetween_y_axis 800%float 600%float (repeat Frame 4) page_in_sweep)
    = [] ++ [[] ++ points].
Proof.
  destruct (sweep_follows_the_planet angleBetween_y_axis 800%float 600%float page_in_sweep
              [] [] 4 page_in_sweep_tidy eq_refl eq_refl eq_refl)
    as (points & Len & Hsw & _).
  exists points. split; [exact Len|exact Hsw].
Defined.

(** X18.  From the moment an orbit is stopped with its button, whatever is
    then clicked among the buttons that are displayed and enabled, and
    however many frames go by in between, the page stays tidy: the lock is
    released, the orbit never throws, there are at most [sweepMax] sweeps,
    a sweep is in progress only with an orbit under way and a sweep to add
    points to, and without an orbit there is no sweep. *)
Theorem page_stays_tidy_after_a_stop {T : Type} `{JSNumber T}
    (angleBetween : vec T -> vec T -> T) (width height : T)
    (q : page) (input : vec T) (es : list event) :
  programLocked q = false -> stateIsOrbiting q = true ->
  all_possible angleBetween width height es (button_toggleOrbit input q) ->
  let p' := run angleBetween width height es (button_toggleOrbit input q) in
  tidy p' /\
  programLocked p' = false /\
  (length (sweeps p') <= sweepMax)%nat /\
  (stateIsSweeping p' = true -> stateIsOrbiting p' = true /\ sweeps p' <> []) /\
  (stateIsOrbiting p' = false -> sweeps p' = []) /\
  exists w', draw angleBetween (stateIsOrbiting p') (sim p') = Normal w'.
Proof.
  intros Hl Ho Hall p'.
  pose proof (run_keeps_tidy angleBetween width height es _
                (stop_makes_tidy q input Hl Ho) Hall) as Ht.
  fold p' in Ht. split; [exact Ht|].
  destruct (frame_of_a_tidy_page angleBetween width height p' Ht) as (w' & E & _).
  destruct Ht as (L & _ & N & S & _ & O & _).
  split; [exact L|]. split; [exact N|].
  split; [intros Hs; destruct (S Hs) as (A & B & _); split; assumption|].
  split; [intros Hno; destruct (O Hno) as (_ & A & _); exact A|].
  exists w'. exact E.
Qed.

Lemma page_stays_tidy_after_a_stop_witness :
  (length (sweeps (run angleBetween_y_axis 800%float 600%float
                     [Click_toggleOrbit (fvec 0%float 2%float); Click_toggleSweep; Frame; Frame;
                      Click_toggleSweep; Click_toggleSweep; Frame;
                      Click_toggleSweep; Click_clearAllSweeps]
                     (button_toggleOrbit (fvec 1%float 0%float) page_in_orbit)))
   <= sweepMax)%nat.
Proof.
  refine (proj1 (proj2 (proj2
            (page_stays_tidy_after_a_stop angleBetween_y_axis 800%float 600%float
               page_in_orbit (fvec 1%float 0%float)
               [Click_toggleOrbit (fvec 0%float 2%float); Click_toggleSweep; Frame; Frame;
                Click_toggleSweep; Click_toggleSweep; Frame;
                Click_toggleSweep; Click_clearAllSweeps]
               eq_refl eq_refl _)))).
  vm_compute. repeat split; reflexivity.
Defined.

(** ** The earlier sketch *)

Section EarlierFacts.
Context {T : Type} `{JSNumber T}.
Variable angleBetween : vec T -> vec T -> T.

Lemma next_index_mod (i len : nat) :
  (i < len)%nat ->
  (if Nat.eqb (S i) len then 0%nat else S i) = ((i + 1) mod len)%nat.
Proof.
  intros Hi. replace (i + 1)%nat with (S i) by lia.
  destruct (Nat.eqb_spec (S i) len) as [->|Hne].
  - symmetry. apply Nat.Div0.mod_same.
  - symmetry. apply Nat.mod_small. lia.
Qed.

(** A frame of the snapped orbit of the earlier sketch. *)
Lemma earlier_snapped_frame (w : world T) :
  isFirstOrbit (orbit w) = false ->
  (currSnapIndex (orbit w) < length (firstOrbitPath (orbit w)))%nat ->
  exists w',
    Earlier.draw angleBetween w = Normal w' /\
    nth_error (firstOrbitPath (orbit w)) (currSnapIndex (orbit w))
    = Some (xPlanet (orbit w')) /\
    currSnapIndex (orbit w')
    = ((currSnapIndex (orbit w) + 1) mod length (firstOrbitPath (orbit w)))%nat /\
    firstOrbitPath (orbit w') = firstOrbitPath (orbit w) /\
    isFirstOrbit (orbit w') = false /\
    vPlanet (orbit w') = vPlanet (orbit w) /\
    angularChangeThisOrbit (orbit w') = angularChangeThisOrbit (orbit w).
Proof.
  intros Hs Hi. unfold Earlier.draw, Earlier.draw_snapped. rewrite Hs.
  destruct (nth_error (firstOrbitPath (orbit w)) (currSnapIndex (orbit w)))
    as [x|] eqn:E.
  2:{ apply nth_error_None in E. lia. }
  eexists. split; [reflexivity|]. cbn.
  split; [reflexivity|]. split; [apply next_index_mod, Hi|].
  repeat split; assumption.
Qed.

Lemma earlier_snapped_frames (w : world T) (k : nat) :
  isFirstOrbit (orbit w) = false ->
  (currSnapIndex (orbit w) < length (firstOrbitPath (orbit w)))%nat ->
  exists w',
    Earlier.frames angleBetween (S k) w = Normal w' /\
    nth_error (firstOrbitPath (orbit w))
              ((currSnapIndex (orbit w) + k) mod length (firstOrbitPath (orbit w)))
    = Some (xPlanet (orbit w')) /\
    currSnapIndex (orbit w')
    = ((currSnapIndex (orbit w) + S k) mod length (firstOrbitPath (orbit w)))%nat /\
    firstOrbitPath (orbit w') = firstOrbitPath (orbit w) /\
    isFirstOrbit (orbit w') = false /\
    vPlanet (orbit w') = vPlanet (orbit w) /\
    angularChangeThisOrbit (orbit w') = angularChangeThisOrbit (orbit w).
Proof.
  intros Hs Hi.
  assert (Hlen : length (firstOrbitPath (orbit w)) <> 0%nat) by lia.
  induction k as [|k (w1 & E1 & X1 & I1 & P1 & M1 & V1 & A1)].
  - destruct (earlier_snapped_frame w Hs Hi) as (w' & E & X & I & P & M & V & A).
    exists w'. cbn [Earlier.frames and_then].
    split; [exact E|]. rewrite Nat.add_0_r, Nat.mod_small by exact Hi.
    split; [exact X|]. split; [exact I|]. repeat split; assumption.
  - assert (Hi1 : (currSnapIndex (orbit w1) < length (firstOrbitPath (orbit w1)))%nat).
    { rewrite I1, P1. apply Nat.mod_upper_bound, Hlen. }
    destruct (earlier_snapped_frame w1 M1 Hi1) as (w' & E & X & I & P & M & V & A).
    exists w'. change (Earlier.frames angleBetween (S (S k)) w)
      with (and_then (Earlier.frames angleBetween (S k) w) (Earlier.draw angleBetween)).
    rewrite E1. cbn [and_then]. split; [exact E|].
    rewrite P1, I1 in X. split; [exact X|].
    split.
    { rewrite I, I1, P1, Nat.Div0.add_mod_idemp_l. f_equal. lia. }
    split; [congruence|]. split; [exact M|]. split; congruence.
Qed.

(** No frame of a launched orbit throws in the earlier sketch. *)
Lemma earlier_launch_frames (v : vec T) (n : nat) :
  exists w,
    Earlier.frames angleBetween n (launch v) = Normal w /\
    (currSnapIndex (orbit w) < length (firstOrbitPath (orbit w)))%nat /\
    nth_error (firstOrbitPath (orbit w)) 0
    = Some (createVector (num_of_nat 0) (- num_of_nat 1)%js) /\
    (isFirstOrbit (orbit w) = true ->
     currSnapIndex (orbit w) = 0%nat /\
     length (firstOrbitPath (orbit w)) = (n + 1)%nat).
Proof.
  induction n as [|n (w1 & E1 & I1 & Z1 & F1)].
  - exists (launch v). split; [reflexivity|]. split; [simpl; lia|].
    split; [reflexivity|]. intros _. split; reflexivity.
  - cbn [Earlier.frames]. rewrite E1. cbn [and_then].
    destruct (isFirstOrbit (orbit w1)) eqn:Hmode.
    + destruct (F1 eq_refl) as (Hz & Hl).
      unfold Earlier.draw, Earlier.draw_first_orbit. rewrite Hmode.
      destruct (updatePlanet_Iterative_Subdivided_normal 4 25 G_setting
                  Earlier.dt_setting w1) as (w2 & E2 & S2).
      pose proof S2 as (s1 & s2 & s3 & s4 & s5 & s6).
      rewrite E2. cbn [and_then]. cbn [firstOrbitPath set_firstOrbitPath].
      assert (Hne : firstOrbitPath (orbit w1) <> []).
      { intros Q. rewrite Q in Hl. simpl in Hl. lia. }
      rewrite s3, (element_before_pushed _ (xPlanet (orbit w2)) Hne).
      eexists. split; [reflexivity|].
      cbn [orbit set_orbit currSnapIndex firstOrbitPath set_isFirstOrbit
           set_angularChangeThisOrbit set_firstOrbitPath isFirstOrbit].
      rewrite length_app, s4, Hz, Hl. cbn [length].
      split; [lia|]. split.
      * destruct (firstOrbitPath (orbit w1)); [congruence|exact Z1].
      * intros _. split; [reflexivity|lia].
    + destruct (earlier_snapped_frame w1 Hmode I1) as (w' & E & X & I & P & M & _).
      exists w'. split; [exact E|]. rewrite I, P.
      split; [apply Nat.mod_upper_bound; lia|]. split; [exact Z1|].
      intros Hd. congruence.
Qed.
End EarlierFacts.

(** X19.  The replay of the earlier sketch.  A snapped orbit whose index is
    inside the path throws at no frame; its [(k+1)]-th frame puts the planet
    on the recorded point of index [(currSnapIndex + k) mod length] and
    leaves the path, the velocity and the mode alone: the planet goes
    through the recorded points in order, round and round, with the length
    of the path as its period. *)
Theorem earlier_replay_is_cyclic {T : Type} `{JSNumber T}
    (angleBetween : vec T -> vec T -> T) (w : world T) (k : nat) :
  isFirstOrbit (orbit w) = false ->
  (currSnapIndex (orbit w) < length (firstOrbitPath (orbit w)))%nat ->
  exists w' w'',
    Earlier.frames angleBetween (S k) w = Normal w' /\
    Earlier.frames angleBetween (S (k + length (firstOrbitPath (orbit w)))) w
    = Normal w'' /\
    nth_error (firstOrbitPath (orbit w))
              ((currSnapIndex (orbit w) + k) mod length (firstOrbitPath (orbit w)))
    = Some (xPlanet (orbit w')) /\
    currSnapIndex (orbit w')
    = ((currSnapIndex (orbit w) + S k) mod length (firstOrbitPath (orbit w)))%nat /\
    firstOrbitPath (orbit w') = firstOrbitPath (orbit w) /\
    vPlanet (orbit w') = vPlanet (orbit w) /\
    isFirstOrbit (orbit w') = false /\
    xPlanet (orbit w'') = xPlanet (orbit w') /\
    currSnapIndex (orbit w'') = currSnapIndex (orbit w').
Proof.
  intros Hs Hi.
  destruct (earlier_snapped_frames angleBetween w k Hs Hi)
    as (w' & E & X & I & P & M & V & _).
  destruct (earlier_snapped_frames angleBetween w
              (k + length (firstOrbitPath (orbit w))) Hs Hi)
    as (w'' & E' & X' & I' & _).
  exists w', w''. split; [exact E|]. split; [exact E'|].
  split; [exact X|]. split; [exact I|]. split; [exact P|]. split; [exact V|].
  split; [exact M|].
  assert (Hlen : length (firstOrbitPath (orbit w)) <> 0%nat) by lia.
  split.
  - rewrite Nat.add_assoc in X'.
    rewrite <- (Nat.mul_1_l (length (firstOrbitPath (orbit w)))) in X' at 1.
    rewrite Nat.Div0.mod_add in X'. congruence.
  - rewrite I', I.
    replace (currSnapIndex (orbit w) + S (k + length (firstOrbitPath (orbit w))))%nat
      with (currSnapIndex (orbit w) + S k + 1 * length (firstOrbitPath (orbit w)))%nat
      by lia.
    apply Nat.Div0.mod_add.
Qed.

Lemma earlier_replay_is_cyclic_witness :
  exists w' w'',
    Earlier.frames angleBetween_y_axis 6 snapped_square = Normal w' /\
    Earlier.frames angleBetween_y_axis 10 snapped_square = Normal w'' /\
    xPlanet (orbit w') = fvec 1 0 /\
    xPlanet (orbit w'') = xPlanet (orbit w').
Proof.
  destruct (earlier_replay_is_cyclic angleBetween_y_axis snapped_square 5
              eq_refl ltac:(simpl; lia))
    as (w' & w'' & E & E' & X & _ & _ & _ & _ & Q & _).
  exists w', w''. split; [exact E|]. split; [exact E'|].
  split; [|exact Q]. simpl in X. congruence.
Defined.

(** X20.  In the earlier sketch no frame of a launched orbit throws, for
    every number type and every [angleBetween].  The path starts with the
    launch position [(0, -1)]; the replay index stays inside the path, and
    is 0 as long as the first orbit lasts, so that the replay starts from
    the launch position; after [n] frames of first orbit the path holds
    [n + 1] points. *)
Theorem earlier_launch_never_throws {T : Type} `{JSNumber T}
    (angleBetween : vec T -> vec T -> T) (v : vec T) (n : nat) :
  exists w,
    Earlier.frames angleBetween n (launch v) = Normal w /\
    (currSnapIndex (orbit w) < length (firstOrbitPath (orbit w)))%nat /\
    nth_error (firstOrbitPath (orbit w)) 0
    = Some (createVector (num_of_nat 0) (- num_of_nat 1)%js) /\
    (isFirstOrbit (orbit w) = true ->
     currSnapIndex (orbit w) = 0%nat /\
     length (firstOrbitPath (orbit w)) = (n + 1)%nat).
Proof. exact (earlier_launch_frames angleBetween v n). Qed.

(** ** The integrator and the tracker: rotations about the sun *)

Section TurnFacts.
Local Open Scope R_scope.
Variables c s : R.
Hypothesis unit_cs : c * c + s * s = 1.

Lemma magSq_turn (u : vec R) : magSq (turn c s u) = magSq u.
Proof.
  unfold magSq, turn; js_real; cbn [vx vy].
  transitivity ((c * c + s * s) * (vx u * vx u + vy u * vy u)); [ring|].
  rewrite unit_cs. ring.
Qed.

Lemma mag_turn (u : vec R) : mag (turn c s u) = mag u.
Proof. unfold mag. now rewrite magSq_turn. Qed.

Lemma vmult_turn (u : vec R) (k : R) : vmult (turn c s u) k = turn c s (vmult u k).
Proof. apply vec_eq; unfold vmult, turn; js_real; cbn [vx vy]; ring. Qed.

Lemma vdiv_turn (u : vec R) (k : R) : vdiv (turn c s u) k = turn c s (vdiv u k).
Proof. apply vec_eq; unfold vdiv, turn; js_real; cbn [vx vy]; unfold Rdiv; ring. Qed.

Lemma vadd_turn (u v : vec R) : vadd (turn c s u) (turn c s v) = turn c s (vadd u v).
Proof. apply vec_eq; unfold vadd, turn; js_real; cbn [vx vy]; ring. Qed.

Lemma normalize_turn (u : vec R) : normalize (turn c s u) = turn c s (normalize u).
Proof.
  unfold normalize. rewrite mag_turn.
  destruct (strict_eq (mag u) (num_of_nat 0)); [reflexivity|apply vmult_turn].
Qed.

Lemma iterative_pass_turn (G dt : R) (v x : vec R) (st : iter_vars R) :
  iterative_pass G dt (turn c s v) (turn c s x) (turn_vars c s st)
  = turn_vars c s (iterative_pass G dt v x st).
Proof.
  unfold iterative_pass, turn_vars. cbn [it_xAvg it_vNext it_vAvg it_xNext option_map].
  rewrite normalize_turn, magSq_turn.
  rewrite !vmult_turn, !vadd_turn, !vdiv_turn, !vmult_turn, !vadd_turn, !vdiv_turn.
  reflexivity.
Qed.

Lemma passes_turn (G dt : R) (v x : vec R) (n : nat) (st : iter_vars R) :
  Nat.iter n (iterative_pass G dt (turn c s v) (turn c s x)) (turn_vars c s st)
  = turn_vars c s (Nat.iter n (iterative_pass G dt v x) st).
Proof.
  induction n as [|n IH]; [reflexivity|].
  rewrite !Nat.iter_succ, IH. apply iterative_pass_turn.
Qed.

Lemma updatePlanet_Iterative_turn (n : nat) (G dt : R) (w : world R) :
  updatePlanet_Iterative n G dt (turn_world c s w)
  = turn_completion c s (updatePlanet_Iterative n G dt w).
Proof.
  unfold updatePlanet_Iterative. rewrite !for_loop_passes.
  change (loop_entry (turn_world c s w)) with (turn_vars c s (loop_entry w)).
  change (vPlanet (orbit (turn_world c s w))) with (turn c s (vPlanet (orbit w))).
  change (xPlanet (orbit (turn_world c s w))) with (turn c s (xPlanet (orbit w))).
  rewrite passes_turn.
  set (st := Nat.iter n (iterative_pass G dt (vPlanet (orbit w)) (xPlanet (orbit w)))
               (loop_entry w)).
  unfold commit. cbn [turn_vars it_vNext it_vAvg it_xNext].
  destruct (it_vNext st) as [vN|]; cbn [option_map]; [|reflexivity].
  destruct (it_xNext st) as [xN|]; cbn [option_map]; reflexivity.
Qed.

Lemma subdivided_loop_turn (i : nat) (G dt : R) (n : nat) (w : world R) :
  subdivided_loop i G dt n (turn_world c s w)
  = turn_completion c s (subdivided_loop i G dt n w).
Proof.
  revert w. induction n as [|n IH]; intros w; [reflexivity|].
  cbn [subdivided_loop]. rewrite updatePlanet_Iterative_turn.
  destruct (updatePlanet_Iterative i G dt w) as [w1|e w1]; cbn [turn_completion and_then].
  - apply IH.
  - reflexivity.
Qed.

Lemma updatePlanet_Iterative_Subdivided_turn
  (iterCount subdivCount : nat) (G dt : R) (w : world R) :
  updatePlanet_Iterative_Subdivided iterCount subdivCount G dt (turn_world c s w)
  = turn_completion c s (updatePlanet_Iterative_Subdivided iterCount subdivCount G dt w).
Proof. apply subdivided_loop_turn. Qed.

Lemma dot_turn (u v : vec R) :
  vx (turn c s u) * vx (turn c s v) + vy (turn c s u) * vy (turn c s v)
  = vx u * vx v + vy u * vy v.
Proof.
  unfold turn; cbn [vx vy].
  transitivity ((c * c + s * s) * (vx u * vx v + vy u * vy v)); [ring|].
  rewrite unit_cs. ring.
Qed.

Lemma cross_turn (u v : vec R) :
  vx (turn c s u) * vy (turn c s v) - vy (turn c s u) * vx (turn c s v)
  = vx u * vy v - vy u * vx v.
Proof.
  unfold turn; cbn [vx vy].
  transitivity ((c * c + s * s) * (vx u * vy v - vy u * vx v)); [ring|].
  rewrite unit_cs. ring.
Qed.

Lemma angleBetween_acos_turn (u v : vec R) :
  angleBetween_acos (turn c s u) (turn c s v) = angleBetween_acos u v.
Proof.
  unfold angleBetween_acos. rewrite !mag_turn, dot_turn, cross_turn. reflexivity.
Qed.

Section TurnFrames.
Variable angleBetween : vec R -> vec R -> R.
Hypothesis angle_turn :
  forall u v : vec R,
    Rabs (angleBetween (turn c s u) (turn c s v)) = Rabs (angleBetween u v).

Lemma element_at_turn (l : list (vec R)) (i : Z) :
  element_at (map (turn c s) l) i = option_map (turn c s) (element_at l i).
Proof. unfold element_at. destruct (i <? 0)%Z; [reflexivity|apply nth_error_map]. Qed.

Lemma interpolatePosition_turn (path : list (vec R)) (index : nat) (t : R) :
  interpolatePosition (map (turn c s) path) index t
  = option_map (turn c s) (interpolatePosition path index t).
Proof.
  unfold interpolatePosition. rewrite length_map, !nth_error_map.
  destruct (nth_error path index) as [p1|]; cbn [option_map]; [|reflexivity].
  destruct (nth_error path ((index + 1) mod length path)) as [p2|]; cbn [option_map];
    [|reflexivity].
  now rewrite !vmult_turn, vadd_turn.
Qed.

Lemma snap_setup_turn (w : world R) :
  snap_setup angleBetween (turn_world c s w)
  = turn_completion c s (snap_setup angleBetween w).
Proof.
  destruct w as [g1 g2 g3 [x v f acc path idx sub carry]].
  unfold snap_setup, turn_world, turn_orbit.
  cbn [orbit firstOrbitPath set_isFirstOrbit xPlanet vPlanet isFirstOrbit
       angularChangeThisOrbit currSnapIndex currSnapSubindex indexCarryOver].
  rewrite !nth_error_map.
  destruct (nth_error path 1) as [q1|]; cbn [option_map]; [|reflexivity].
  destruct (nth_error path 0) as [q0|]; cbn [option_map]; [|reflexivity].
  js_real. rewrite angle_turn. reflexivity.
Qed.

Lemma draw_first_orbit_turn (w : world R) :
  draw_first_orbit angleBetween (turn_world c s w)
  = turn_completion c s (draw_first_orbit angleBetween w).
Proof.
  unfold draw_first_orbit. rewrite updatePlanet_Iterative_Subdivided_turn.
  destruct (updatePlanet_Iterative_Subdivided 5 25 G_setting dt_setting w) as [w1|e w1];
    cbn [turn_completion and_then]; [|reflexivity].
  destruct w1 as [g1 g2 g3 [x v f acc path idx sub carry]].
  cbn [turn_world turn_orbit orbit firstOrbitPath xPlanet set_firstOrbitPath
       vPlanet isFirstOrbit angularChangeThisOrbit currSnapIndex currSnapSubindex
       indexCarryOver].
  change (map (turn c s) path ++ [turn c s x])
    with (map (turn c s) path ++ map (turn c s) [x]).
  rewrite <- map_app, length_map, element_at_turn.
  destruct (element_at (path ++ [x]) (Z.of_nat (length (path ++ [x])) - 2)) as [prev|];
    cbn [option_map]; [|reflexivity].
  cbn [set_angularChangeThisOrbit angularChangeThisOrbit xPlanet vPlanet isFirstOrbit
       firstOrbitPath currSnapIndex currSnapSubindex indexCarryOver].
  js_real. rewrite angle_turn.
  destruct (Rgtb (acc + Rabs (angleBetween prev x)) two_pi).
  - rewrite <- snap_setup_turn. reflexivity.
  - reflexivity.
Qed.

Lemma draw_snapped_turn (w : world R) :
  draw_snapped (turn_world c s w) = turn_completion c s (draw_snapped w).
Proof.
  destruct w as [g1 g2 g3 [x v f acc path idx sub carry]].
  unfold draw_snapped, turn_world, turn_orbit.
  cbn [orbit firstOrbitPath currSnapIndex currSnapSubindex indexCarryOver
       set_currSnapIndex set_currSnapSubindex xPlanet vPlanet isFirstOrbit
       angularChangeThisOrbit].
  rewrite length_map, interpolatePosition_turn.
  destruct (interpolatePosition path _ _) as [p|]; reflexivity.
Qed.

Lemma draw_turn (b : bool) (w : world R) :
  draw angleBetween b (turn_world c s w) = turn_completion c s (draw angleBetween b w).
Proof.
  unfold draw. destruct b; [|reflexivity].
  change (isFirstOrbit (orbit (turn_world c s w))) with (isFirstOrbit (orbit w)).
  destruct (isFirstOrbit (orbit w)); [apply draw_first_orbit_turn|apply draw_snapped_turn].
Qed.

Lemma frames_turn (n : nat) (w : world R) :
  frames angleBetween n (turn_world c s w)
  = turn_completion c s (frames angleBetween n w).
Proof.
  induction n as [|n IH]; [reflexivity|].
  cbn [frames]. rewrite IH.
  destruct (frames angleBetween n w) as [w1|e w1]; cbn [turn_completion and_then];
    [apply draw_turn|reflexivity].
Qed.
End TurnFrames.
End TurnFacts.

Lemma unit_3_4_5 : (3 / 5 * (3 / 5) + 4 / 5 * (4 / 5) = 1)%R.
Proof. field. Qed.

(** X21.  The integrator does not know a direction.  In exact arithmetic,
    for a rotation about the sun ([c * c + s * s = 1]), for every number of
    passes and of subdivisions, every [G] and every time step: stepping the
    turned state gives the turned result, exception and undeclared globals
    included. *)
Theorem integrator_rotation_symmetry (c s : R)
    (iterCount subdivCount : nat) (G dt : R) (w : world R) :
  (c * c + s * s = 1)%R ->
  updatePlanet_Iterative_Subdivided iterCount subdivCount G dt (turn_world c s w)
  = turn_completion c s
      (updatePlanet_Iterative_Subdivided iterCount subdivCount G dt w).
Proof. intros U. apply subdivided_loop_turn, U. Qed.

Lemma integrator_rotation_symmetry_witness :
  updatePlanet_Iterative_Subdivided 5 25 G_setting dt_setting
    (turn_world (3 / 5) (4 / 5) (launch (rvec 1 0)))
  = turn_completion (3 / 5) (4 / 5)
      (updatePlanet_Iterative_Subdivided 5 25 G_setting dt_setting
         (launch (rvec 1 0))).
Proof.
  exact (integrator_rotation_symmetry (3 / 5) (4 / 5) 5 25 G_setting dt_setting
           (launch (rvec 1 0)) unit_3_4_5).
Defined.

(** X22.  Nor does the tracker.  With an [angleBetween] whose absolute
    value a rotation does not change, the frames of a turned state are the
    turned frames of the state: same mode, same accumulated angle, same
    indices, same exceptions, positions, velocities and recorded path
    turned. *)
Theorem tracker_rotation_symmetry (c s : R)
    (angleBetween : vec R -> vec R -> R) (n : nat) (w : world R) :
  (c * c + s * s = 1)%R ->
  (forall u v : vec R,
     Rabs (angleBetween (turn c s u) (turn c s v)) = Rabs (angleBetween u v)) ->
  frames angleBetween n (turn_world c s w)
  = turn_completion c s (frames angleBetween n w).
Proof. intros U A. apply frames_turn; assumption. Qed.

Lemma tracker_rotation_symmetry_witness :
  frames angleBetween_acos 3
    (turn_world (3 / 5) (4 / 5) (launch (inputVelocityToPhys 25 30)))
  = turn_completion (3 / 5) (4 / 5)
      (frames angleBetween_acos 3 (launch (inputVelocityToPhys 25 30))).
Proof.
  apply (tracker_rotation_symmetry (3 / 5) (4 / 5) angleBetween_acos 3
           (launch (inputVelocityToPhys 25 30)) unit_3_4_5).
  intros u v. rewrite (angleBetween_acos_turn _ _ unit_3_4_5). reflexivity.
Defined.

(** ** The launch arrow *)

(** X23.  The launch arrow, in exact arithmetic: from the planet it spans
    3 pixels per unit of input speed, in the direction of the input angle
    read counter-clockwise on the screen (the canvas's y axis points down),
    wherever the planet and whatever the size of the canvas. *)
Theorem launch_arrow_shows_the_input (width height : R) (xPlanet : vec R)
    (vInputMag vInputAngle : R) :
  let ends := drawLaunchArrow_ends width height xPlanet
                (inputVelocityToPhys vInputMag vInputAngle) in
  vsub (snd ends) (fst ends)
  = rvec (3 * vInputMag * cos (vInputAngle * PI / 180))
         (- (3 * vInputMag * sin (vInputAngle * PI / 180))) /\
  dist (fst ends) (snd ends) = (3 * Rabs vInputMag)%R.
Proof.
  intros ends.
  assert (E : vsub (snd ends) (fst ends)
              = rvec (3 * vInputMag * cos (vInputAngle * PI / 180))
                     (- (3 * vInputMag * sin (vInputAngle * PI / 180)))).
  { unfold ends, drawLaunchArrow_ends, physToDisplay, getDisplayCenter,
      getDisplayPerPhys, defaultAUDist, zoom_setting, velocityArrowLenPerPhys,
      inputVelocityToPhys, rvec, vsub, vadd, vmult.
    cbn [fst snd vx vy]. js_real. rewrite !INR_literal. simpl Z.of_nat.
    apply vec_eq; cbn [vx vy]; field. }
  split; [exact E|].
  unfold dist. rewrite E. unfold mag, magSq, rvec. js_real. cbn [vx vy].
  set (a := (vInputAngle * PI / 180)%R).
  replace (3 * vInputMag * cos a * (3 * vInputMag * cos a)
           + - (3 * vInputMag * sin a) * - (3 * vInputMag * sin a))%R
    with (Rsqr (3 * vInputMag) * (Rsqr (sin a) + Rsqr (cos a)))%R
    by (unfold Rsqr; ring).
  rewrite sin2_cos2, Rmult_1_r, sqrt_Rsqr_abs, Rabs_mult, (Rabs_right 3) by lra.
  reflexivity.
Qed.

(** ** The replay inside a lap *)

Section Lap.
Context {T : Type} `{JSNumber T}.
Variable angleBetween : vec T -> vec T -> T.

Lemma snapped_step_inside (w : world T) :
  isFirstOrbit (orbit w) = false ->
  (S (currSnapIndex (orbit w)) < length (firstOrbitPath (orbit w)))%nat ->
  exists w',
    draw angleBetween true w = Normal w' /\
    isFirstOrbit (orbit w') = false /\
    firstOrbitPath (orbit w') = firstOrbitPath (orbit w) /\
    currSnapIndex (orbit w') = S (currSnapIndex (orbit w)) /\
    currSnapSubindex (orbit w') = currSnapSubindex (orbit w) /\
    interpolatePosition (firstOrbitPath (orbit w)) (S (currSnapIndex (orbit w)))
                        (currSnapSubindex (orbit w))
    = Some (xPlanet (orbit w')).
Proof.
  intros Hs Hi. unfold draw. rewrite Hs.
  pose proof (draw_snapped_shape w) as S. cbv zeta in S.
  destruct S as (_ & _ & _ & _ & Em & _ & Ep & _ & Ei & Eu & Hx).
  assert (En : snap_advance (length (firstOrbitPath (orbit w))) (currSnapIndex (orbit w))
                 (currSnapSubindex (orbit w)) (indexCarryOver (orbit w))
               = (S (currSnapIndex (orbit w)), currSnapSubindex (orbit w))).
  { unfold snap_advance.
    destruct (Nat.eqb_spec (S (currSnapIndex (orbit w)))
                (length (firstOrbitPath (orbit w)))); [lia|reflexivity]. }
  rewrite En in *. cbn [fst snd] in *.
  destruct (interpolatePosition_in_range (firstOrbitPath (orbit w))
              (S (currSnapIndex (orbit w))) (currSnapSubindex (orbit w)) Hi)
    as (p1 & p2 & _ & _ & EI).
  rewrite EI in Hx. destruct Hx as (E & Ex).
  eexists. split; [exact E|]. split; [congruence|]. split; [exact Ep|].
  split; [exact Ei|]. split; [exact Eu|]. rewrite EI, Ex. reflexivity.
Qed.

Lemma snapped_steps_inside (w : world T) (k : nat) :
  isFirstOrbit (orbit w) = false ->
  (currSnapIndex (orbit w) + S k < length (firstOrbitPath (orbit w)))%nat ->
  exists w',
    frames angleBetween (S k) w = Normal w' /\
    isFirstOrbit (orbit w') = false /\
    firstOrbitPath (orbit w') = firstOrbitPath (orbit w) /\
    currSnapIndex (orbit w') = (currSnapIndex (orbit w) + S k)%nat /\
    currSnapSubindex (orbit w') = currSnapSubindex (orbit w) /\
    interpolatePosition (firstOrbitPath (orbit w)) (currSnapIndex (orbit w) + S k)
                        (currSnapSubindex (orbit w))
    = Some (xPlanet (orbit w')).
Proof.
  intros Hs. induction k as [|k IH]; intros Hi.
  - destruct (snapped_step_inside w Hs) as (w' & E & M & P & I & U & X); [lia|].
    exists w'. cbn [frames and_then]. split; [exact E|]. split; [exact M|].
    split; [exact P|]. rewrite Nat.add_1_r. split; [exact I|]. split; assumption.
  - destruct IH as (w1 & E1 & M1 & P1 & I1 & U1 & _); [lia|].
    destruct (snapped_step_inside w1 M1) as (w' & E & M & P & I & U & X);
      [rewrite I1, P1; lia|].
    exists w'.
    change (frames angleBetween (S (S k)) w)
      with (and_then (frames angleBetween (S k) w) (draw angleBetween true)).
    rewrite E1. cbn [and_then]. split; [exact E|]. split; [exact M|].
    split; [congruence|]. split; [rewrite I, I1; lia|]. split; [congruence|].
    rewrite P1, I1, U1 in X. rewrite <- X. f_equal. lia.
Qed.
End Lap.

(** X24.  Inside a lap the snapped planet steps through the recorded path
    one point per frame at a fixed subindex.  As long as the index stays
    inside the path, after [k >= 1] frames the index has grown by [k], the
    subindex and the path are what they were, no frame has thrown, and the
    planet is at [p1.mult(subindex) + p2.mult(1 - subindex)] for the recorded
    points [p1] of that index and [p2] of the next, with the library's
    [mult]: this is [p1 * subindex + p2 * (1 - subindex)] when the two
    weights are finite numbers, and [p1 + p2] when neither is (a subindex
    that is an infinity or NaN). *)
Theorem replay_steps_one_point_per_frame {T : Type} `{JSNumber T}
    (angleBetween : vec T -> vec T -> T) (w : world T) (k : nat) :
  isFirstOrbit (orbit w) = false ->
  (currSnapIndex (orbit w) + S k < length (firstOrbitPath (orbit w)))%nat ->
  exists w' p1 p2,
    frames angleBetween (S k) w = Normal w' /\
    currSnapIndex (orbit w') = (currSnapIndex (orbit w) + S k)%nat /\
    currSnapSubindex (orbit w') = currSnapSubindex (orbit w) /\
    firstOrbitPath (orbit w') = firstOrbitPath (orbit w) /\
    nth_error (firstOrbitPath (orbit w)) (currSnapIndex (orbit w) + S k) = Some p1 /\
    nth_error (firstOrbitPath (orbit w))
              ((currSnapIndex (orbit w) + S k + 1) mod length (firstOrbitPath (orbit w)))
    = Some p2 /\
    xPlanet (orbit w')
    = vadd (vmult p1 (currSnapSubindex (orbit w)))
           (vmult p2 (num_of_nat 1 - currSnapSubindex (orbit w))%js) /\
    (Number_isFinite (currSnapSubindex (orbit w)) = true ->
     Number_isFinite (num_of_nat 1 - currSnapSubindex (orbit w))%js = true ->
     xPlanet (orbit w')
     = createVector
         (vx p1 * currSnapSubindex (orbit w)
          + vx p2 * (num_of_nat 1 - currSnapSubindex (orbit w)))%js
         (vy p1 * currSnapSubindex (orbit w)
          + vy p2 * (num_of_nat 1 - currSnapSubindex (orbit w)))%js) /\
    (Number_isFinite (currSnapSubindex (orbit w)) = false ->
     Number_isFinite (num_of_nat 1 - currSnapSubindex (orbit w))%js = false ->
     xPlanet (orbit w') = vadd p1 p2).
Proof.
  intros Hs Hi.
  destruct (snapped_steps_inside angleBetween w k Hs Hi)
    as (w' & E & _ & P & I & U & X).
  destruct (interpolatePosition_in_range (firstOrbitPath (orbit w))
              (currSnapIndex (orbit w) + S k) (currSnapSubindex (orbit w)) Hi)
    as (p1 & p2 & Q1 & Q2 & EI).
  assert (Ex : xPlanet (orbit w')
               = vadd (vmult p1 (currSnapSubindex (orbit w)))
                      (vmult p2 (num_of_nat 1 - currSnapSubindex (orbit w))%js))
    by congruence.
  exists w', p1, p2. split; [exact E|]. split; [exact I|]. split; [exact U|].
  split; [exact P|]. split; [exact Q1|]. split; [exact Q2|].
  split; [exact Ex|]. split.
  - intros F1 F2. rewrite Ex. unfold vmult. rewrite F1, F2. reflexivity.
  - intros F1 F2. rewrite Ex. unfold vmult. rewrite F1, F2. reflexivity.
Qed.

(** The snapped orbit the radial launch reaches at frame 32, where the
    subindex is an infinity: the next frame puts the planet at the sum of the
    recorded points 1 and 2, (0, -1.9185622652145216). *)
Lemma replay_steps_one_point_per_frame_witness :
  exists w',
    frames angleBetween_y_axis 1
      (state_of (draw angleBetween_y_axis true radial_frame_31)) = Normal w' /\
    currSnapIndex (orbit w') = 1%nat /\
    currSnapSubindex (orbit w') = infinity /\
    xPlanet (orbit w') = fvec 0 (-0x1.eb26e5886fa0ep+0).
Proof.
  destruct (replay_steps_one_point_per_frame angleBetween_y_axis
              (state_of (draw angleBetween_y_axis true radial_frame_31)) 0)
    as (w' & p1 & p2 & E & I & U & _ & Q1 & Q2 & X & _);
    [vm_compute; reflexivity|vm_compute; lia|].
  exists w'. split; [exact E|].
  vm_compute in Q1. vm_compute in Q2. injection Q1 as <-. injection Q2 as <-.
  split; [rewrite I; vm_compute; reflexivity|].
  split; [rewrite U; vm_compute; reflexivity|].
  rewrite X. vm_compute. reflexivity.
Defined.
